(** * Workflow orchestrator: planning, execution, registry

    A shallow embedding of [scripts/python_ui/services/workflow_orchestrator.py]
    and the properties of its planner, execution engine and registry, of
    the validation and of the workflow builders.

    Conventions of the embedding.
    - [Workflow.steps] is a Python list of step objects that are mutated in
      place.  The list is modelled as [list WorkflowStep]; a reference to a
      step object is its position in that list, and the mutation of a field
      is the update of the list at that position.  Lists of step objects
      built by the code ([remaining_steps], [ready_steps], the execution
      groups) are lists of positions.
    - Python dictionaries that are only read by key are [gmap]s; dictionaries
      whose iteration order is observed are association lists that keep the
      order of first insertion.
    - Exceptions are values of [exn]; a computation that may raise returns a
      [result].
    - The step executor [runner.run_fabric], the clock [datetime.now], the
      completion order of a thread pool and [uuid.uuid4] belong to the
      environment: they are the operations of the class [Environment] and
      act on an abstract [World].
    - Logging is not modelled. *)

From stdpp Require Import base tactics option list strings pretty gmap relations.
From Stdlib Require Import ZArith Ascii.

Set Warnings "-clear-no-such-hyp".

Local Open Scope string_scope.
Local Open Scope Z_scope.
Local Open Scope nat_scope.
Local Open Scope list_scope.

(** ** Data model *)

Inductive WorkflowStatus := PENDING | RUNNING | COMPLETED | FAILED | CANCELLED.

#[global] Instance WorkflowStatus_eq_dec : EqDecision WorkflowStatus.
Proof. solve_decision. Defined.

(** Modelled from the spec: [RunResult] is declared in [utils/typing.py],
    which is not part of the sources; the step executor returns
    [{success, output, error?, durationMs, exitCode}].  An instance is a
    plain object and therefore truthy. *)
Record RunResult := mkRunResult {
  success : bool;
  output : string;
  error : option string;
  duration_ms : Z;
  exit_code : Z
}.

#[global] Instance RunResult_eq_dec : EqDecision RunResult.
Proof. solve_decision. Defined.

(** [retry_delay_s] is a float that no code path reads; it is left out. *)
Record ExecutionConfig := mkExecutionConfig {
  provider : option string;
  model : option string;
  timeout_s : Z;
  max_retries : Z;
  parallel_limit : Z;
  continue_on_error : bool
}.

Definition default_config : ExecutionConfig :=
  {| provider := None; model := None; timeout_s := 90; max_retries := 1;
     parallel_limit := 3; continue_on_error := false |}.

Record WorkflowStep := mkWorkflowStep {
  step_id : string;
  step_pattern : string;
  step_condition : option string;
  step_parallel_group : option string;
  step_timeout : Z;
  step_depends_on : list string;
  step_variables : gmap string string;
  step_status : WorkflowStatus;
  step_start_time : option Z;
  step_end_time : option Z;
  step_result : option RunResult;
  step_error : option string
}.

(** The dataclass-generated [__eq__] compares all fields. *)
#[global] Instance WorkflowStep_eq_dec : EqDecision WorkflowStep.
Proof. solve_decision. Defined.

(** [WorkflowStep(id=..., pattern=..., parallel_group=..., depends_on=...)]
    with the defaults of the dataclass. *)
Definition new_step (i p : string) (g : option string) (deps : list string)
  : WorkflowStep :=
  {| step_id := i; step_pattern := p; step_condition := None;
     step_parallel_group := g; step_timeout := 90; step_depends_on := deps;
     step_variables := ∅; step_status := PENDING; step_start_time := None;
     step_end_time := None; step_result := None; step_error := None |}.

Definition set_status (v : WorkflowStatus) (s : WorkflowStep) : WorkflowStep :=
  {| step_id := step_id s; step_pattern := step_pattern s;
     step_condition := step_condition s;
     step_parallel_group := step_parallel_group s;
     step_timeout := step_timeout s; step_depends_on := step_depends_on s;
     step_variables := step_variables s; step_status := v;
     step_start_time := step_start_time s; step_end_time := step_end_time s;
     step_result := step_result s; step_error := step_error s |}.

Definition set_start_time (t : Z) (s : WorkflowStep) : WorkflowStep :=
  {| step_id := step_id s; step_pattern := step_pattern s;
     step_condition := step_condition s;
     step_parallel_group := step_parallel_group s;
     step_timeout := step_timeout s; step_depends_on := step_depends_on s;
     step_variables := step_variables s; step_status := step_status s;
     step_start_time := Some t; step_end_time := step_end_time s;
     step_result := step_result s; step_error := step_error s |}.

Definition set_end_time (t : Z) (s : WorkflowStep) : WorkflowStep :=
  {| step_id := step_id s; step_pattern := step_pattern s;
     step_condition := step_condition s;
     step_parallel_group := step_parallel_group s;
     step_timeout := step_timeout s; step_depends_on := step_depends_on s;
     step_variables := step_variables s; step_status := step_status s;
     step_start_time := step_start_time s; step_end_time := Some t;
     step_result := step_result s; step_error := step_error s |}.

Definition set_result (r : RunResult) (s : WorkflowStep) : WorkflowStep :=
  {| step_id := step_id s; step_pattern := step_pattern s;
     step_condition := step_condition s;
     step_parallel_group := step_parallel_group s;
     step_timeout := step_timeout s; step_depends_on := step_depends_on s;
     step_variables := step_variables s; step_status := step_status s;
     step_start_time := step_start_time s; step_end_time := step_end_time s;
     step_result := Some r; step_error := step_error s |}.

Definition set_error (e : option string) (s : WorkflowStep) : WorkflowStep :=
  {| step_id := step_id s; step_pattern := step_pattern s;
     step_condition := step_condition s;
     step_parallel_group := step_parallel_group s;
     step_timeout := step_timeout s; step_depends_on := step_depends_on s;
     step_variables := step_variables s; step_status := step_status s;
     step_start_time := step_start_time s; step_end_time := step_end_time s;
     step_result := step_result s; step_error := e |}.

(** [Workflow.results] is never written by the orchestrator and is left
    out. *)
Record Workflow := mkWorkflow {
  wf_id : string;
  wf_name : string;
  wf_steps : list WorkflowStep;
  wf_config : ExecutionConfig;
  wf_status : WorkflowStatus;
  wf_start_time : option Z;
  wf_end_time : option Z;
  wf_current_step : option string
}.

(** ** Exceptions *)

(** [ExecutorError] stands for an exception of the step executor and
    [OverflowError] for the one of the [datetime] arithmetic; of the latter
    only the class is kept. *)
Inductive exn :=
| ExecutionError (msg : string)
| ValueError (msg : string)
| ExecutorError (msg : string)
| OverflowError.

Inductive result (A : Type) :=
| Ok (a : A)
| Raise (e : exn).
Arguments Ok {A} a.
Arguments Raise {A} e.

(** ** Step lookup *)

(** [Workflow.get_step]: the first step, in declaration order, with the
    given id; the result is the reference to that step. *)
Definition get_step (steps : list WorkflowStep) (sid : string) : option nat :=
  fst <$> list_find (λ s, step_id s = sid) steps.

Definition status_at (steps : list WorkflowStep) (i : nat)
  : option WorkflowStatus :=
  step_status <$> steps !! i.

(** ** Planner *)

(** One conjunct of [all(workflow.get_step(dep_id) and
    workflow.get_step(dep_id).status == COMPLETED ...)]. *)
Definition dep_completed (steps : list WorkflowStep) (d : string) : bool :=
  match get_step steps d with
  | Some j => bool_decide (status_at steps j = Some COMPLETED)
  | None => false
  end.

Definition is_ready (steps : list WorkflowStep) (i : nat) : bool :=
  match steps !! i with
  | Some s =>
      match step_depends_on s with
      | [] => true
      | deps => forallb (dep_completed steps) deps
      end
  | None => false
  end.

(** Truthiness of [step.parallel_group]: [None] and the empty string are
    falsy. *)
Definition has_tag (s : WorkflowStep) : bool :=
  match step_parallel_group s with
  | Some g => bool_decide (g ≠ "")
  | None => false
  end.

(** [step.parallel_group or f"_sequential_{step.id}"] *)
Definition group_key (s : WorkflowStep) : string :=
  match step_parallel_group s with
  | Some g => if bool_decide (g ≠ "") then g else "_sequential_" +:+ step_id s
  | None => "_sequential_" +:+ step_id s
  end.

(** The dictionary [parallel_groups] keeps its keys in the order of first
    insertion; [dict_append] is
    [if k not in d: d[k] = []] followed by [d[k].append(i)]. *)
Fixpoint dict_append (d : list (string * list nat)) (k : string) (i : nat)
  : list (string * list nat) :=
  match d with
  | [] => [(k, [i])]
  | (k', v) :: rest =>
      if decide (k' = k) then (k', v ++ [i]) :: rest
      else (k', v) :: dict_append rest k i
  end.

Definition key_at (steps : list WorkflowStep) (i : nat) : string :=
  from_option group_key "" (steps !! i).

Definition tag_at (steps : list WorkflowStep) (i : nat) : bool :=
  from_option has_tag false (steps !! i).

(** The grouping of one round's ready steps (lines 407-422). *)
Definition group_ready (steps : list WorkflowStep) (ready : list nat)
  : list (list nat) :=
  if existsb (tag_at steps) ready then
    (foldl (λ d i, dict_append d (key_at steps i) i) [] ready).*2
  else [ready].

(** [remaining_steps.remove(step)]: delete the first element that is equal
    to [step]; list membership compares with [==], which for a dataclass is
    field-wise equality.  [None] stands for the [ValueError] of a missing
    element. *)
Fixpoint list_remove (steps : list WorkflowStep) (i : nat)
    (remaining : list nat) : option (list nat) :=
  match remaining with
  | [] => None
  | j :: rest =>
      if decide (steps !! j = steps !! i) then Some rest
      else (j ::.) <$> list_remove steps i rest
  end.

Definition mark (v : WorkflowStatus) (i : nat) (steps : list WorkflowStep)
  : list WorkflowStep :=
  match steps !! i with
  | Some s => <[i := set_status v s]> steps
  | None => steps
  end.

(** Lines 425-428: every ready step is removed from [remaining_steps] and
    marked [COMPLETED] on the live step object. *)
Fixpoint mark_ready (steps : list WorkflowStep) (remaining ready : list nat)
  : result (list nat) * list WorkflowStep :=
  match ready with
  | [] => (Ok remaining, steps)
  | i :: rest =>
      match list_remove steps i remaining with
      | None => (Raise (ValueError "list.remove(x): x not in list"), steps)
      | Some remaining' => mark_ready (mark COMPLETED i steps) remaining' rest
      end
  end.

Definition cycle_error : exn :=
  ExecutionError "Circular dependency detected in workflow".

(** The [while remaining_steps] loop.  [fuel] bounds the number of rounds;
    [None] is returned only when the fuel runs out. *)
Fixpoint plan_loop (fuel : nat) (steps : list WorkflowStep)
    (remaining : list nat) (groups : list (list nat))
  : option (result (list (list nat)) * list WorkflowStep) :=
  match remaining with
  | [] => Some (Ok groups, set_status PENDING <$> steps)
  | _ :: _ =>
      match fuel with
      | O => None
      | S fuel' =>
          let ready := filter (λ i, is_ready steps i) remaining in
          match ready with
          | [] => Some (Raise cycle_error, steps)
          | _ :: _ =>
              let groups' := groups ++ group_ready steps ready in
              match mark_ready steps remaining ready with
              | (Ok remaining', steps') =>
                  plan_loop fuel' steps' remaining' groups'
              | (Raise e, steps') => Some (Raise e, steps')
              end
          end
      end
  end.

(** [WorkflowOrchestrator._plan_execution_groups]: the result and the step
    list as the call leaves it. *)
Definition _plan_execution_groups (steps : list WorkflowStep)
  : option (result (list (list nat)) * list WorkflowStep) :=
  plan_loop (length steps) steps (seq 0 (length steps)) [].

(** ** Environment *)

(** What a call of the step executor comes back with: a [RunResult], or an
    exception, of which only the rendering [str(e)] is kept. *)
Inductive outcome :=
| Returned (r : RunResult)
| Raised (msg : string).

(** The collaborators of the orchestrator.  [run_fabric] takes [pattern],
    [input_text], [provider], [model] and [timeout_s].  [completion_picks]
    decides the order in which the futures of one thread pool complete (see
    [reorder]); every order can be picked. *)
Class Environment := {
  World : Type;
  run_fabric :
    string → string → option string → option string → Z → World →
    outcome * World;
  datetime_now : World → Z * World;
  completion_picks : World → list nat;
  uuid4 : World → string * World
}.

(** The order of completion of a list of submitted futures: the first pick
    selects the future that completes first, and so on; futures left when
    the picks run out complete in the order of submission. *)
Fixpoint reorder {A} (picks : list nat) (l : list A) : list A :=
  match picks with
  | [] => l
  | p :: picks' =>
      match l !! (p `mod` length l) with
      | Some x => x :: reorder picks' (delete (p `mod` length l) l)
      | None => l
      end
  end.

(** One call of [runner.run_fabric], as the orchestrator makes it. *)
Record Call := mkCall {
  call_step : nat;
  call_pattern : string;
  call_input : string;
  call_provider : option string;
  call_model : option string;
  call_timeout : Z
}.

(** ** Input resolution *)

Definition nl : string := String "010"%char "".

(** The separator ["\n\n---\n\n"]. *)
Definition separator : string := nl +:+ nl +:+ "---" +:+ nl +:+ nl.

(** [WorkflowOrchestrator._resolve_step_input] *)
Definition _resolve_step_input (step : WorkflowStep)
    (step_outputs : gmap string string) : string :=
  match step_depends_on step with
  | [] => default "" (step_outputs !! "_initial")
  | [dep_id] =>
      default (default "" (step_outputs !! "_initial")) (step_outputs !! dep_id)
  | deps =>
      let inputs :=
        foldl (λ inputs dep_id,
                 match step_outputs !! dep_id with
                 | Some o => inputs ++ [o]
                 | None => inputs
                 end) [] deps in
      match inputs with
      | [] => default "" (step_outputs !! "_initial")
      | _ => String.concat separator inputs
      end
  end.

(** ** Execution engine *)

(** [d[k] = v] on a dictionary whose iteration order is observed. *)
Fixpoint dict_set {V} (d : list (string * V)) (k : string) (v : V)
  : list (string * V) :=
  match d with
  | [] => [(k, v)]
  | (k', v') :: rest =>
      if decide (k' = k) then (k', v) :: rest else (k', v') :: dict_set rest k v
  end.

(** [RunResult(success=False, output="", error=str(e), duration_ms=0,
    exit_code=-1)] *)
Definition failed_result (msg : string) : RunResult :=
  {| success := false; output := ""; error := Some msg; duration_ms := 0;
     exit_code := (-1) |}.

(** [f"{x}"] for an optional string. *)
Definition fmt_opt (o : option string) : string := default "None" o.

Definition step_failed_error (sid : string) (r : RunResult) : exn :=
  ExecutionError ("Step " +:+ sid +:+ " failed: " +:+ fmt_opt (error r)).

(** Never raised by the code: stands for the use of a position outside the
    step list, which the planner does not produce. *)
Definition bad_reference : exn := ValueError "no such step object".

(** The aggregate result of [execute_workflow].  [r_error] keeps the
    exception whose rendering the code stores; [r_execution_time] is the
    difference of the two clock readings. *)
Record ExecutionResult := mkExecutionResult {
  r_workflow_id : string;
  r_success : bool;
  r_final_output : option string;
  r_error : option exn;
  r_step_results : gmap string (option RunResult);
  r_execution_time : Z;
  r_total_steps : nat;
  r_successful_steps : nat;
  r_failed_steps : nat
}.

(** [{step.id: step.result for step in workflow.steps}]: a later step
    overwrites an earlier one with the same id. *)
Definition step_results_of (steps : list WorkflowStep)
  : gmap string (option RunResult) :=
  foldl (λ d s, <[step_id s := step_result s]> d) ∅ steps.

(** [len(workflow.get_steps_by_status(status))] *)
Definition count_status (v : WorkflowStatus) (steps : list WorkflowStep) : nat :=
  length (filter (λ s, step_status s = v) steps).

(** Lines 330-336: the output of the first step, from the last to the
    first, that is [COMPLETED] and has a result. *)
Fixpoint scan_final_output (reversed : list WorkflowStep) : option string :=
  match reversed with
  | [] => None
  | step :: rest =>
      match step_result step with
      | Some r =>
          if decide (step_status step = COMPLETED) then Some (output r)
          else scan_final_output rest
      | None => scan_final_output rest
      end
  end.

Definition final_output_of (steps : list WorkflowStep) : option string :=
  scan_final_output (reverse steps).

Section Engine.
Context {env : Environment}.

(** The state the engine works on: the step objects of the workflow, the
    dictionary [step_outputs], the environment, and the log of the calls
    made to the step executor, oldest first. *)
Record Machine := mkMachine {
  m_steps : list WorkflowStep;
  m_outputs : gmap string string;
  m_world : World;
  m_calls : list Call
}.

(** Computations over the machine that may raise; a raised exception
    keeps the state reached so far. *)
Definition M (A : Type) : Type := Machine → result A * Machine.

#[local] Instance M_ret : MRet M := λ A a m, (Ok a, m).
#[local] Instance M_bind : MBind M := λ A B f c m,
  match c m with
  | (Ok a, m') => f a m'
  | (Raise e, m') => (Raise e, m')
  end.

Definition raise {A} (e : exn) : M A := λ m, (Raise e, m).

Definition read_step (i : nat) : M WorkflowStep := λ m,
  match m_steps m !! i with
  | Some s => (Ok s, m)
  | None => (Raise bad_reference, m)
  end.

Definition update_step (i : nat) (f : WorkflowStep → WorkflowStep)
  : M unit := λ m,
  (Ok (), mkMachine (alter f i (m_steps m)) (m_outputs m) (m_world m)
                    (m_calls m)).

Definition read_outputs : M (gmap string string) := λ m, (Ok (m_outputs m), m).

Definition set_output (k v : string) : M unit := λ m,
  (Ok (), mkMachine (m_steps m) (<[k := v]> (m_outputs m)) (m_world m)
                    (m_calls m)).

Definition now : M Z := λ m,
  let (t, w) := datetime_now (m_world m) in
  (Ok t, mkMachine (m_steps m) (m_outputs m) w (m_calls m)).

Definition picks : M (list nat) := λ m, (Ok (completion_picks (m_world m)), m).

(** [runner.run_fabric(pattern=step.pattern, input_text=input_text,
    provider=config.provider, model=config.model, timeout_s=step.timeout)] *)
Definition call_run_fabric (i : nat) (step : WorkflowStep)
    (input_text : string) (config : ExecutionConfig) : M outcome := λ m,
  let (o, w) := run_fabric (step_pattern step) input_text (provider config)
                  (model config) (step_timeout step) (m_world m) in
  (Ok o, mkMachine (m_steps m) (m_outputs m) w
           (m_calls m ++ [mkCall i (step_pattern step) input_text
                            (provider config) (model config)
                            (step_timeout step)])).

(** The dispatch of one step: resolve its input, mark it [RUNNING], stamp
    its start time and call the executor. *)
Definition dispatch (i : nat) (config : ExecutionConfig)
  : M (string * outcome) :=
  step ← read_step i;
  step_outputs ← read_outputs;
  let input_text := _resolve_step_input step step_outputs in
  update_step i (set_status RUNNING);;
  t ← now;
  update_step i (set_start_time t);;
  o ← call_run_fabric i step input_text config;
  mret (step_id step, o).

(** A direct call: an exception of the executor propagates. *)
Definition run_directly (i : nat) (config : ExecutionConfig)
  : M (string * RunResult) :=
  '(sid, o) ← dispatch i config;
  match o with
  | Returned r => mret (sid, r)
  | Raised msg => raise (ExecutorError msg)
  end.

(** Lines 518-536: the steps of the group one after the other. *)
Fixpoint run_sequentially (steps : list nat) (config : ExecutionConfig)
    (results : list (string * RunResult)) : M (list (string * RunResult)) :=
  match steps with
  | [] => mret results
  | i :: rest =>
      '(sid, r) ← run_directly i config;
      (if success r then set_output sid (output r) else mret ());;
      run_sequentially rest config (dict_set results sid r)
  end.

(** Lines 486-499: the steps of the group are submitted to the pool.  The
    pool runs the calls concurrently; here they act on the environment in
    the order of submission, and the order in which they complete is left
    to [completion_picks]. *)
Fixpoint submit_all (steps : list nat) (config : ExecutionConfig)
  : M (list (string * outcome)) :=
  match steps with
  | [] => mret []
  | i :: rest =>
      so ← dispatch i config;
      sos ← submit_all rest config;
      mret (so :: sos)
  end.

(** Lines 502-515: the results are collected in the order of
    completion; an exception becomes a failed result. *)
Definition collect (completed : list (string * outcome))
  : list (string * RunResult) :=
  foldl (λ results '(sid, o),
           dict_set results sid
             match o with
             | Returned r => r
             | Raised msg => failed_result msg
             end) [] completed.

Definition group_tag (steps : list WorkflowStep) (i : nat)
  : option (option string) :=
  step_parallel_group <$> steps !! i.

(** [len(set(step.parallel_group for step in steps)) == 1 and
    steps[0].parallel_group is not None] *)
Definition can_parallel (all_steps : list WorkflowStep) (steps : list nat)
  : bool :=
  match steps with
  | [] => false
  | i :: rest =>
      forallb (λ j, bool_decide (group_tag all_steps j = group_tag all_steps i))
              rest
      && bool_decide (group_tag all_steps i ≠ Some None)
  end.

(** Lines 482-515: the group in a thread pool. *)
Definition run_in_pool (steps : list nat) (config : ExecutionConfig)
  : M (list (string * RunResult)) :=
  submitted ← submit_all steps config;
  ps ← picks;
  mret (collect (reorder ps submitted)).

(** [WorkflowOrchestrator._execute_step_group] *)
Definition _execute_step_group (steps : list nat) (config : ExecutionConfig)
  : M (list (string * RunResult)) :=
  match steps with
  | [i] => '(sid, r) ← run_directly i config; mret [(sid, r)]
  | _ =>
      λ m,
      if can_parallel (m_steps m) steps
         && bool_decide (Z.of_nat (length steps) ≤ parallel_limit config)%Z
      then run_in_pool steps config m
      else run_sequentially steps config [] m
  end.

(** Lines 308-322: one result of a group is applied to its step. *)
Definition apply_result (sid : string) (r : RunResult)
    (config : ExecutionConfig) : M unit := λ m,
  match get_step (m_steps m) sid with
  | Some k =>
      (update_step k (set_result r);;
       t ← now;
       update_step k (set_end_time t);;
       if success r then
         update_step k (set_status COMPLETED);;
         set_output sid (output r)
       else
         update_step k (set_status FAILED);;
         update_step k (set_error (error r));;
         if continue_on_error config then mret ()
         else raise (step_failed_error sid r)) m
  | None => (Ok (), m)
  end.

(** Lines 307-322: the results of a group are applied in the order of
    the dictionary. *)
Fixpoint apply_results (group_results : list (string * RunResult))
    (config : ExecutionConfig) : M unit :=
  match group_results with
  | [] => mret ()
  | (sid, r) :: rest =>
      apply_result sid r config;;
      apply_results rest config
  end.

(** Lines 298-327, without a progress callback. *)
Fixpoint run_groups (groups : list (list nat)) (config : ExecutionConfig)
  : M unit :=
  match groups with
  | [] => mret ()
  | group_steps :: rest =>
      group_results ← _execute_step_group group_steps config;
      apply_results group_results config;;
      run_groups rest config
  end.

(** [WorkflowOrchestrator.execute_workflow] with
    [progress_callback = None]: the returned dictionary, the workflow as
    the call leaves it, the environment and the executor calls made.
    [None] only if the planner ran out of fuel. *)
Definition execute_workflow (workflow : Workflow) (input_text : string)
    (w : World)
  : option (ExecutionResult * Workflow * World * list Call) :=
  let (start, w) := datetime_now w in
  planned ← _plan_execution_groups (wf_steps workflow);
  let '(plan, steps) := planned in
  let '(body, m) :=
    match plan with
    | Raise e => (Raise e, mkMachine steps ∅ w [])
    | Ok execution_groups =>
        run_groups execution_groups (wf_config workflow)
          (mkMachine steps {["_initial" := input_text]} w [])
    end in
  let (finish, w) := datetime_now (m_world m) in
  let steps := m_steps m in
  let status := match body with Ok _ => COMPLETED | Raise _ => FAILED end in
  let workflow' :=
    mkWorkflow (wf_id workflow) (wf_name workflow) steps (wf_config workflow)
      status (Some start) (Some finish) (wf_current_step workflow) in
  Some
    (mkExecutionResult (wf_id workflow)
       (match body with Ok _ => true | Raise _ => false end)
       (match body with Ok _ => final_output_of steps | Raise _ => None end)
       (match body with Ok _ => None | Raise e => Some e end)
       (step_results_of steps)
       (finish - start)%Z
       (length steps)
       (count_status COMPLETED steps)
       (count_status FAILED steps),
     workflow', w, m_calls m).
End Engine.

(** ** Registry *)

(** The first dependency, in the order of the two nested loops of lines
    251-254, that names no step of the list. *)
Fixpoint first_missing (step_ids : gset string) (deps : list string)
  : option string :=
  match deps with
  | [] => None
  | dep_id :: rest =>
      if decide (dep_id ∈ step_ids) then first_missing step_ids rest
      else Some dep_id
  end.

Fixpoint first_dangling (step_ids : gset string) (steps : list WorkflowStep)
  : option (string * string) :=
  match steps with
  | [] => None
  | step :: rest =>
      match first_missing step_ids (step_depends_on step) with
      | Some dep_id => Some (step_id step, dep_id)
      | None => first_dangling step_ids rest
      end
  end.

Definition dependency_error (sid dep_id : string) : exn :=
  ValueError ("Step " +:+ sid +:+ " depends on non-existent step " +:+ dep_id).

(** Microseconds in [timedelta(hours=h)]; the clock counts microseconds. *)
Definition hours (h : Z) : Z := (h * 3600000000)%Z.

(** A [datetime] is the number of microseconds since [datetime.min],
    0001-01-01 00:00:00; [datetime.max], 9999-12-31 23:59:59.999999, is the
    last of the 3652059 days of the calendar. *)
Definition datetime_max : Z := 315537897599999999.

(** [timedelta(hours=h)] for an integer [h]: a [timedelta] holds at most
    999999999 days in either direction, and the constructor raises
    [OverflowError] beyond.  Only the class of the exception is kept. *)
Definition timedelta_hours (h : Z) : result Z :=
  if decide (-999999999 ≤ h `div` 24 ≤ 999999999)%Z then Ok (hours h)
  else Raise OverflowError.

(** [t - d] for a datetime [t] and a timedelta [d]: the subtraction raises
    [OverflowError] when the difference is not a datetime. *)
Definition datetime_sub (t d : Z) : result Z :=
  if decide (0 ≤ t - d ≤ datetime_max)%Z then Ok (t - d)%Z
  else Raise OverflowError.

(** The condition of lines 757-758. *)
Definition expired (cutoff_time : Z) (workflow : Workflow) : bool :=
  bool_decide (wf_status workflow ∈ [COMPLETED; FAILED; CANCELLED])
  && match wf_end_time workflow with
     | Some t => bool_decide (t < cutoff_time)%Z
     | None => false
     end.

Section Registry.
Context {env : Environment}.

(** [WorkflowOrchestrator.create_custom_workflow] on the registry
    [_active_workflows]; the registry holds the workflow objects, here
    their values. *)
Definition create_custom_workflow (registry : gmap string Workflow)
    (name : string) (steps : list WorkflowStep)
    (config : option ExecutionConfig) (w : World)
  : result Workflow * gmap string Workflow * World :=
  let (workflow_id, w) := uuid4 w in
  let config := default default_config config in
  let step_ids : gset string := list_to_set (step_id <$> steps) in
  match first_dangling step_ids steps with
  | Some (sid, dep_id) => (Raise (dependency_error sid dep_id), registry, w)
  | None =>
      let workflow :=
        mkWorkflow workflow_id name steps config PENDING None None None in
      (Ok workflow, <[workflow_id := workflow]> registry, w)
  end.

(** Line 752: [datetime.now() - timedelta(hours=max_age_hours)], once the
    clock has been read. *)
Definition cutoff (t max_age_hours : Z) : result Z :=
  match timedelta_hours max_age_hours with
  | Ok d => datetime_sub t d
  | Raise e => Raise e
  end.

(** [WorkflowOrchestrator.cleanup_completed_workflows]: the number of
    workflows removed, or the exception of line 752, and the registry
    left. *)
Definition cleanup_completed_workflows (registry : gmap string Workflow)
    (max_age_hours : Z) (w : World)
  : result nat * gmap string Workflow * World :=
  let (t, w) := datetime_now w in
  match cutoff t max_age_hours with
  | Raise e => (Raise e, registry, w)
  | Ok cutoff_time =>
      let workflows_to_remove :=
        (filter (λ kv, expired cutoff_time kv.2) (map_to_list registry)).*1 in
      let '(registry, cleaned_count) :=
        foldl (λ '(registry, cleaned_count) workflow_id,
                 (delete workflow_id registry, S cleaned_count))
              (registry, 0) workflows_to_remove in
      (Ok cleaned_count, registry, w)
  end.
End Registry.

(** ** Step queries *)

(** The test of lines 90-99 on one step object. *)
Definition ready_now (steps : list WorkflowStep) (i : nat) : bool :=
  match steps !! i with
  | Some step =>
      bool_decide (step_status step = PENDING)
      && forallb (dep_completed steps) (step_depends_on step)
  | None => false
  end.

(** [Workflow.get_ready_steps] *)
Definition get_ready_steps (steps : list WorkflowStep) : list nat :=
  filter (λ i, ready_now steps i) (seq 0 (length steps)).

(** ** Workflow builders *)

(** [f"step_{i}"] *)
Definition step_name (i : nat) : string := "step_" +:+ pretty i.

(** The step built by one turn of the loop of lines 137-147. *)
Definition sequential_step (config : ExecutionConfig) (i : nat)
    (pattern : string) : WorkflowStep :=
  {| step_id := step_name i; step_pattern := pattern; step_condition := None;
     step_parallel_group := None; step_timeout := timeout_s config;
     step_depends_on := if decide (0 < i) then [step_name (i - 1)] else [];
     step_variables := ∅; step_status := PENDING; step_start_time := None;
     step_end_time := None; step_result := None; step_error := None |}.

(** The step built by lines 193-198 and by lines 206-211. *)
Definition counted_step (config : ExecutionConfig) (step_counter : nat)
    (pattern : string) (group : option string) (deps : list string)
  : WorkflowStep :=
  {| step_id := step_name step_counter; step_pattern := pattern;
     step_condition := None; step_parallel_group := group;
     step_timeout := timeout_s config; step_depends_on := deps;
     step_variables := ∅; step_status := PENDING; step_start_time := None;
     step_end_time := None; step_result := None; step_error := None |}.

(** Lines 187-200: the steps of the parallel groups.  [parallel_groups] is
    a dictionary read in insertion order. *)
Definition add_parallel_groups (config : ExecutionConfig)
    (parallel_groups : list (string * list string))
  : list WorkflowStep * nat :=
  foldl (λ acc '(group_name, group_patterns),
           foldl (λ '(steps, step_counter) pattern,
                    (steps ++ [counted_step config step_counter pattern
                                 (Some group_name) []],
                     S step_counter))
                 acc group_patterns)
        ([], 0) parallel_groups.

(** Lines 203-213: the sequential steps, each depending on every step of
    the parallel groups. *)
Definition add_sequential_patterns (config : ExecutionConfig)
    (parallel_step_ids : list string) (sequential_patterns : list string)
    (acc : list WorkflowStep * nat) : list WorkflowStep * nat :=
  foldl (λ '(steps, step_counter) pattern,
           (steps ++ [counted_step config step_counter pattern None
                        parallel_step_ids],
            S step_counter))
        acc sequential_patterns.

Section Builders.
Context {env : Environment}.

(** [WorkflowOrchestrator.create_workflow] *)
Definition create_workflow (registry : gmap string Workflow) (name : string)
    (patterns : list string) (config : option ExecutionConfig) (w : World)
  : Workflow * gmap string Workflow * World :=
  let (workflow_id, w) := uuid4 w in
  let config := default default_config config in
  let steps := imap (sequential_step config) patterns in
  let workflow :=
    mkWorkflow workflow_id name steps config PENDING None None None in
  (workflow, <[workflow_id := workflow]> registry, w).

(** [WorkflowOrchestrator.create_parallel_workflow] *)
Definition create_parallel_workflow (registry : gmap string Workflow)
    (name : string) (parallel_groups : list (string * list string))
    (sequential_patterns : option (list string))
    (config : option ExecutionConfig) (w : World)
  : Workflow * gmap string Workflow * World :=
  let (workflow_id, w) := uuid4 w in
  let config := default default_config config in
  let sequential_patterns := default [] sequential_patterns in
  let parallel := add_parallel_groups config parallel_groups in
  let parallel_step_ids := step_id <$> parallel.1 in
  let '(steps, _) :=
    add_sequential_patterns config parallel_step_ids sequential_patterns
      parallel in
  let workflow :=
    mkWorkflow workflow_id name steps config PENDING None None None in
  (workflow, <[workflow_id := workflow]> registry, w).

End Builders.

(** ** Validation *)

(** [{step.id: len(step.depends_on) for step in workflow.steps}] *)
Definition in_degree_of (steps : list WorkflowStep) : gmap string Z :=
  foldl (λ d step, <[step_id step := Z.of_nat (length (step_depends_on step))]> d)
        ∅ steps.

(** [[step.id for step in workflow.steps if len(step.depends_on) == 0]] *)
Definition initial_queue (steps : list WorkflowStep) : list string :=
  step_id <$> filter (λ step, length (step_depends_on step) = 0) steps.

(** Lines 730-733 for one step: a step that depends on [current] loses one
    unit of in-degree and joins the queue when it reaches zero.  [None]
    stands for the [KeyError] of [in_degree[step.id]]. *)
Definition visit_step (current : string)
    (acc : option (gmap string Z * list string)) (step : WorkflowStep)
  : option (gmap string Z * list string) :=
  '(in_degree, queue) ← acc;
  if decide (current ∈ step_depends_on step) then
    n ← in_degree !! step_id step;
    Some (<[step_id step := (n - 1)%Z]> in_degree,
          if decide (n - 1 = 0)%Z then queue ++ [step_id step] else queue)
  else Some (in_degree, queue).

(** The [for] loop of lines 729-733. *)
Definition visit (current : string) (steps : list WorkflowStep)
    (in_degree : gmap string Z) (queue : list string)
  : option (gmap string Z * list string) :=
  foldl (visit_step current) (Some (in_degree, queue)) steps.

(** The [while queue] loop of lines 724-733.  The outer [None] is returned
    only when the fuel runs out, the inner one when an exception was
    raised. *)
Fixpoint count_processed (fuel : nat) (steps : list WorkflowStep)
    (in_degree : gmap string Z) (queue : list string) (processed : nat)
  : option (option nat) :=
  match queue with
  | [] => Some (Some processed)
  | current :: queue =>
      match fuel with
      | O => None
      | S fuel' =>
          match visit current steps in_degree queue with
          | Some (in_degree, queue) =>
              count_processed fuel' steps in_degree queue (S processed)
          | None => Some None
          end
      end
  end.

(** [WorkflowOrchestrator._has_circular_dependencies]; an exception in the
    body makes the handler of lines 738-740 return [True]. *)
Definition _has_circular_dependencies (steps : list WorkflowStep)
  : option bool :=
  r ← count_processed (length steps) steps (in_degree_of steps)
        (initial_queue steps) 0;
  Some match r with
       | Some processed => bool_decide (processed ≠ length steps)
       | None => true
       end.

Definition dependency_message (sid dep_id : string) : string :=
  "Step " +:+ sid +:+ " depends on non-existent step " +:+ dep_id.

(** Lines 690-693. *)
Definition dependency_errors (step_id_set : gset string)
    (steps : list WorkflowStep) (errors : list string) : list string :=
  foldl (λ errors step,
           foldl (λ errors dep_id,
                    if decide (dep_id ∈ step_id_set) then errors
                    else errors ++ [dependency_message (step_id step) dep_id])
                 errors (step_depends_on step))
        errors steps.

(** [WorkflowOrchestrator.validate_workflow].  The module never binds the
    name [patterns]: the call [patterns.list_patterns()] of line 701 raises
    [NameError], the handler of line 707 catches it, and the check of the
    pattern names adds no error. *)
Definition validate_workflow (steps : list WorkflowStep)
  : option (list string) :=
  match steps with
  | [] => Some ["Workflow has no steps"]
  | _ =>
      let step_ids := step_id <$> steps in
      let errors :=
        if decide (size (list_to_set step_ids : gset string) ≠ length step_ids)
        then ["Duplicate step IDs found"] else [] in
      let errors := dependency_errors (list_to_set step_ids) steps errors in
      circular ← _has_circular_dependencies steps;
      Some (if circular : bool then errors ++ ["Circular dependencies detected"]
            else errors)
  end.

(** ** Auxiliary notions used to state the planner's properties *)

(** The step list after the steps referenced by [X] have been given the
    status [v]. *)
Definition mark_all (v : WorkflowStatus) (X : list nat)
    (steps : list WorkflowStep) : list WorkflowStep :=
  imap (λ j s, if decide (j ∈ X) then set_status v s else s) steps.

(** The dependency graph of a workflow: step [i] points to step [j] when
    one of the ids in [depends_on] of [i] resolves, through [get_step], to
    [j]. *)
Definition dep_edge (steps : list WorkflowStep) (i j : nat) : Prop :=
  ∃ s d, steps !! i = Some s ∧ d ∈ step_depends_on s ∧ get_step steps d = Some j.

Definition acyclic (steps : list WorkflowStep) : Prop :=
  ∀ i, ¬ tc (dep_edge steps) i i.

Definition has_cycle (steps : list WorkflowStep) : Prop :=
  ∃ i, tc (dep_edge steps) i i.

(** The dependencies the planner waits for: step [i] points to step [j]
    in the dependency graph and [j] is not [COMPLETED] when planning
    starts. *)
Definition live_edge (steps : list WorkflowStep) (i j : nat) : Prop :=
  dep_edge steps i j ∧ status_at steps j ≠ Some COMPLETED.

(** A cycle of the dependency graph none of whose steps is [COMPLETED]. *)
Definition has_live_cycle (steps : list WorkflowStep) : Prop :=
  ∃ i, tc (live_edge steps) i i.

(** Every id in every [depends_on] names a step of the workflow. *)
Definition deps_closed (steps : list WorkflowStep) : Prop :=
  ∀ s d, s ∈ steps → d ∈ step_depends_on s → is_Some (get_step steps d).

(** Some id in some [depends_on] names no step of the workflow. *)
Definition dangling (steps : list WorkflowStep) : Prop :=
  ∃ i s d, steps !! i = Some s ∧ d ∈ step_depends_on s ∧ get_step steps d = None.

Definition none_completed (steps : list WorkflowStep) : Prop :=
  ∀ s, s ∈ steps → step_status s ≠ COMPLETED.

(** [j] lies in a group strictly before a group that contains [i]. *)
Definition strictly_earlier (groups : list (list nat)) (j i : nat) : Prop :=
  ∃ pre g post, groups = pre ++ g :: post ∧ i ∈ g ∧ j ∈ concat pre.

(** The step list during planning, in terms of the step list [steps0] the
    planner started from: the steps no longer in [remaining] carry the
    planner's [COMPLETED] mark. *)
Definition planning_state (steps0 : list WorkflowStep) (remaining : list nat)
  : list WorkflowStep :=
  imap (λ j s, if decide (j ∈ remaining) then s else set_status COMPLETED s)
       steps0.

(** ** Notions used to state the properties of the engine and registry *)

(** The outputs of the dependencies that have one, in the order of
    [depends_on]. *)
Definition available_outputs (deps : list string)
    (step_outputs : gmap string string) : list string :=
  omap (λ dep_id, step_outputs !! dep_id) deps.

Definition terminal (v : WorkflowStatus) : Prop :=
  v = COMPLETED ∨ v = FAILED ∨ v = CANCELLED.

(** The workflow ended more than [age] microseconds before [t]. *)
Definition ended_before (t age : Z) (workflow : Workflow) : Prop :=
  ∃ e, wf_end_time workflow = Some e ∧ (age < t - e)%Z.

(** A completed workflow that ended at time [e]. *)
Definition ended_workflow (i : string) (e : Z) : Workflow :=
  mkWorkflow i "old" [] default_config COMPLETED (Some 0%Z) (Some e) None.

(** The output of the first [COMPLETED] step met from the last step to the
    first. *)
Definition last_completed_output (steps : list WorkflowStep) : option string :=
  '(_, step) ← list_find (λ s, step_status s = COMPLETED) (reverse steps);
  output <$> step_result step.

(** What a run may do to the machine when it only works on the steps in
    [X]: the ids stay, the steps outside [X] stay, and the executor is
    called for steps in [X] only. *)
Definition works_on {env : Environment} (X : list nat) (m m' : Machine)
  : Prop :=
  step_id <$> m_steps m' = step_id <$> m_steps m ∧
  (∀ j, j ∉ X → m_steps m' !! j = m_steps m !! j) ∧
  ∃ new, m_calls m' = m_calls m ++ new ∧ ∀ c, c ∈ new → call_step c ∈ X.

(** Every [COMPLETED] step has a result. *)
Definition completed_have_results (steps : list WorkflowStep) : Prop :=
  ∀ s, s ∈ steps → step_status s = COMPLETED → is_Some (step_result s).

(** ** Notions used to state the properties of the validation, the data
    flow and the builders *)

(** The number of ids whose in-degree is positive. *)
Definition positive_keys (in_degree : gmap string Z) : nat :=
  size (filter (λ kv, (0 < kv.2)%Z) in_degree).

(** How many of the ids taken from the queue so far occur in the
    [depends_on] of a step. *)
Definition hits (done : list string) (step : WorkflowStep) : nat :=
  length (filter (λ c, c ∈ step_depends_on step) done).

(** The state of the loop of [_has_circular_dependencies] on a workflow
    with unique ids, after the ids [done] have been taken from the queue. *)
Definition topo_state (steps : list WorkflowStep) (done : list string)
    (in_degree : gmap string Z) (queue : list string) (processed : nat)
  : Prop :=
  processed = length done ∧
  NoDup (done ++ queue) ∧
  (∀ s, s ∈ steps →
     in_degree !! step_id s
     = Some (Z.of_nat (length (step_depends_on s)) - Z.of_nat (hits done s))%Z) ∧
  (∀ j c, done !! j = Some c →
     ∃ s, s ∈ steps ∧ step_id s = c ∧ NoDup (step_depends_on s) ∧
          ∀ x, x ∈ step_depends_on s → ∃ i, i < j ∧ done !! i = Some x) ∧
  (∀ c, c ∈ queue →
     ∃ s, s ∈ steps ∧ step_id s = c ∧ NoDup (step_depends_on s) ∧
          ∀ x, x ∈ step_depends_on s → x ∈ done) ∧
  (∀ s, s ∈ steps → in_degree !! step_id s = Some 0%Z →
        step_id s ∈ done ++ queue).

(** The messages for the dependencies that name no step, in the order of
    the steps and of their [depends_on]. *)
Definition missing_messages (step_ids : gset string)
    (steps : list WorkflowStep) : list string :=
  concat ((λ step, dependency_message (step_id step)
                     <$> filter (λ dep_id, dep_id ∉ step_ids)
                                (step_depends_on step)) <$> steps).

(** The step positions of the calls made to the executor, oldest first. *)
Definition dispatched {env : Environment} (m : Machine) : list nat :=
  call_step <$> m_calls m.

(** The reasons for which a run can fail after a successful planning. *)
Definition run_failure (config : ExecutionConfig) (e : exn) : Prop :=
  (∃ msg, e = ExecutorError msg) ∨
  (continue_on_error config = false ∧
   ∃ sid r, e = step_failed_error sid r ∧ success r = false).

(** The fields of a step that define it, as opposed to its execution
    state. *)
Definition shape (s : WorkflowStep)
  : string * string * option string * option string * Z * list string
    * gmap string string :=
  (step_id s, step_pattern s, step_condition s, step_parallel_group s,
   step_timeout s, step_depends_on s, step_variables s).

(** The entry of [step_outputs] that a step accounts for once its result
    has been applied: the output of its result when it is [COMPLETED]. *)
Definition recorded_output (s : WorkflowStep) : option string :=
  if decide (step_status s = COMPLETED) then output <$> step_result s else None.

(** The dictionary [step_outputs] as the steps of a workflow record it:
    the initial input and the outputs of the completed steps. *)
Definition recorded_outputs (input_text : string) (steps : list WorkflowStep)
  : gmap string string :=
  foldl (λ outputs s,
           match recorded_output s with
           | Some o => <[step_id s := o]> outputs
           | None => outputs
           end)
        {["_initial" := input_text]} steps.

(** The call that the engine makes for the step at the position of [c] when
    [step_outputs] is [outputs]. *)
Definition call_of (steps0 : list WorkflowStep) (config : ExecutionConfig)
    (outputs : gmap string string) (c : Call) : Prop :=
  ∃ s0, steps0 !! call_step c = Some s0 ∧
    c = mkCall (call_step c) (step_pattern s0)
          (_resolve_step_input s0 outputs) (provider config) (model config)
          (step_timeout s0).

(** [k] is the id of a step of the group [g]. *)
Definition in_group (steps0 : list WorkflowStep) (g : list nat) (k : string)
  : Prop :=
  ∃ i, i ∈ g ∧ (step_id <$> steps0) !! i = Some k.

(** Every dependency of the step of [c] names a step in [D], and [c] is
    the call for that step on [outputs]. *)
Definition settled (steps0 : list WorkflowStep) (config : ExecutionConfig)
    (D : list nat) (outputs : gmap string string) (c : Call) : Prop :=
  ∃ s0, steps0 !! call_step c = Some s0 ∧
    (∀ d, d ∈ step_depends_on s0 → ∃ j, j ∈ D ∧ get_step steps0 d = Some j) ∧
    c = mkCall (call_step c) (step_pattern s0)
          (_resolve_step_input s0 outputs) (provider config) (model config)
          (step_timeout s0).

(** The groups come in an order in which every dependency of a step names
    a step of an earlier group, or of [D]. *)
Fixpoint deps_before (steps : list WorkflowStep) (D : list nat)
    (groups : list (list nat)) : Prop :=
  match groups with
  | [] => True
  | g :: rest =>
      (∀ i s d, i ∈ g → steps !! i = Some s → d ∈ step_depends_on s →
                ∃ j, j ∈ D ∧ get_step steps d = Some j) ∧
      deps_before steps (D ++ g) rest
  end.

(** The state of a run between two groups, [D] being the steps of the
    groups already run. *)
Definition flow_state {env : Environment} (steps0 : list WorkflowStep)
    (config : ExecutionConfig) (input_text : string) (D : list nat)
    (m : Machine) : Prop :=
  shape <$> m_steps m = shape <$> steps0 ∧
  m_outputs m !! "_initial" = Some input_text ∧
  (∀ j s, j ∈ D → m_steps m !! j = Some s →
          m_outputs m !! step_id s = recorded_output s) ∧
  (∀ j s, j ∉ D → steps0 !! j = Some s → m_outputs m !! step_id s = None) ∧
  (∀ c, c ∈ m_calls m → settled steps0 config D (m_outputs m) c).

(** The state of a run with respect to the input of the run: the steps
    keep their defining fields, the entry ["_initial"] of [step_outputs] is
    the input of the run, and every call was made on the input resolved from
    a dictionary with that entry. *)
Definition initial_kept {env : Environment} (steps0 : list WorkflowStep)
    (input_text : string) (m : Machine) : Prop :=
  shape <$> m_steps m = shape <$> steps0 ∧
  m_outputs m !! "_initial" = Some input_text ∧
  ∀ c, c ∈ m_calls m →
    ∃ s0 step_outputs,
      steps0 !! call_step c = Some s0 ∧
      step_outputs !! "_initial" = Some input_text ∧
      call_input c = _resolve_step_input s0 step_outputs.

(** The patterns of the parallel groups with the names of their groups, in
    the order in which [create_parallel_workflow] makes steps of them. *)
Definition tagged_patterns (parallel_groups : list (string * list string))
  : list (string * string) :=
  parallel_groups ≫= λ '(group_name, group_patterns),
    (group_name,.) <$> group_patterns.

(** The steps of a parallel workflow in closed form. *)
Definition parallel_steps (config : ExecutionConfig)
    (parallel_groups : list (string * list string))
    (sequential_patterns : list string) : list WorkflowStep :=
  let tagged := tagged_patterns parallel_groups in
  imap (λ i gp, counted_step config i gp.2 (Some gp.1) []) tagged
  ++ imap (λ i p, counted_step config (length tagged + i) p None
                    (step_name <$> seq 0 (length tagged)))
          sequential_patterns.

(** The positions of the steps of the parallel groups: one block for
    every group that has a pattern, in the order of the dictionary. *)
Fixpoint group_blocks (start : nat)
    (parallel_groups : list (string * list string)) : list (list nat) :=
  match parallel_groups with
  | [] => []
  | (_, group_patterns) :: rest =>
      match group_patterns with
      | [] => []
      | _ => [seq start (length group_patterns)]
      end ++ group_blocks (start + length group_patterns) rest
  end.

(** ** Sample environment and workflows *)

(** An executor whose outcome is fixed by the pattern: ["fail"] returns a
    failed result, ["raise"] raises, any other pattern succeeds with the
    output [pattern(input)].  The world counts the interactions and is the
    clock. *)
Definition sample_env : Environment :=
  {| World := Z;
     run_fabric := λ pattern input_text _ _ _ w,
       (if decide (pattern = "fail") then
          Returned (mkRunResult false "" (Some "boom") 1 1)
        else if decide (pattern = "raise") then Raised "crash"
        else Returned (mkRunResult true
                         (pattern +:+ "(" +:+ input_text +:+ ")") None 1 0),
        (w + 1)%Z);
     datetime_now := λ w, (w, (w + 1)%Z);
     completion_picks := λ w, [Z.to_nat w];
     uuid4 := λ w, ("wf-" +:+ pretty w, (w + 1)%Z) |}.

Definition sample_workflow (steps : list WorkflowStep) : Workflow :=
  mkWorkflow "wf" "sample" steps default_config PENDING None None None.

(** [step_1] and [step_2] without dependencies, [step_3] after both. *)
Definition fan_in : list WorkflowStep :=
  [new_step "step_1" "pattern_a" None [];
   new_step "step_2" "pattern_b" None [];
   new_step "step_3" "pattern_c" None ["step_1"; "step_2"]].

(** A chain [a], [b] whose first step is already [COMPLETED] when the
    workflow is planned, as set by a caller or left by an earlier run. *)
Definition rerun_chain : list WorkflowStep :=
  [set_status COMPLETED (new_step "a" "pattern_a" None []);
   new_step "b" "pattern_b" None ["a"]].

(** Two steps that depend on each other. *)
Definition two_cycle : list WorkflowStep :=
  [new_step "a" "pattern_a" None ["b"];
   new_step "b" "pattern_b" None ["a"]].

(** The same cycle with both steps already [COMPLETED]. *)
Definition completed_cycle : list WorkflowStep :=
  set_status COMPLETED <$> two_cycle.

(** A step that is [COMPLETED] before the workflow is planned, followed by
    two steps that depend on each other. *)
Definition cycle_after_completed : list WorkflowStep :=
  [set_status COMPLETED (new_step "a" "pattern_a" None []);
   new_step "b" "pattern_b" None ["a"; "c"];
   new_step "c" "pattern_c" None ["b"]].

(** A chain whose second step fails. *)
Definition failing_tail : list WorkflowStep :=
  [new_step "a" "pattern_a" None [];
   new_step "b" "fail" None ["a"]].

(** A chain whose first step fails. *)
Definition failing_head : list WorkflowStep :=
  [new_step "a" "fail" None [];
   new_step "b" "pattern_b" None ["a"]].

(** A step that depends on an id no step has. *)
Definition dangling_step : list WorkflowStep :=
  [new_step "step_1" "pattern_a" None ["nonexistent"]].

(** Two steps with the same id. *)
Definition duplicate_ids : list WorkflowStep :=
  [new_step "step_1" "pattern_a" None [];
   new_step "step_1" "pattern_b" None []].

(** Two named groups, as the dictionary [parallel_groups]. *)
Definition sample_groups : list (string * list string) :=
  [("draft", ["pattern_a"; "pattern_b"]); ("review", ["pattern_c"])].

(** A step that names the same dependency twice. *)
Definition repeated_dependency : list WorkflowStep :=
  [new_step "a" "pattern_a" None [];
   new_step "b" "pattern_b" None ["a"; "a"]].




(** * Properties *)

(** ** Step lookup *)

Lemma get_step_Some steps d j :
  get_step steps d = Some j ↔
  ∃ s, steps !! j = Some s ∧ step_id s = d ∧
       ∀ k t, steps !! k = Some t → k < j → step_id t ≠ d.
Proof.
  unfold get_step. split.
  - destruct (list_find _ steps) as [[k s]|] eqn:E; [|done].
    intros [= <-]. apply list_find_Some in E as (? & ? & ?). eauto.
  - intros (s & Hj & Hid & Hmin).
    assert (list_find (λ s0, step_id s0 = d) steps = Some (j, s)) as ->; [|done].
    apply list_find_Some. naive_solver.
Qed.

Lemma get_step_lt steps d j : get_step steps d = Some j → j < length steps.
Proof.
  intros (s & Hs & _)%get_step_Some. by eapply lookup_lt_Some.
Qed.

Lemma get_step_ids steps steps' d :
  step_id <$> steps = step_id <$> steps' → get_step steps d = get_step steps' d.
Proof.
  intros Hids. unfold get_step.
  assert (∀ l, fst <$> list_find (λ s, step_id s = d) l
             = fst <$> list_find (λ x, x = d) (step_id <$> l)) as H.
  { intros l. rewrite list_find_fmap. by destruct (list_find _ l) as [[??]|]. }
  by rewrite !H, Hids.
Qed.

(** ** Marking steps *)

Lemma mark_all_lookup v X steps j :
  mark_all v X steps !! j =
  (λ s, if decide (j ∈ X) then set_status v s else s) <$> steps !! j.
Proof. unfold mark_all. by rewrite list_lookup_imap. Qed.

Lemma mark_all_length v X steps : length (mark_all v X steps) = length steps.
Proof. unfold mark_all. by rewrite length_imap. Qed.

Lemma mark_all_nil v steps : mark_all v [] steps = steps.
Proof.
  apply list_eq; intros j. rewrite mark_all_lookup.
  by destruct (steps !! j).
Qed.

Lemma set_status_twice v w s : set_status v (set_status w s) = set_status v s.
Proof. by destruct s. Qed.

Lemma mark_mark_all v i X steps :
  mark_all v X (mark v i steps) = mark_all v (i :: X) steps.
Proof.
  apply list_eq; intros j. rewrite !mark_all_lookup. unfold mark.
  destruct (steps !! i) as [s|] eqn:Hi.
  - destruct (decide (j = i)) as [->|Hne].
    + rewrite list_lookup_insert_eq by by eapply lookup_lt_Some.
      rewrite Hi; simpl.
      destruct (decide (i ∈ X)), (decide (i ∈ i :: X));
        try set_solver; by rewrite ?set_status_twice.
    + rewrite list_lookup_insert_ne by done.
      destruct (steps !! j); simpl; [|done].
      destruct (decide (j ∈ X)), (decide (j ∈ i :: X)); try done; set_solver.
  - destruct (steps !! j) eqn:Hj; simpl; [|done].
    destruct (decide (j ∈ X)), (decide (j ∈ i :: X)); try done; set_solver.
Qed.

Lemma mark_all_ids v X steps : step_id <$> mark_all v X steps = step_id <$> steps.
Proof.
  apply list_eq; intros j. rewrite !list_lookup_fmap, mark_all_lookup.
  destruct (steps !! j); simpl; [|done]. by case_decide.
Qed.

Lemma mark_all_app v X Y steps :
  mark_all v Y (mark_all v X steps) = mark_all v (X ++ Y) steps.
Proof.
  apply list_eq; intros j. rewrite !mark_all_lookup.
  destruct (steps !! j); simpl; [|done].
  repeat case_decide; try set_solver; by rewrite ?set_status_twice.
Qed.

Lemma reset_mark_all v X steps :
  set_status PENDING <$> mark_all v X steps = set_status PENDING <$> steps.
Proof.
  apply list_eq; intros j. rewrite !list_lookup_fmap, mark_all_lookup.
  destruct (steps !! j); simpl; [|done].
  case_decide; by rewrite ?set_status_twice.
Qed.

Lemma mark_lookup_ne v i steps j : j ≠ i → mark v i steps !! j = steps !! j.
Proof.
  intros Hne. unfold mark. destruct (steps !! i); [|done].
  by rewrite list_lookup_insert_ne.
Qed.

(** ** Removal from the remaining steps *)

Lemma list_remove_first steps i pre post :
  (∀ j, j ∈ pre → steps !! j ≠ steps !! i) →
  list_remove steps i (pre ++ i :: post) = Some (pre ++ post).
Proof.
  induction pre as [|j pre IH]; intros Hpre; simpl.
  - by rewrite decide_True.
  - rewrite decide_False by (apply Hpre; left).
    rewrite IH; [done|]. intros k Hk. apply Hpre. by right.
Qed.

Lemma filter_not_in_nil (l : list nat) : filter (λ j, j ∉ []) l = l.
Proof.
  induction l as [|x l IH]; [done|].
  rewrite filter_cons_True by set_solver. by rewrite IH.
Qed.

Lemma filter_ext_elem {A} (P Q : A → Prop) `{!∀ x, Decision (P x)}
    `{!∀ x, Decision (Q x)} (l : list A) :
  (∀ x, x ∈ l → P x ↔ Q x) → filter P l = filter Q l.
Proof.
  induction l as [|x l IH]; intros Hext; [done|].
  rewrite !filter_cons. rewrite IH by (intros; apply Hext; by right).
  assert (P x ↔ Q x) as Hx by (apply Hext; left).
  destruct (decide (P x)), (decide (Q x)); tauto.
Qed.

(** Removing by field-wise equality removes the very step that was found
    ready: two steps with equal fields have the same [depends_on] and are
    ready together, and the earlier one has already been taken out and
    marked. *)
Lemma mark_ready_gen ready : ∀ steps remaining,
  NoDup remaining →
  sublist ready remaining →
  (∀ j i, j ∈ remaining → i ∈ ready → steps !! j = steps !! i → j ∈ ready) →
  mark_ready steps remaining ready
  = (Ok (filter (λ j, j ∉ ready) remaining), mark_all COMPLETED ready steps).
Proof.
  induction ready as [|i rest IH]; intros steps remaining Hnd Hsub Heq; simpl.
  - by rewrite filter_not_in_nil, mark_all_nil.
  - apply sublist_cons_l in Hsub as (k1 & k2 & -> & Hsub).
    apply NoDup_app in Hnd as (Hnd1 & Hdisj & Hnd2).
    apply NoDup_cons in Hnd2 as [Hi2 Hnd2].
    assert (Hrest : ∀ k, k ∈ rest → k ∈ k2).
    { intros k Hk. by eapply elem_of_sublist. }
    assert (Hi1 : i ∉ k1) by (intros Hi; eapply Hdisj; [done|left]).
    rewrite list_remove_first; last first.
    { intros j Hj Hji.
      assert (j ∈ i :: rest) as Hin by (eapply Heq; [|left|done]; set_solver).
      apply elem_of_cons in Hin as [->|Hin]; [done|].
      eapply Hdisj; [done|]. right. by apply Hrest. }
    rewrite IH; last first.
    { intros j k Hj Hk Hjk.
      assert (j ≠ i) by (intros ->; set_solver).
      assert (k ≠ i) by (intros ->; apply Hi2; by apply Hrest).
      rewrite !mark_lookup_ne in Hjk by done.
      assert (j ∈ i :: rest) as Hin by (eapply Heq; [| |done]; set_solver).
      set_solver. }
    { by apply sublist_inserts_l. }
    { apply NoDup_app; set_solver. }
    rewrite mark_mark_all. f_equal. f_equal.
    rewrite !filter_app, filter_cons_False by set_solver.
    f_equal; apply filter_ext_elem; set_solver.
Qed.

Lemma is_ready_lookup steps i j :
  steps !! j = steps !! i → is_ready steps j = is_ready steps i.
Proof. unfold is_ready. by intros ->. Qed.

Lemma mark_ready_round steps remaining :
  NoDup remaining →
  let ready := filter (λ i, is_ready steps i) remaining in
  mark_ready steps remaining ready
  = (Ok (filter (λ i, ¬ is_ready steps i) remaining),
     mark_all COMPLETED ready steps).
Proof.
  intros Hnd ready. unfold ready. rewrite mark_ready_gen.
  - do 2 f_equal. apply filter_ext_elem. intros j Hj.
    rewrite list_elem_of_filter. tauto.
  - done.
  - apply sublist_filter.
  - intros j i Hj Hi Heq. apply list_elem_of_filter in Hi as [Hi _].
    apply list_elem_of_filter. split; [|done].
    by rewrite (is_ready_lookup _ _ _ Heq).
Qed.

(** ** Grouping of a round *)

Lemma dict_append_concat d k i :
  concat (dict_append d k i).*2 ≡ₚ concat d.*2 ++ [i].
Proof.
  induction d as [|[k' v] d IH]; simpl; [done|].
  case_decide; simpl.
  - rewrite <- !(assoc_L (++)). f_equiv. apply Permutation_app_comm.
  - by rewrite IH, (assoc_L (++)).
Qed.

Lemma group_fold_concat steps ready : ∀ d,
  concat (foldl (λ d i, dict_append d (key_at steps i) i) d ready).*2
  ≡ₚ concat d.*2 ++ ready.
Proof.
  induction ready as [|i ready IH]; intros d; simpl.
  - by rewrite (right_id_L [] (++)).
  - rewrite IH, dict_append_concat. by rewrite <- (assoc_L (++)).
Qed.

Lemma group_ready_concat steps ready :
  concat (group_ready steps ready) ≡ₚ ready.
Proof.
  unfold group_ready. destruct (existsb _ _).
  - by rewrite group_fold_concat.
  - simpl. by rewrite (right_id_L [] (++)).
Qed.

(** ** One round of the planning loop *)

Lemma plan_loop_round fuel steps remaining groups :
  NoDup remaining → remaining ≠ [] →
  plan_loop (S fuel) steps remaining groups =
  let ready := filter (λ i, is_ready steps i) remaining in
  match ready with
  | [] => Some (Raise cycle_error, steps)
  | _ :: _ =>
      plan_loop fuel (mark_all COMPLETED ready steps)
        (filter (λ i, ¬ is_ready steps i) remaining)
        (groups ++ group_ready steps ready)
  end.
Proof.
  intros Hnd Hne. destruct remaining as [|i rem]; [done|].
  cbn [plan_loop]. cbv zeta.
  rewrite (mark_ready_round steps (i :: rem) Hnd).
  by destruct (filter _ (i :: rem)).
Qed.

Lemma filter_not_ready_length steps remaining :
  filter (λ i, is_ready steps i) remaining ≠ [] →
  length (filter (λ i, ¬ is_ready steps i) remaining) < length remaining.
Proof.
  intros Hne.
  destruct (filter (λ i, is_ready steps i) remaining) as [|i l] eqn:E; [done|].
  assert (i ∈ filter (λ i, is_ready steps i) remaining) as Hi
    by (rewrite E; left).
  apply list_elem_of_filter in Hi as [Hr Hi].
  eapply length_filter_lt; [done|]. tauto.
Qed.

(** The planner always comes to an end: with [length remaining] rounds of
    fuel the loop returns, either with the cycle error or with the groups
    and every step reset to [PENDING]. *)
Lemma plan_loop_total fuel : ∀ steps remaining groups,
  NoDup remaining → length remaining ≤ fuel →
  ∃ r st', plan_loop fuel steps remaining groups = Some (r, st') ∧
    (r = Raise cycle_error ∨
     ∃ gs, r = Ok gs ∧ st' = set_status PENDING <$> steps).
Proof.
  induction fuel as [|fuel IH]; intros steps remaining groups Hnd Hlen.
  - destruct remaining; [|simpl in Hlen; lia]. simpl. eauto 10.
  - destruct (decide (remaining = [])) as [->|Hne]; [simpl; eauto 10|].
    rewrite plan_loop_round by done. cbv zeta.
    destruct (filter (λ i, is_ready steps i) remaining) as [|i l] eqn:E;
      [eauto 10|].
    rewrite <- E.
    destruct (IH (mark_all COMPLETED (filter (λ i, is_ready steps i) remaining)
                  steps)
                (filter (λ i, ¬ is_ready steps i) remaining)
                (groups ++ group_ready steps
                   (filter (λ i, is_ready steps i) remaining)))
      as (r & st' & Heq & Hr).
    + by apply NoDup_filter.
    + pose proof (filter_not_ready_length steps remaining) as Hlt.
      rewrite E in Hlt. specialize (Hlt ltac:(done)). lia.
    + exists r, st'. split; [done|].
      destruct Hr as [->|(gs & -> & ->)]; [by left|right].
      exists gs. by rewrite reset_mark_all.
Qed.

(** Invariant principle: a property of the loop state that every round
    preserves holds of the final state when the loop returns groups, and of
    a state without ready steps when it raises. *)
Lemma plan_loop_invariant
    (I : list WorkflowStep → list nat → list (list nat) → Prop) :
  (∀ steps remaining groups,
     I steps remaining groups → NoDup remaining →
     let ready := filter (λ i, is_ready steps i) remaining in
     ready ≠ [] →
     I (mark_all COMPLETED ready steps)
       (filter (λ i, ¬ is_ready steps i) remaining)
       (groups ++ group_ready steps ready)) →
  ∀ fuel steps remaining groups r st',
  NoDup remaining → I steps remaining groups →
  plan_loop fuel steps remaining groups = Some (r, st') →
  match r with
  | Ok gs => ∃ steps', I steps' [] gs
  | Raise e =>
      ∃ steps' remaining' groups',
        I steps' remaining' groups' ∧ NoDup remaining' ∧ remaining' ≠ [] ∧
        filter (λ i, is_ready steps' i) remaining' = []
  end.
Proof.
  intros Hstep fuel.
  induction fuel as [|fuel IH]; intros steps remaining groups r st' Hnd HI Heq.
  - destruct remaining; [|done]. simpl in Heq. injection Heq as <- <-. eauto.
  - destruct (decide (remaining = [])) as [->|Hne].
    { simpl in Heq. injection Heq as <- <-. eauto. }
    rewrite plan_loop_round in Heq by done. cbv zeta in Heq.
    destruct (filter (λ i, is_ready steps i) remaining) as [|i l] eqn:E.
    + injection Heq as <- <-. eauto 10.
    + rewrite <- E in Heq. eapply IH; [| |exact Heq].
      * by apply NoDup_filter.
      * apply Hstep; [done..|]. by rewrite E.
Qed.

(** ** The planning state *)

Lemma planning_state_lookup steps0 R j :
  planning_state steps0 R !! j =
  (λ s, if decide (j ∈ R) then s else set_status COMPLETED s) <$> steps0 !! j.
Proof. unfold planning_state. by rewrite list_lookup_imap. Qed.

Lemma planning_state_init steps0 :
  planning_state steps0 (seq 0 (length steps0)) = steps0.
Proof.
  apply list_eq; intros j. rewrite planning_state_lookup.
  destruct (steps0 !! j) as [s|] eqn:Hj; simpl; [|done].
  rewrite decide_True; [done|].
  apply elem_of_seq. apply lookup_lt_Some in Hj. lia.
Qed.

Lemma planning_state_ids steps0 R :
  step_id <$> planning_state steps0 R = step_id <$> steps0.
Proof.
  apply list_eq; intros j. rewrite !list_lookup_fmap, planning_state_lookup.
  destruct (steps0 !! j); simpl; [|done]. by case_decide.
Qed.

Lemma planning_state_round steps0 R :
  let steps := planning_state steps0 R in
  mark_all COMPLETED (filter (λ i, is_ready steps i) R) steps
  = planning_state steps0 (filter (λ i, ¬ is_ready steps i) R).
Proof.
  intros steps. apply list_eq; intros j.
  rewrite mark_all_lookup, planning_state_lookup.
  assert (steps !! j = (λ s, if decide (j ∈ R) then s
                             else set_status COMPLETED s) <$> steps0 !! j)
    as -> by apply planning_state_lookup.
  destruct (steps0 !! j) as [s|]; simpl; [|done]. f_equal.
  destruct (decide (j ∈ filter (λ i, is_ready steps i) R)) as [H1|H1];
    destruct (decide (j ∈ filter (λ i, ¬ is_ready steps i) R)) as [H2|H2];
    destruct (decide (j ∈ R)) as [H3|H3];
    rewrite ?list_elem_of_filter in H1, H2; rewrite ?set_status_twice;
    try done; try tauto.
Qed.

Lemma match_forallb {A} (f : A → bool) (l : list A) :
  match l with [] => true | x :: l' => forallb f (x :: l') end = forallb f l.
Proof. by destruct l. Qed.

Lemma is_ready_spec steps i :
  is_ready steps i ↔
  ∃ s, steps !! i = Some s ∧
       ∀ d, d ∈ step_depends_on s → dep_completed steps d.
Proof.
  unfold is_ready. destruct (steps !! i) as [s|]; [|naive_solver].
  rewrite match_forallb, forallb_True, Forall_forall. naive_solver.
Qed.

Lemma dep_completed_planning steps0 R d :
  none_completed steps0 →
  dep_completed (planning_state steps0 R) d ↔
  ∃ j, get_step steps0 d = Some j ∧ j ∉ R.
Proof.
  intros Hnc. unfold dep_completed.
  rewrite (get_step_ids _ steps0) by apply planning_state_ids.
  destruct (get_step steps0 d) as [j|] eqn:Hd; [|naive_solver].
  rewrite bool_decide_spec. unfold status_at.
  rewrite planning_state_lookup.
  apply get_step_Some in Hd as (t & Ht & _). rewrite Ht.
  assert (step_status t ≠ COMPLETED)
    by (apply Hnc; by eapply list_elem_of_lookup_2).
  destruct (decide (j ∈ R)); simpl; split.
  - intros [=]; done.
  - intros (? & [= <-] & ?); done.
  - intros _. eauto.
  - done.
Qed.

(** Readiness during planning, read off the initial step list: a step is
    ready when each of its dependencies resolves to a step that has left
    [remaining]. *)
Lemma is_ready_planning steps0 R i :
  none_completed steps0 →
  is_ready (planning_state steps0 R) i ↔
  ∃ s, steps0 !! i = Some s ∧
       ∀ d, d ∈ step_depends_on s → ∃ j, get_step steps0 d = Some j ∧ j ∉ R.
Proof.
  intros Hnc. rewrite is_ready_spec, planning_state_lookup.
  destruct (steps0 !! i) as [s|] eqn:Hi; [|naive_solver].
  split.
  - intros (s' & [= <-] & H). exists s. split; [done|]. intros d Hd.
    apply (dep_completed_planning _ _ _ Hnc), H. by case_decide.
  - intros (? & [= <-] & H). eexists. split; [done|]. intros d Hd.
    apply (dep_completed_planning _ _ _ Hnc), H. by case_decide.
Qed.

(** The same readings without an assumption on the statuses the planner
    starts from: a dependency counts as completed when its step has left
    [remaining] or was [COMPLETED] from the start. *)
Lemma dep_completed_planning_live steps0 R d :
  dep_completed (planning_state steps0 R) d ↔
  ∃ j, get_step steps0 d = Some j ∧
       (j ∉ R ∨ status_at steps0 j = Some COMPLETED).
Proof.
  unfold dep_completed.
  rewrite (get_step_ids _ steps0) by apply planning_state_ids.
  destruct (get_step steps0 d) as [j|] eqn:Hd; [|naive_solver].
  rewrite bool_decide_spec.
  apply get_step_Some in Hd as (t & Ht & _).
  assert (status_at steps0 j = Some (step_status t)) as Hst
    by (unfold status_at; by rewrite Ht).
  unfold status_at at 1. rewrite planning_state_lookup, Ht. simpl.
  destruct (decide (j ∈ R)); simpl; split.
  - intros Hc. exists j. split; [done|]. right. by rewrite Hst.
  - intros (? & [= <-] & [?|Hc]); [done|]. by rewrite <- Hst.
  - intros _. eauto.
  - done.
Qed.

Lemma is_ready_planning_live steps0 R i :
  is_ready (planning_state steps0 R) i ↔
  ∃ s, steps0 !! i = Some s ∧
       ∀ d, d ∈ step_depends_on s →
            ∃ j, get_step steps0 d = Some j ∧
                 (j ∉ R ∨ status_at steps0 j = Some COMPLETED).
Proof.
  rewrite is_ready_spec, planning_state_lookup.
  destruct (steps0 !! i) as [s|] eqn:Hi; [|naive_solver].
  split.
  - intros (s' & [= <-] & H). exists s. split; [done|]. intros d Hd.
    apply dep_completed_planning_live, H. by case_decide.
  - intros (? & [= <-] & H). eexists. split; [done|]. intros d Hd.
    apply dep_completed_planning_live, H. by case_decide.
Qed.

(** ** Cycles in a finite graph *)

Lemma sinkless_cycle {A} `{!EqDecision A} (T : relation A) `{!Transitive T}
    (R : list A) :
  R ≠ [] → (∀ i, i ∈ R → ∃ j, j ∈ R ∧ T i j) → ∃ i, T i i.
Proof.
  induction R as [|a R IH]; [done|]. intros _ Hsucc.
  destruct (Hsucc a) as (b & Hb & Hab); [left|].
  destruct (decide (b = a)) as [->|Hne]; [eauto|].
  assert (b ∈ R) as HbR by set_solver.
  apply IH; [by intros ->; set_solver|].
  intros i Hi. destruct (Hsucc i) as (j & Hj & Hij); [by right|].
  destruct (decide (j = a)) as [->|]; [|set_solver].
  exists b. split; [done|]. by etrans.
Qed.

Lemma tc_loop_next {A} (E : relation A) v :
  tc E v v → ∃ u, E v u ∧ tc E u u.
Proof.
  intros H. inversion H as [? ? Hvv|? u ? Hvu Huv]; subst.
  - exists v. split; [done|]. by apply tc_once.
  - exists u. split; [done|]. by eapply tc_r.
Qed.

(** When no step of [remaining] is ready, the dependency graph has a
    cycle. *)
Lemma stuck_cycle steps0 R :
  none_completed steps0 → deps_closed steps0 →
  (∀ j, j ∈ R → j < length steps0) → R ≠ [] →
  filter (λ i, is_ready (planning_state steps0 R) i) R = [] →
  has_cycle steps0.
Proof.
  intros Hnc Hcl Hrange Hne Hstuck.
  apply (sinkless_cycle (tc (dep_edge steps0)) R Hne).
  intros i Hi.
  assert (¬ is_ready (planning_state steps0 R) i) as Hnr.
  { intros Hr.
    assert (i ∈ filter (λ i, is_ready (planning_state steps0 R) i) R) as Hin
      by by apply list_elem_of_filter.
    rewrite Hstuck in Hin. by apply elem_of_nil in Hin. }
  destruct (lookup_lt_is_Some_2 steps0 i (Hrange i Hi)) as [s Hs].
  assert (Exists (not ∘ (λ d, ∃ j, get_step steps0 d = Some j ∧ j ∉ R))
            (step_depends_on s)) as Hex.
  { apply not_Forall_Exists.
    - intros d. destruct (get_step steps0 d) as [j|];
        [|right; naive_solver].
      destruct (decide (j ∈ R)); [right; naive_solver|left; eauto].
    - intros Hall. apply Hnr, is_ready_planning; [done|].
      exists s. split; [done|]. intros d Hd.
      rewrite Forall_forall in Hall. by apply Hall. }
  apply Exists_exists in Hex as (d & Hd & Hnot). simpl in Hnot.
  destruct (Hcl s d) as [j Hj]; [by eapply list_elem_of_lookup_2|done|].
  exists j. split.
  - destruct (decide (j ∈ R)); [done|]. exfalso. apply Hnot. eauto.
  - apply tc_once. by exists s, d.
Qed.

Lemma tc_subrel {A} (E F : relation A) :
  (∀ x y, E x y → F x y) → ∀ x y, tc E x y → tc F x y.
Proof.
  intros Hsub x y H. induction H as [x y H|x y z H _ IH].
  - by apply tc_once, Hsub.
  - eapply tc_l; [by apply Hsub|done].
Qed.

Lemma live_cycle_is_cycle steps : has_live_cycle steps → has_cycle steps.
Proof.
  intros [i Hi]. exists i. revert Hi. apply tc_subrel. by intros x y [H _].
Qed.

Lemma none_completed_live steps :
  none_completed steps → has_cycle steps → has_live_cycle steps.
Proof.
  intros Hnc [i Hi]. exists i. revert Hi. apply tc_subrel.
  intros x y Hxy. split; [done|].
  destruct Hxy as (s & d & _ & _ & (t & Ht & _)%get_step_Some).
  unfold status_at. rewrite Ht. simpl. intros [= Hst].
  eapply Hnc; [|done]. by eapply list_elem_of_lookup_2.
Qed.

(** When no step of [remaining] is ready, the steps the planner waits for
    form a cycle, whatever the statuses were at the start. *)
Lemma stuck_live_cycle steps0 R :
  deps_closed steps0 →
  (∀ j, j ∈ R → j < length steps0) → R ≠ [] →
  filter (λ i, is_ready (planning_state steps0 R) i) R = [] →
  has_live_cycle steps0.
Proof.
  intros Hcl Hrange Hne Hstuck.
  apply (sinkless_cycle (tc (live_edge steps0)) R Hne).
  intros i Hi.
  assert (¬ is_ready (planning_state steps0 R) i) as Hnr.
  { intros Hr.
    assert (i ∈ filter (λ i, is_ready (planning_state steps0 R) i) R) as Hin
      by by apply list_elem_of_filter.
    rewrite Hstuck in Hin. by apply elem_of_nil in Hin. }
  destruct (lookup_lt_is_Some_2 steps0 i (Hrange i Hi)) as [s Hs].
  assert (Exists (not ∘ (λ d, ∃ j, get_step steps0 d = Some j ∧
                    (j ∉ R ∨ status_at steps0 j = Some COMPLETED)))
            (step_depends_on s)) as Hex.
  { apply not_Forall_Exists.
    - intros d. destruct (get_step steps0 d) as [j|];
        [|right; naive_solver].
      destruct (decide (j ∈ R)); [|left; eauto].
      destruct (decide (status_at steps0 j = Some COMPLETED));
        [left; eauto|right; naive_solver].
    - intros Hall. apply Hnr, is_ready_planning_live.
      exists s. split; [done|]. intros d Hd.
      rewrite Forall_forall in Hall. by apply Hall. }
  apply Exists_exists in Hex as (d & Hd & Hnot). simpl in Hnot.
  destruct (Hcl s d) as [j Hj]; [by eapply list_elem_of_lookup_2|done|].
  exists j. split.
  - destruct (decide (j ∈ R)); [done|]. exfalso. apply Hnot. eauto.
  - apply tc_once. split; [by exists s, d|].
    intros Hst. apply Hnot. eauto.
Qed.

(** ** What the planner returns *)

Lemma plan_total steps :
  ∃ r st', _plan_execution_groups steps = Some (r, st') ∧
    (r = Raise cycle_error ∨
     ∃ gs, r = Ok gs ∧ st' = set_status PENDING <$> steps).
Proof.
  apply plan_loop_total; [apply NoDup_seq|by rewrite length_seq].
Qed.

(** Whenever the planner returns groups, every step is in exactly one of
    them, exactly once. *)
Lemma plan_groups_perm steps gs st' :
  _plan_execution_groups steps = Some (Ok gs, st') →
  concat gs ≡ₚ seq 0 (length steps).
Proof.
  intros Heq.
  pose proof (plan_loop_invariant
    (λ _ R groups, concat groups ++ R ≡ₚ seq 0 (length steps))) as Hinv.
  eapply (Hinv _ _ _ _ _ (Ok gs)) in Heq as [_ Hfin].
  - by rewrite (right_id_L [] (++)) in Hfin.
  - apply NoDup_seq.
  - done.
  Unshelve.
  intros st R groups HI Hnd ready _. simpl.
  rewrite concat_app, group_ready_concat, <- (assoc_L (++)).
  unfold ready. by rewrite filter_app_complement.
Qed.

Lemma plan_ok_reset steps gs st' :
  _plan_execution_groups steps = Some (Ok gs, st') →
  st' = set_status PENDING <$> steps.
Proof.
  intros Heq. destruct (plan_total steps) as (r & st & Heq' & Hr).
  rewrite Heq in Heq'. injection Heq' as <- <-.
  by destruct Hr as [[=]|(? & [= <-] & ->)].
Qed.

Lemma plan_raise_cycle steps e st' :
  _plan_execution_groups steps = Some (Raise e, st') → e = cycle_error.
Proof.
  intros Heq. destruct (plan_total steps) as (r & st & Heq' & Hr).
  rewrite Heq in Heq'. injection Heq' as <- <-.
  by destruct Hr as [[= ->]|(? & [=] & _)].
Qed.

Lemma elem_of_concat {A} (x : A) (ls : list (list A)) :
  x ∈ concat ls ↔ ∃ l, x ∈ l ∧ l ∈ ls.
Proof.
  induction ls as [|l ls IH]; simpl.
  - split; [by intros ?%elem_of_nil|by intros (? & _ & ?%elem_of_nil)].
  - rewrite elem_of_app, IH. split.
    + intros [?|(l' & ? & ?)]; [exists l|exists l']; set_solver.
    + intros (l' & ? & [->|?]%elem_of_cons); eauto.
Qed.

Lemma strictly_earlier_app_r groups more j i :
  strictly_earlier groups j i → strictly_earlier (groups ++ more) j i.
Proof.
  intros (pre & g & post & -> & Hi & Hj).
  exists pre, g, (post ++ more). by rewrite <- (assoc_L (++)).
Qed.

Lemma strictly_earlier_new groups more j i :
  j ∈ concat groups → i ∈ concat more →
  strictly_earlier (groups ++ more) j i.
Proof.
  intros Hj (g & Hig & Hg)%elem_of_concat.
  apply list_elem_of_split in Hg as (pre & post & ->).
  exists (groups ++ pre), g, post. split_and!.
  - by rewrite <- (assoc_L (++)).
  - done.
  - rewrite concat_app. apply elem_of_app. by left.
Qed.

(** The state of the planning loop on a workflow none of whose steps is
    [COMPLETED] when planning starts. *)
Lemma plan_order_invariant steps0 :
  none_completed steps0 →
  ∀ steps R groups,
    (steps = planning_state steps0 R ∧
     (∀ j, j ∈ R → j < length steps0) ∧
     (∀ j, j < length steps0 → j ∈ R ∨ j ∈ concat groups) ∧
     (∀ i s d j, i ∈ concat groups → steps0 !! i = Some s →
        d ∈ step_depends_on s → get_step steps0 d = Some j →
        strictly_earlier groups j i)) →
    NoDup R →
    let ready := filter (λ i, is_ready steps i) R in
    ready ≠ [] →
    (mark_all COMPLETED ready steps
       = planning_state steps0 (filter (λ i, ¬ is_ready steps i) R) ∧
     (∀ j, j ∈ filter (λ i, ¬ is_ready steps i) R → j < length steps0) ∧
     (∀ j, j < length steps0 →
        j ∈ filter (λ i, ¬ is_ready steps i) R ∨
        j ∈ concat (groups ++ group_ready steps ready)) ∧
     (∀ i s d j, i ∈ concat (groups ++ group_ready steps ready) →
        steps0 !! i = Some s →
        d ∈ step_depends_on s → get_step steps0 d = Some j →
        strictly_earlier (groups ++ group_ready steps ready) j i)).
Proof.
  intros Hnc steps R groups (-> & Hrange & Hcover & Hord) Hnd ready Hne.
  split_and!.
  - apply planning_state_round.
  - intros j [_ Hj]%list_elem_of_filter. by apply Hrange.
  - intros j Hj. rewrite concat_app, group_ready_concat.
    destruct (Hcover j Hj) as [HR|Hg]; [|set_solver].
    destruct (decide (is_ready (planning_state steps0 R) j)) as [Hr|Hr].
    + right. apply elem_of_app. right. by apply list_elem_of_filter.
    + left. by apply list_elem_of_filter.
  - intros i s d j Hi Hs Hd Hj.
    rewrite concat_app in Hi. apply elem_of_app in Hi as [Hi|Hi].
    + apply strictly_earlier_app_r. by eapply Hord.
    + apply strictly_earlier_new; [|done].
      rewrite group_ready_concat in Hi.
      apply list_elem_of_filter in Hi as [Hr Hi].
      apply is_ready_planning in Hr as (s' & Hs' & Hdeps); [|done].
      assert (s' = s) as -> by congruence.
      destruct (Hdeps d Hd) as (j' & Hj' & HjR).
      assert (j' = j) as -> by congruence.
      destruct (Hcover j) as [?|?]; [by eapply get_step_lt|done|done].
Qed.

(** The state of the planning loop, whatever the statuses at the start:
    a planned step comes strictly after each of its dependencies that was
    not [COMPLETED] when planning started. *)
Lemma plan_live_order_invariant steps0 :
  ∀ steps R groups,
    (steps = planning_state steps0 R ∧
     (∀ j, j ∈ R → j < length steps0) ∧
     (∀ j, j < length steps0 → j ∈ R ∨ j ∈ concat groups) ∧
     (∀ i s d j, i ∈ concat groups → steps0 !! i = Some s →
        d ∈ step_depends_on s → get_step steps0 d = Some j →
        status_at steps0 j ≠ Some COMPLETED →
        strictly_earlier groups j i)) →
    NoDup R →
    let ready := filter (λ i, is_ready steps i) R in
    ready ≠ [] →
    (mark_all COMPLETED ready steps
       = planning_state steps0 (filter (λ i, ¬ is_ready steps i) R) ∧
     (∀ j, j ∈ filter (λ i, ¬ is_ready steps i) R → j < length steps0) ∧
     (∀ j, j < length steps0 →
        j ∈ filter (λ i, ¬ is_ready steps i) R ∨
        j ∈ concat (groups ++ group_ready steps ready)) ∧
     (∀ i s d j, i ∈ concat (groups ++ group_ready steps ready) →
        steps0 !! i = Some s →
        d ∈ step_depends_on s → get_step steps0 d = Some j →
        status_at steps0 j ≠ Some COMPLETED →
        strictly_earlier (groups ++ group_ready steps ready) j i)).
Proof.
  intros steps R groups (-> & Hrange & Hcover & Hord) Hnd ready Hne.
  split_and!.
  - apply planning_state_round.
  - intros j [_ Hj]%list_elem_of_filter. by apply Hrange.
  - intros j Hj. rewrite concat_app, group_ready_concat.
    destruct (Hcover j Hj) as [HR|Hg]; [|set_solver].
    destruct (decide (is_ready (planning_state steps0 R) j)) as [Hr|Hr].
    + right. apply elem_of_app. right. by apply list_elem_of_filter.
    + left. by apply list_elem_of_filter.
  - intros i s d j Hi Hs Hd Hj Hlive.
    rewrite concat_app in Hi. apply elem_of_app in Hi as [Hi|Hi].
    + apply strictly_earlier_app_r. by eapply Hord.
    + apply strictly_earlier_new; [|done].
      rewrite group_ready_concat in Hi.
      apply list_elem_of_filter in Hi as [Hr Hi].
      apply is_ready_planning_live in Hr as (s' & Hs' & Hdeps).
      assert (s' = s) as -> by congruence.
      destruct (Hdeps d Hd) as (j' & Hj' & HjR).
      assert (j' = j) as -> by congruence.
      destruct HjR as [HjR|?]; [|done].
      destruct (Hcover j) as [?|?]; [by eapply get_step_lt|done|done].
Qed.

(** C1.  For a workflow whose dependency graph is acyclic and whose every
    [depends_on] id names a step of the workflow, [_plan_execution_groups]
    returns, whatever the statuses of the steps are; the groups contain
    every step exactly once, and for every step each step its [depends_on]
    resolves to lies in a strictly earlier group, unless that step is
    already [COMPLETED] when planning starts. *)
Theorem planner_orders_acyclic_workflow steps :
  acyclic steps → deps_closed steps →
  ∃ groups,
    _plan_execution_groups steps = Some (Ok groups, set_status PENDING <$> steps) ∧
    concat groups ≡ₚ seq 0 (length steps) ∧
    ∀ i s d j, steps !! i = Some s → d ∈ step_depends_on s →
               get_step steps d = Some j →
               status_at steps j ≠ Some COMPLETED →
               strictly_earlier groups j i.
Proof.
  intros Hac Hcl.
  destruct (plan_total steps) as (r & st' & Heq & Hr).
  pose proof (plan_loop_invariant _ (plan_live_order_invariant steps)
                (length steps) steps (seq 0 (length steps)) [] r st'
                (NoDup_seq _ _)) as Hinv.
  lapply Hinv; clear Hinv.
  2:{ split_and!.
      - by rewrite planning_state_init.
      - intros j Hj%elem_of_seq. lia.
      - intros j Hj. left. apply elem_of_seq. lia.
      - intros i s d j Hi. by apply elem_of_nil in Hi. }
  intros Hinv. specialize (Hinv Heq).
  destruct r as [gs|e].
  - destruct Hinv as (steps' & _ & _ & Hcover & Hord).
    destruct Hr as [[=]|(? & [= <-] & ->)].
    exists gs. split_and!; [done|by eapply plan_groups_perm|].
    intros i s d j Hs Hd Hj Hlive. eapply Hord; [|done..].
    destruct (Hcover i) as [[]%elem_of_nil|?]; [by eapply lookup_lt_Some|done].
  - destruct Hinv as (steps' & R' & groups' & (-> & Hrange & _) & _ & Hne & Hst).
    destruct (live_cycle_is_cycle steps
                (stuck_live_cycle steps R' Hcl Hrange Hne Hst)) as [v Hv].
    by destruct (Hac v).
Qed.

(** A step on a cycle of steps that are not [COMPLETED] never becomes
    ready, so the loop ends with the cycle error. *)
Lemma plan_live_cycle_raises steps :
  has_live_cycle steps →
  ∃ st', _plan_execution_groups steps = Some (Raise cycle_error, st').
Proof.
  intros [v Hv].
  destruct (plan_total steps) as (r & st' & Heq & Hr).
  destruct Hr as [->|(gs & -> & ->)]; [eauto|]. exfalso.
  pose proof (plan_loop_invariant
    (λ st R _, st = planning_state steps R ∧
               ∀ u, tc (live_edge steps) u u → u ∈ R)) as Hinv.
  eapply (Hinv _ _ _ _ _ (Ok gs)) in Heq as (? & _ & Hin).
  - by eapply elem_of_nil, Hin.
  - apply NoDup_seq.
  - split; [by rewrite planning_state_init|].
    intros u Hu. apply elem_of_seq. split; [lia|]. simpl.
    apply tc_loop_next in Hu as (w & [(s & d & Hs & _) _] & _).
    by eapply lookup_lt_Some.
  Unshelve.
  intros st R groups [-> Hcyc] Hnd ready _. split.
  { apply planning_state_round. }
  intros u Hu. apply list_elem_of_filter. split; [|by apply Hcyc].
  intros Hr. apply is_ready_planning_live in Hr as (s & Hs & Hdeps).
  apply tc_loop_next in Hu as (w & [(s' & d & Hs' & Hd & Hw) Hlive] & Hww).
  assert (s' = s) as -> by congruence.
  destruct (Hdeps d Hd) as (j & Hj & HjR).
  assert (j = w) as -> by congruence.
  destruct HjR as [HjR|?]; [|done]. by apply HjR, Hcyc.
Qed.

(** A step with a dependency that names no step is never ready, whatever
    the statuses are. *)
Lemma dangling_never_ready steps i s d :
  steps !! i = Some s → d ∈ step_depends_on s → get_step steps d = None →
  ¬ is_ready steps i.
Proof.
  intros Hs Hd Hnone (s' & Hs' & Hdeps)%is_ready_spec.
  assert (s' = s) as -> by congruence.
  specialize (Hdeps d Hd). unfold dep_completed in Hdeps.
  by rewrite Hnone in Hdeps.
Qed.

Lemma plan_dangling_raises steps :
  dangling steps →
  ∃ st', _plan_execution_groups steps = Some (Raise cycle_error, st').
Proof.
  intros (i & s & d & Hs & Hd & Hnone).
  destruct (plan_total steps) as (r & st' & Heq & Hr).
  destruct Hr as [->|(gs & -> & ->)]; [eauto|]. exfalso.
  pose proof (plan_loop_invariant
    (λ st R _, i ∈ R ∧ get_step st d = None ∧
               ∃ s', st !! i = Some s' ∧ d ∈ step_depends_on s')) as Hinv.
  eapply (Hinv _ _ _ _ _ (Ok gs)) in Heq as (? & Hin & _).
  - by apply elem_of_nil in Hin.
  - apply NoDup_seq.
  - split_and!; [|done|by eauto].
    apply elem_of_seq. apply lookup_lt_Some in Hs. lia.
  Unshelve.
  intros st R groups (HiR & Hn & s' & Hs' & Hd') Hnd ready _. split_and!.
  { apply list_elem_of_filter. split; [|done].
    by eapply dangling_never_ready. }
  { by rewrite (get_step_ids _ st) by apply mark_all_ids. }
  rewrite mark_all_lookup, Hs'. simpl. eexists. split; [done|].
  by case_decide.
Qed.

(** ** Facts about the sample workflows *)

Lemma none_completed_Forall steps :
  Forall (λ s, step_status s ≠ COMPLETED) steps → none_completed steps.
Proof. intros H s Hs. by eapply Forall_forall in H. Qed.

Lemma deps_closed_Forall steps :
  Forall (λ s, Forall (λ d, is_Some (get_step steps d)) (step_depends_on s))
         steps →
  deps_closed steps.
Proof.
  intros H s d Hs Hd. eapply Forall_forall in H; [|done].
  by eapply Forall_forall in H.
Qed.

(** A workflow whose dependencies all resolve to earlier steps is
    acyclic. *)
Lemma acyclic_backward steps :
  (∀ i j, dep_edge steps i j → j < i) → acyclic steps.
Proof.
  intros Hback i Hi.
  assert (∀ a b, tc (dep_edge steps) a b → b < a) as Hlt.
  { intros a b Htc. induction Htc as [a b H|a b c H _ IH].
    - by apply Hback.
    - apply Hback in H. lia. }
  apply Hlt in Hi. lia.
Qed.

Lemma dep_edge_inv steps i j :
  dep_edge steps i j →
  ∃ s, steps !! i = Some s ∧ j ∈ omap (get_step steps) (step_depends_on s).
Proof.
  intros (s & d & Hs & Hd & Hj). exists s. split; [done|].
  apply list_elem_of_omap. eauto.
Qed.

Lemma fan_in_none_completed : none_completed fan_in.
Proof. apply none_completed_Forall. by repeat constructor. Qed.

Lemma fan_in_deps_closed : deps_closed fan_in.
Proof. apply deps_closed_Forall. repeat constructor; by eexists. Qed.

Lemma fan_in_acyclic : acyclic fan_in.
Proof.
  apply acyclic_backward. intros i j (s & Hs & Hj)%dep_edge_inv.
  destruct i as [|[|[|i]]]; simplify_eq/=;
    try (by apply elem_of_nil in Hj).
  vm_compute in Hj. set_unfold. lia.
Qed.

Lemma rerun_chain_deps_closed : deps_closed rerun_chain.
Proof. apply deps_closed_Forall. repeat constructor; by eexists. Qed.

Lemma rerun_chain_acyclic : acyclic rerun_chain.
Proof.
  apply acyclic_backward. intros i j (s & Hs & Hj)%dep_edge_inv.
  destruct i as [|[|i]]; simplify_eq/=; try (by apply elem_of_nil in Hj).
  vm_compute in Hj. set_unfold. lia.
Qed.

Lemma not_strictly_earlier_single g j i : ¬ strictly_earlier [g] j i.
Proof.
  intros (pre & g' & post & Heq & _ & Hj).
  destruct pre as [|p pre]; [by apply elem_of_nil in Hj|].
  destruct pre; simplify_eq/=.
Qed.

(** ** C1: the planner on acyclic workflows *)

Lemma planner_orders_acyclic_workflow_witness :
  acyclic fan_in ∧ deps_closed fan_in ∧
  ∃ groups,
    _plan_execution_groups fan_in
      = Some (Ok groups, set_status PENDING <$> fan_in) ∧
    concat groups ≡ₚ seq 0 (length fan_in) ∧
    ∀ i s d j, fan_in !! i = Some s → d ∈ step_depends_on s →
               get_step fan_in d = Some j →
               status_at fan_in j ≠ Some COMPLETED →
               strictly_earlier groups j i.
Proof.
  split_and!; [apply fan_in_acyclic|apply fan_in_deps_closed|].
  apply (planner_orders_acyclic_workflow fan_in);
    [apply fan_in_acyclic|apply fan_in_deps_closed].
Defined.

(** C1 as stated fails: the chain [a], [b] with [a] already [COMPLETED] is
    acyclic and closed, yet the planner puts both steps in one group. *)
Lemma planner_reads_live_status :
  ¬ (∀ steps, acyclic steps → deps_closed steps →
       ∃ groups st',
         _plan_execution_groups steps = Some (Ok groups, st') ∧
         concat groups ≡ₚ seq 0 (length steps) ∧
         ∀ i s d j, steps !! i = Some s → d ∈ step_depends_on s →
                    get_step steps d = Some j → strictly_earlier groups j i).
Proof.
  intros H.
  destruct (H rerun_chain rerun_chain_acyclic rerun_chain_deps_closed)
    as (groups & st' & Hplan & _ & Hord).
  vm_compute in Hplan. injection Hplan as <- _.
  eapply (not_strictly_earlier_single [0; 1] 0 1), (Hord 1 _ "a");
    [reflexivity|set_solver|reflexivity].
Qed.

(** ** C6: what planning leaves behind *)

(** C6 (amended).  The planner marks the live steps and, when it returns
    its groups, has set the status of every step to [PENDING], all other
    fields being as before: a step that was [PENDING] before planning is
    unchanged. *)
Theorem planner_resets_to_pending steps groups steps' :
  _plan_execution_groups steps = Some (Ok groups, steps') →
  steps' = set_status PENDING <$> steps ∧
  (∀ i s, steps' !! i = Some s → step_status s = PENDING) ∧
  (∀ i s, steps !! i = Some s → step_status s = PENDING → steps' !! i = Some s).
Proof.
  intros ->%plan_ok_reset. split_and!; [done|..].
  - intros i s. rewrite list_lookup_fmap.
    destruct (steps !! i); intros [= <-]; done.
  - intros i s Hs Hst. rewrite list_lookup_fmap, Hs. simpl. f_equal.
    destruct s; simpl in *; by subst.
Qed.

Lemma planner_resets_to_pending_witness :
  _plan_execution_groups fan_in = Some (Ok [[0; 1]; [2]], fan_in) ∧
  fan_in = set_status PENDING <$> fan_in ∧
  (∀ i s, fan_in !! i = Some s → step_status s = PENDING) ∧
  (∀ i s, fan_in !! i = Some s → step_status s = PENDING →
          fan_in !! i = Some s).
Proof.
  split; [by vm_compute|].
  apply (planner_resets_to_pending fan_in [[0; 1]; [2]] fan_in).
  by vm_compute.
Defined.

(** C6 as stated fails: a step that is [COMPLETED] before planning is
    [PENDING] after it. *)
Lemma planner_changes_completed_status :
  ¬ (∀ steps groups steps',
       _plan_execution_groups steps = Some (Ok groups, steps') →
       step_status <$> steps' = step_status <$> steps).
Proof.
  intros H.
  specialize (H rerun_chain [[0; 1]] (set_status PENDING <$> rerun_chain)).
  by specialize (H eq_refl).
Qed.

(** ** C7: the groups of one round *)













(** ** Input resolution *)

Lemma collect_inputs (step_outputs : gmap string string) deps : ∀ inputs,
  foldl (λ inputs dep_id,
           match step_outputs !! dep_id with
           | Some o => inputs ++ [o]
           | None => inputs
           end) inputs deps
  = inputs ++ available_outputs deps step_outputs.
Proof.
  unfold available_outputs.
  induction deps as [|d deps IH]; intros inputs; simpl.
  - by rewrite (right_id_L [] (++)).
  - rewrite IH. destruct (step_outputs !! d); simpl; [|done].
    by rewrite <- (assoc_L (++)).
Qed.

Lemma separator_chars :
  nat_of_ascii <$> String.list_ascii_of_string separator = [10; 10; 45; 45; 45; 10; 10].
Proof. reflexivity. Qed.

(** ** C8: construction of a custom workflow *)

Lemma get_step_None steps d :
  get_step steps d = None ↔ d ∉ (list_to_set (step_id <$> steps) : gset string).
Proof.
  unfold get_step. rewrite fmap_None, list_find_None, Forall_forall.
  rewrite elem_of_list_to_set, list_elem_of_fmap. naive_solver.
Qed.

Lemma first_missing_Some ids deps d :
  first_missing ids deps = Some d → d ∈ deps ∧ d ∉ ids.
Proof.
  induction deps as [|d' deps IH]; simpl; [done|].
  case_decide; [|intros [= ->]; split; [left|done]].
  intros [??]%IH. split; [by right|done].
Qed.

Lemma first_missing_None ids deps d :
  first_missing ids deps = None → d ∈ deps → d ∈ ids.
Proof.
  induction deps as [|d' deps IH]; simpl; [by intros _ ?%elem_of_nil|].
  case_decide; [|done]. intros Hm [->|?]%elem_of_cons; auto.
Qed.

Lemma first_dangling_Some ids steps sid d :
  first_dangling ids steps = Some (sid, d) →
  ∃ s, s ∈ steps ∧ step_id s = sid ∧ d ∈ step_depends_on s ∧ d ∉ ids.
Proof.
  induction steps as [|s steps IH]; simpl; [done|].
  destruct (first_missing ids (step_depends_on s)) as [d'|] eqn:E.
  - intros [= <- <-]. apply first_missing_Some in E as [??].
    exists s. split_and!; [left|done..].
  - intros (s' & ? & ?)%IH. exists s'. split; [by right|done].
Qed.

Lemma first_dangling_None ids steps s d :
  first_dangling ids steps = None →
  s ∈ steps → d ∈ step_depends_on s → d ∈ ids.
Proof.
  induction steps as [|s' steps IH]; simpl; [by intros _ ?%elem_of_nil|].
  destruct (first_missing ids (step_depends_on s')) as [d'|] eqn:E; [done|].
  intros Hm [->|?]%elem_of_cons Hd; [by eapply first_missing_None|by apply IH].
Qed.

(** C8 (amended).  [create_custom_workflow] raises [ValueError] from the
    call itself whenever some [depends_on] id names no step of the given
    list, and then leaves the registry as it was; otherwise, duplicate
    step ids included, it builds the workflow and registers it. *)
Theorem create_custom_workflow_checks_dependencies `{env : Environment}
    registry name steps config (w : World) :
  let '(res, registry', _) :=
    create_custom_workflow registry name steps config w in
  (dangling steps →
   registry' = registry ∧
   ∃ s d, s ∈ steps ∧ d ∈ step_depends_on s ∧ get_step steps d = None ∧
          res = Raise (dependency_error (step_id s) d)) ∧
  (¬ dangling steps →
   ∃ workflow, res = Ok workflow ∧ wf_steps workflow = steps ∧
               wf_id workflow = (uuid4 w).1 ∧
               registry' = <[wf_id workflow := workflow]> registry).
Proof.
  unfold create_custom_workflow. destruct (uuid4 w) as [wid w'] eqn:Hw.
  destruct (first_dangling _ steps) as [[sid d]|] eqn:E.
  - apply first_dangling_Some in E as (s & Hs & <- & Hd & Hn%get_step_None).
    split.
    + intros _. split; [done|]. by exists s, d.
    + intros Hnd. exfalso. apply Hnd.
      apply list_elem_of_lookup_1 in Hs as [i Hi]. by exists i, s, d.
  - split.
    + intros (i & s & d & Hs & Hd & Hn%get_step_None). exfalso. apply Hn.
      eapply first_dangling_None; [done| |done].
      by eapply list_elem_of_lookup_2.
    + intros _. eexists. by split_and!.
Qed.

(** C8 as stated fails: a list with a duplicate step id is accepted and
    registered. *)
Lemma duplicate_ids_are_registered :
  ¬ NoDup (step_id <$> duplicate_ids) ∧
  ∃ workflow,
    @create_custom_workflow sample_env ∅ "custom" duplicate_ids None 0%Z
    = (Ok workflow, <[wf_id workflow := workflow]> ∅, 1%Z) ∧
    wf_steps workflow = duplicate_ids.
Proof.
  split.
  - intros [H _]%NoDup_cons. apply H. left.
  - exists (mkWorkflow "wf-0" "custom" duplicate_ids default_config PENDING
                       None None None).
    split; [by vm_compute|done].
Qed.

(** ** C9: cleanup of the registry *)

Lemma expired_spec t age workflow :
  expired (t - age) workflow ↔
  terminal (wf_status workflow) ∧ ended_before t age workflow.
Proof.
  unfold expired, terminal, ended_before.
  rewrite andb_True, bool_decide_spec.
  destruct (wf_end_time workflow) as [e|].
  - rewrite bool_decide_spec. set_unfold. split.
    + intros [Hst He]. split; [tauto|]. exists e. split; [done|lia].
    + intros [Hst (e' & [= <-] & He)]. split; [tauto|lia].
  - split; [by intros [_ []]|by intros [_ (? & [=] & _)]].
Qed.

Lemma delete_all (registry : gmap string Workflow) ids : ∀ n,
  NoDup ids → (∀ i, i ∈ ids → is_Some (registry !! i)) →
  ∃ registry',
    foldl (λ '(registry, cleaned_count) workflow_id,
             (delete workflow_id registry, S cleaned_count))
          (registry, n) ids = (registry', n + length ids) ∧
    length ids + size registry' = size registry ∧
    ∀ i, registry' !! i = if decide (i ∈ ids) then None else registry !! i.
Proof.
  revert registry. induction ids as [|k ids IH]; intros registry n Hnd Hin.
  - exists registry. simpl. split_and!; [f_equal; lia|done|done].
  - apply NoDup_cons in Hnd as [Hk Hnd].
    destruct (IH (delete k registry) (S n) Hnd) as (r' & Heq & Hsize & Hlook).
    { intros i Hi. rewrite lookup_delete_ne by (intros ->; done).
      apply Hin. by right. }
    exists r'. simpl. split_and!.
    + rewrite Heq. f_equal. lia.
    + assert (is_Some (registry !! k)) as [x Hx] by (apply Hin; left).
      rewrite map_size_delete_Some in Hsize by eauto.
      assert (size registry ≠ 0).
      { apply map_size_non_empty_iff. intros ->.
        by rewrite lookup_empty in Hx. }
      simpl. lia.
    + intros i. rewrite Hlook.
      destruct (decide (i = k)) as [->|Hne].
      * rewrite (decide_True (P := k ∈ k :: ids)) by left.
        case_decide; [done|]. by rewrite lookup_delete_eq.
      * rewrite lookup_delete_ne by done.
        repeat case_decide; set_solver.
Qed.

(** The cutoff is computed exactly when the number of hours fits a
    [timedelta] and the difference is a datetime. *)
Lemma cutoff_spec t max_age_hours :
  cutoff t max_age_hours
  = if decide ((-999999999 ≤ max_age_hours `div` 24 ≤ 999999999)%Z ∧
               (0 ≤ t - max_age_hours * 3600000000 ≤ 315537897599999999)%Z)
    then Ok (t - max_age_hours * 3600000000)%Z
    else Raise OverflowError.
Proof.
  unfold cutoff, timedelta_hours, datetime_sub, hours, datetime_max.
  repeat case_decide; try done; tauto.
Qed.

(** C9.  [cleanup_completed_workflows] computes the cutoff
    [datetime.now() - timedelta(hours=max_age_hours)] first.  When
    [max_age_hours] is a number of hours that a [timedelta] holds (its
    whole days number at most 999999999 in either direction) and the cutoff
    is a datetime (between 0001-01-01 and 9999-12-31), the call removes
    exactly the workflows whose status is terminal and whose end time lies
    more than [max_age_hours] hours, that is [max_age_hours * 3600000000]
    microseconds, before the time of the call, returns the number of
    workflows removed, and keeps every [PENDING] or [RUNNING] workflow.
    In every other case the call raises [OverflowError] and the registry
    is left as it was. *)
Theorem cleanup_removes_old_terminal_workflows `{env : Environment}
    (registry : gmap string Workflow) max_age_hours (w : World) :
  let t := (datetime_now w).1 in
  let '(r, registry', _) :=
    cleanup_completed_workflows registry max_age_hours w in
  let representable :=
    (-999999999 ≤ max_age_hours `div` 24 ≤ 999999999)%Z ∧
    (0 ≤ t - max_age_hours * 3600000000 ≤ 315537897599999999)%Z in
  (representable →
   ∃ cleaned_count,
     r = Ok cleaned_count ∧
     (∀ i workflow,
        registry' !! i = Some workflow ↔
        registry !! i = Some workflow ∧
        ¬ (terminal (wf_status workflow) ∧
           ∃ e, wf_end_time workflow = Some e ∧
                (max_age_hours * 3600000000 < t - e)%Z)) ∧
     cleaned_count + size registry' = size registry ∧
     (∀ i workflow,
        registry !! i = Some workflow →
        wf_status workflow = PENDING ∨ wf_status workflow = RUNNING →
        registry' !! i = Some workflow)) ∧
  (¬ representable → r = Raise OverflowError ∧ registry' = registry).
Proof.
  unfold cleanup_completed_workflows.
  destruct (datetime_now w) as [t w'] eqn:Hw. simpl.
  rewrite cutoff_spec. case_decide as Hrep; [|by split].
  set (age := (max_age_hours * 3600000000)%Z).
  set (ids := (filter _ (map_to_list registry)).*1).
  assert (∀ i, i ∈ ids ↔
               ∃ wf, registry !! i = Some wf ∧ expired (t - age) wf) as Hids.
  { intros i. unfold ids. rewrite list_elem_of_fmap. split.
    - intros ([i' wf] & -> & [Hex Hin%elem_of_map_to_list]%list_elem_of_filter).
      eauto.
    - intros (wf & Hwf & Hex). exists (i, wf). split; [done|].
      apply list_elem_of_filter. split; [done|].
      by apply elem_of_map_to_list. }
  destruct (delete_all registry ids 0) as (r' & -> & Hsize & Hlook).
  { unfold ids. eapply NoDup_fmap_fst.
    - intros i x y [_ Hx%elem_of_map_to_list]%list_elem_of_filter
        [_ Hy%elem_of_map_to_list]%list_elem_of_filter. congruence.
    - apply NoDup_filter, NoDup_map_to_list. }
  { intros i (wf & Hwf & _)%Hids. eauto. }
  split; [intros _|done]. exists (length ids).
  assert (∀ i workflow,
     r' !! i = Some workflow ↔
     registry !! i = Some workflow ∧
     ¬ (terminal (wf_status workflow) ∧ ended_before t age workflow))
    as Hkeep.
  { intros i wf. rewrite Hlook, <- expired_spec. case_decide as Hi.
    - apply Hids in Hi as (wf' & Hwf' & Hex). split; [done|].
      intros [Hwf Hn]. by simplify_eq.
    - split; [|tauto]. intros Hwf. split; [done|].
      intros Hex. apply Hi, Hids. eauto. }
  split_and!; [done|done|done|].
  intros i wf Hwf Hst. apply Hkeep. split; [done|].
  intros [Hterm _]. unfold terminal in Hterm.
  destruct Hst as [Hst|Hst]; rewrite Hst in Hterm; naive_solver.
Qed.

(** C9 does not hold for every [max_age_hours].  On 2026-11-04 the cutoff
    of a hundred million hours, before or after the call, is no datetime:
    the call raises [OverflowError] instead of returning a number, and with
    the negative age the completed workflow that ended 25 hours ago stays
    registered, though it ended more than [max_age_hours] hours before the
    call. *)
Lemma cleanup_raises_without_cutoff :
  let now := 63929347200000000%Z in
  let old := ended_workflow "old" (now - 25 * 3600000000) in
  let registry : gmap string Workflow := {["old" := old]} in
  (terminal (wf_status old) ∧
   ∃ e, wf_end_time old = Some e ∧ (-100000000 * 3600000000 < now - e)%Z) ∧
  @cleanup_completed_workflows sample_env registry (-100000000) now
  = (Raise OverflowError, registry, (now + 1)%Z) ∧
  @cleanup_completed_workflows sample_env registry 100000000 now
  = (Raise OverflowError, registry, (now + 1)%Z).
Proof.
  cbv zeta. split; [|split; by vm_compute].
  split; [by left|]. eexists. split; [reflexivity|]. by vm_compute.
Qed.

(** [cleanup(maxAge=24h)] removes a completed workflow that ended 25 hours
    ago and keeps one that ended an hour ago. *)
Example cleanup_after_a_day :
  let now := 63929347200000000%Z in
  let registry : gmap string Workflow :=
    {["old" := ended_workflow "old" (now - hours 25);
      "recent" := ended_workflow "recent" (now - hours 1)]} in
  @cleanup_completed_workflows sample_env registry 24 now
  = (Ok 1, {["recent" := ended_workflow "recent" (now - hours 1)]},
     (now + 1)%Z).
Proof. by vm_compute. Qed.

(** ** The engine, step by step *)

Section EngineProperties.
Context {env : Environment}.

Lemma dispatch_eq i config m :
  dispatch i config m =
  match m_steps m !! i with
  | None => (Raise bad_reference, m)
  | Some step =>
      let input_text := _resolve_step_input step (m_outputs m) in
      let (t, w1) := datetime_now (m_world m) in
      let (o, w2) :=
        run_fabric (step_pattern step) input_text (provider config)
          (model config) (step_timeout step) w1 in
      (Ok (step_id step, o),
       mkMachine (alter (set_start_time t ∘ set_status RUNNING) i (m_steps m))
         (m_outputs m) w2
         (m_calls m ++ [mkCall i (step_pattern step) input_text
                          (provider config) (model config)
                          (step_timeout step)]))
  end.
Proof.
  unfold dispatch, mbind, M_bind, read_step, read_outputs, update_step, now,
    call_run_fabric, mret, M_ret.
  destruct (m_steps m !! i) as [step|]; [|done]. simpl.
  destruct (datetime_now (m_world m)) as [t w1]. simpl.
  destruct (run_fabric _ _ _ _ _ w1) as [o w2].
  by rewrite list_alter_alter_eq.
Qed.

Lemma apply_result_eq sid r config m :
  apply_result sid r config m =
  match get_step (m_steps m) sid with
  | None => (Ok (), m)
  | Some k =>
      let (t, w1) := datetime_now (m_world m) in
      if success r then
        (Ok (),
         mkMachine
           (alter (set_status COMPLETED ∘ set_end_time t ∘ set_result r) k
                  (m_steps m))
           (<[sid := output r]> (m_outputs m)) w1 (m_calls m))
      else
        (if continue_on_error config then Ok ()
         else Raise (step_failed_error sid r),
         mkMachine
           (alter (set_error (error r) ∘ set_status FAILED ∘ set_end_time t
                   ∘ set_result r) k (m_steps m))
           (m_outputs m) w1 (m_calls m))
  end.
Proof.
  unfold apply_result, mbind, M_bind, update_step, now, set_output, raise,
    mret, M_ret.
  destruct (get_step (m_steps m) sid) as [k|]; [|done]. simpl.
  destruct (datetime_now (m_world m)) as [t w1]. simpl.
  destruct (success r); simpl.
  - by rewrite !list_alter_alter_eq.
  - destruct (continue_on_error config); simpl;
      by rewrite !list_alter_alter_eq.
Qed.

(** *** Updates of one step *)

Lemma alter_ids (f : WorkflowStep → WorkflowStep) (k : nat)
    (steps : list WorkflowStep) :
  (∀ s, step_id (f s) = step_id s) →
  step_id <$> alter f k steps = step_id <$> steps.
Proof.
  intros Hf. apply list_eq; intros j. rewrite !list_lookup_fmap.
  destruct (decide (j = k)) as [->|Hne].
  - rewrite list_lookup_alter_eq. destruct (steps !! k); simpl; [|done].
    by rewrite Hf.
  - by rewrite list_lookup_alter_ne.
Qed.

Lemma alter_completed (f : WorkflowStep → WorkflowStep) (k : nat)
    (steps : list WorkflowStep) :
  (∀ s, (step_status s = COMPLETED → is_Some (step_result s)) →
        step_status (f s) = COMPLETED → is_Some (step_result (f s))) →
  completed_have_results steps → completed_have_results (alter f k steps).
Proof.
  intros Hf Hinv s (j & Hj)%list_elem_of_lookup_1.
  destruct (decide (j = k)) as [->|Hne].
  - rewrite list_lookup_alter_eq in Hj.
    destruct (steps !! k) as [s0|] eqn:Hk; simplify_eq/=.
    apply Hf. apply Hinv. by eapply list_elem_of_lookup_2.
  - rewrite list_lookup_alter_ne in Hj by done.
    apply Hinv. by eapply list_elem_of_lookup_2.
Qed.

Lemma works_on_refl X m : works_on X m m.
Proof.
  split_and!; [done|done|]. exists []. split; [by rewrite app_nil_r|].
  by intros c ?%elem_of_nil.
Qed.

Lemma works_on_trans X m1 m2 m3 :
  works_on X m1 m2 → works_on X m2 m3 → works_on X m1 m3.
Proof.
  intros (Hid1 & Hfr1 & n1 & Hc1 & Hn1) (Hid2 & Hfr2 & n2 & Hc2 & Hn2).
  split_and!.
  - by rewrite Hid2.
  - intros j Hj. by rewrite Hfr2, Hfr1.
  - exists (n1 ++ n2). split; [by rewrite Hc2, Hc1, (assoc_L (++))|].
    intros c [?|?]%elem_of_app; auto.
Qed.

Lemma works_on_mono X Y m m' :
  (∀ j, j ∈ X → j ∈ Y) → works_on X m m' → works_on Y m m'.
Proof.
  intros Hsub (Hid & Hfr & n & Hc & Hn). split_and!; [done| |].
  - intros j Hj. apply Hfr. auto.
  - exists n. split; [done|]. auto.
Qed.

(** *** Dispatch of one step *)

Lemma dispatch_spec i config m r m' :
  dispatch i config m = (r, m') →
  works_on [i] m m' ∧
  m_outputs m' = m_outputs m ∧
  (completed_have_results (m_steps m) →
   completed_have_results (m_steps m')) ∧
  (∀ so, r = Ok so → (step_id <$> m_steps m) !! i = Some so.1).
Proof.
  rewrite dispatch_eq.
  destruct (m_steps m !! i) as [step|] eqn:Hi.
  - simpl. destruct (datetime_now (m_world m)) as [t w1].
    destruct (run_fabric _ _ _ _ _ w1) as [o w2]. intros [= <- <-]. simpl.
    split_and!.
    + split_and!; simpl.
      * apply alter_ids. by intros [].
      * intros j Hj. apply list_lookup_alter_ne. set_solver.
      * eexists. split; [done|]. intros c ->%list_elem_of_singleton.
        simpl. left.
    + done.
    + apply alter_completed. by intros [].
    + intros so [= <-]. simpl. by rewrite list_lookup_fmap, Hi.
  - intros [= <- <-]. split_and!; [apply works_on_refl|done|done|done].
Qed.

Lemma run_directly_spec i config m r m' :
  run_directly i config m = (r, m') →
  works_on [i] m m' ∧
  m_outputs m' = m_outputs m ∧
  (completed_have_results (m_steps m) →
   completed_have_results (m_steps m')) ∧
  (∀ sr, r = Ok sr → (step_id <$> m_steps m) !! i = Some sr.1).
Proof.
  unfold run_directly, mbind, M_bind.
  destruct (dispatch i config m) as [[[sid o]|e] m1] eqn:Hd;
    apply dispatch_spec in Hd as (Hw & Ho & Hc & Hid).
  - specialize (Hid _ eq_refl). destruct o as [res|msg]; intros [= <- <-].
    + split_and!; [done..|]. by intros sr [= <-].
    + split_and!; done.
  - intros [= <- <-]. split_and!; done.
Qed.

(** *** Dictionaries in insertion order *)

Lemma dict_set_keys {V} (d : list (string * V)) k v x :
  x ∈ (dict_set d k v).*1 ↔ x = k ∨ x ∈ d.*1.
Proof.
  induction d as [|[k' v'] d IH]; simpl.
  - set_solver.
  - case_decide; subst; simpl; rewrite ?elem_of_cons, ?IH; naive_solver.
Qed.

Lemma dict_set_NoDup {V} (d : list (string * V)) k v :
  NoDup d.*1 → NoDup (dict_set d k v).*1.
Proof.
  induction d as [|[k' v'] d IH]; simpl; intros Hnd.
  - apply NoDup_singleton.
  - apply NoDup_cons in Hnd as [Hk Hnd]. case_decide; subst; simpl.
    + by apply NoDup_cons.
    + apply NoDup_cons. split; [|by apply IH].
      rewrite dict_set_keys. naive_solver.
Qed.

Lemma reorder_perm {A} (ps : list nat) : ∀ l : list A, reorder ps l ≡ₚ l.
Proof.
  induction ps as [|p ps IH]; intros l; simpl; [done|].
  destruct (l !! (p `mod` length l)) as [x|] eqn:Hx; [|done].
  rewrite IH. symmetry. by apply delete_Permutation.
Qed.

Lemma collect_keys_gen (completed : list (string * outcome)) : ∀ results,
  NoDup results.*1 →
  let out :=
    foldl (λ results '(sid, o),
             dict_set results sid
               match o with
               | Returned r => r
               | Raised msg => failed_result msg
               end) results completed in
  NoDup out.*1 ∧ ∀ x, x ∈ out.*1 ↔ x ∈ results.*1 ∨ x ∈ completed.*1.
Proof.
  induction completed as [|[sid o] completed IH]; intros results Hnd; simpl.
  - split; [done|]. set_solver.
  - destruct (IH (dict_set results sid
                    match o with Returned r => r
                               | Raised msg => failed_result msg end))
      as [Hnd' Hin]; [by apply dict_set_NoDup|].
    split; [done|]. intros x. rewrite Hin, dict_set_keys, elem_of_cons.
    naive_solver.
Qed.

Lemma collect_keys completed :
  NoDup (collect completed).*1 ∧
  ∀ x, x ∈ (collect completed).*1 ↔ x ∈ completed.*1.
Proof.
  destruct (collect_keys_gen completed [] (NoDup_nil_2)) as [Hnd Hin].
  split; [done|]. intros x. unfold collect. rewrite Hin. set_solver.
Qed.

(** *** Execution of one group *)

Lemma run_sequentially_spec steps config : ∀ results m r m',
  run_sequentially steps config results m = (r, m') →
  works_on steps m m' ∧
  (completed_have_results (m_steps m) →
   completed_have_results (m_steps m')) ∧
  (∀ out, r = Ok out →
     (NoDup results.*1 → NoDup out.*1) ∧
     ∀ x, x ∈ out.*1 ↔
          x ∈ results.*1 ∨
          ∃ j, j ∈ steps ∧ (step_id <$> m_steps m) !! j = Some x).
Proof.
  induction steps as [|i steps IH]; intros results m r m'; simpl.
  - intros [= <- <-]. split_and!; [apply works_on_refl|done|].
    intros out [= <-]. split; [done|]. set_solver.
  - unfold mbind, M_bind.
    destruct (run_directly i config m) as [[[sid res]|e] m1] eqn:Hd;
      apply run_directly_spec in Hd as (Hw & Ho & Hc & Hid).
    2:{ intros [= <- <-]. split_and!; [|done|done].
        eapply works_on_mono; [|done]. set_solver. }
    specialize (Hid _ eq_refl). simpl in Hid.
    set (m2 := if success res
               then mkMachine (m_steps m1) (<[sid := output res]> (m_outputs m1))
                      (m_world m1) (m_calls m1)
               else m1).
    assert (m_steps m2 = m_steps m1 ∧ m_calls m2 = m_calls m1) as [Hs2 Hc2]
      by (unfold m2; by destruct (success res)).
    assert ((if success res then set_output sid (output res) else mret ()) m1
            = (Ok (), m2)) as ->
      by (unfold m2, set_output; by destruct (success res)).
    intros Hrun. apply IH in Hrun as (Hw' & Hc' & Hout).
    assert (works_on [i] m m2) as Hw2.
    { destruct Hw as (? & ? & ?). split_and!; by rewrite ?Hs2, ?Hc2. }
    split_and!.
    + eapply works_on_trans.
      * eapply works_on_mono; [|exact Hw2]. set_solver.
      * eapply works_on_mono; [|exact Hw']. set_solver.
    + rewrite Hs2 in Hc'. auto.
    + intros out ->. destruct (Hout _ eq_refl) as [Hnd Hin].
      split; [intros ?; by apply Hnd, dict_set_NoDup|].
      intros x. rewrite Hin, dict_set_keys.
      destruct Hw2 as (Hids & _). rewrite Hids.
      split.
      * intros [[->|?]|(j & ? & ?)]; [right; exists i|by left|right; exists j];
          set_solver.
      * intros [?|(j & [->|?]%elem_of_cons & Hj)]; [by auto| |by eauto].
        left. left. congruence.
Qed.

Lemma submit_all_spec steps config : ∀ m r m',
  submit_all steps config m = (r, m') →
  works_on steps m m' ∧
  (completed_have_results (m_steps m) →
   completed_have_results (m_steps m')) ∧
  (∀ sos, r = Ok sos →
     ∀ x, x ∈ sos.*1 ↔
          ∃ j, j ∈ steps ∧ (step_id <$> m_steps m) !! j = Some x).
Proof.
  induction steps as [|i steps IH]; intros m r m'; simpl.
  - intros [= <- <-]. split_and!; [apply works_on_refl|done|].
    intros sos [= <-]. set_solver.
  - unfold mbind, M_bind.
    destruct (dispatch i config m) as [[so|e] m1] eqn:Hd;
      apply dispatch_spec in Hd as (Hw & Ho & Hc & Hid).
    2:{ intros [= <- <-]. split_and!; [|done|done].
        eapply works_on_mono; [|done]. set_solver. }
    specialize (Hid _ eq_refl).
    destruct (submit_all steps config m1) as [[sos|e] m2] eqn:Hs;
      apply IH in Hs as (Hw' & Hc' & Hout); intros [= <- <-].
    + split_and!.
      * eapply works_on_trans.
        -- eapply works_on_mono; [|exact Hw]. set_solver.
        -- eapply works_on_mono; [|exact Hw']. set_solver.
      * auto.
      * intros ? [= <-] x. simpl. rewrite elem_of_cons, (Hout _ eq_refl).
        destruct Hw as (Hids & _). rewrite Hids. split.
        -- intros [->|(j & ? & ?)]; [exists i|exists j]; set_solver.
        -- intros (j & [->|?]%elem_of_cons & Hj); [left; congruence|eauto].
    + split_and!; [|auto|done].
      eapply works_on_trans.
      * eapply works_on_mono; [|exact Hw]. set_solver.
      * eapply works_on_mono; [|exact Hw']. set_solver.
Qed.

Lemma execute_step_group_spec steps config m r m' :
  _execute_step_group steps config m = (r, m') →
  works_on steps m m' ∧
  (completed_have_results (m_steps m) →
   completed_have_results (m_steps m')) ∧
  (∀ out, r = Ok out →
     NoDup out.*1 ∧
     ∀ x, x ∈ out.*1 ↔
          ∃ j, j ∈ steps ∧ (step_id <$> m_steps m) !! j = Some x).
Proof.
  assert (∀ l, run_sequentially l config [] m = (r, m') →
    works_on l m m' ∧
    (completed_have_results (m_steps m) →
     completed_have_results (m_steps m')) ∧
    (∀ out, r = Ok out →
       NoDup out.*1 ∧
       ∀ x, x ∈ out.*1 ↔
            ∃ j, j ∈ l ∧ (step_id <$> m_steps m) !! j = Some x)) as Hseq.
  { intros l (Hw & Hc & Hout)%run_sequentially_spec. split_and!; [done..|].
    intros out ->. destruct (Hout _ eq_refl) as [Hnd Hin].
    split; [apply Hnd, NoDup_nil_2|]. intros x. rewrite Hin. set_solver. }
  assert (∀ l, run_in_pool l config m = (r, m') →
    works_on l m m' ∧
    (completed_have_results (m_steps m) →
     completed_have_results (m_steps m')) ∧
    (∀ out, r = Ok out →
       NoDup out.*1 ∧
       ∀ x, x ∈ out.*1 ↔
            ∃ j, j ∈ l ∧ (step_id <$> m_steps m) !! j = Some x)) as Hpar.
  { intros l. unfold run_in_pool, mbind, M_bind, picks, mret, M_ret.
    destruct (submit_all l config m) as [[sos|e] m1] eqn:Hs;
      apply submit_all_spec in Hs as (Hw & Hc & Hout); intros [= <- <-];
      split_and!; try done.
    intros out [= <-].
    destruct (collect_keys (reorder (completion_picks (m_world m1)) sos))
      as [Hnd Hin].
    split; [done|]. intros x. rewrite Hin, <- (Hout _ eq_refl).
    by rewrite reorder_perm. }
  unfold _execute_step_group.
  destruct steps as [|i [|i2 steps]].
  - destruct (_ && _); auto.
  - unfold mbind, M_bind, mret, M_ret.
    destruct (run_directly i config m) as [[[sid res]|e] m1] eqn:Hd;
      apply run_directly_spec in Hd as (Hw & Ho & Hc & Hid);
      intros [= <- <-]; split_and!; try done.
    intros out [= <-]. specialize (Hid _ eq_refl). simpl in *.
    split; [apply NoDup_singleton|]. intros x.
    rewrite list_elem_of_singleton. split.
    + intros ->. exists i. split; [left|done].
    + intros (j & ->%list_elem_of_singleton & Hj). congruence.
  - destruct (_ && _); auto.
Qed.

(** *** Application of the results of a group *)

Lemma get_step_id steps x k :
  get_step steps x = Some k → (step_id <$> steps) !! k = Some x.
Proof.
  intros (s & Hs & <- & _)%get_step_Some. by rewrite list_lookup_fmap, Hs.
Qed.

Lemma get_step_NoDup steps x j :
  NoDup (step_id <$> steps) → (step_id <$> steps) !! j = Some x →
  get_step steps x = Some j.
Proof.
  intros Hnd Hj. apply get_step_Some.
  rewrite list_lookup_fmap in Hj.
  destruct (steps !! j) as [s|] eqn:Hs; simplify_eq/=.
  exists s. split_and!; [done..|]. intros k t Ht Hlt Heq.
  assert (k = j); [|lia].
  eapply NoDup_lookup; [done| |]; rewrite list_lookup_fmap.
  - by rewrite Ht.
  - by rewrite Hs, Heq.
Qed.

Lemma apply_result_spec sid res config m r m' :
  apply_result sid res config m = (r, m') →
  step_id <$> m_steps m' = step_id <$> m_steps m ∧
  m_calls m' = m_calls m ∧
  (completed_have_results (m_steps m) →
   completed_have_results (m_steps m')) ∧
  (∀ j, get_step (m_steps m) sid ≠ Some j →
        m_steps m' !! j = m_steps m !! j) ∧
  (∀ k, get_step (m_steps m) sid = Some k →
        ∃ s', m_steps m' !! k = Some s' ∧ step_result s' = Some res ∧
              step_status s' = if success res then COMPLETED else FAILED) ∧
  (∀ k, get_step (m_steps m) sid = Some k →
        continue_on_error config = false →
        if success res then r = Ok ()
        else r = Raise (step_failed_error sid res)) ∧
  (∀ e, r = Raise e → is_Some (get_step (m_steps m) sid)).
Proof.
  rewrite apply_result_eq.
  destruct (get_step (m_steps m) sid) as [k|] eqn:Hk.
  2:{ intros [= <- <-]. by split_and!. }
  apply get_step_Some in Hk as (s & Hs & _).
  destruct (datetime_now (m_world m)) as [t w1].
  destruct (success res) eqn:Hsucc; intros [= <- <-]; simpl.
  - split_and!; try done.
    + apply alter_ids. by intros [].
    + apply alter_completed. intros []; simpl; eauto.
    + intros j Hj. apply list_lookup_alter_ne. congruence.
    + intros ? [= <-]. rewrite list_lookup_alter_eq, Hs. simpl. eauto.
  - split_and!; try done.
    + apply alter_ids. by intros [].
    + apply alter_completed. by intros [].
    + intros j Hj. apply list_lookup_alter_ne. congruence.
    + intros ? [= <-]. rewrite list_lookup_alter_eq, Hs. simpl. eauto.
    + intros ? _ ->. done.
Qed.

Lemma apply_results_spec results config : ∀ m r m',
  apply_results results config m = (r, m') →
  step_id <$> m_steps m' = step_id <$> m_steps m ∧
  m_calls m' = m_calls m ∧
  (completed_have_results (m_steps m) →
   completed_have_results (m_steps m')) ∧
  (∀ j, (∀ x, x ∈ results.*1 → get_step (m_steps m) x ≠ Some j) →
        m_steps m' !! j = m_steps m !! j).
Proof.
  induction results as [|[sid res] results IH]; intros m r m'; simpl.
  - by intros [= <- <-].
  - unfold mbind, M_bind.
    destruct (apply_result sid res config m) as [[[]|e] m1] eqn:Ha;
      apply apply_result_spec in Ha as (Hid & Hc & Hinv & Hfr & _).
    + intros (Hid' & Hc' & Hinv' & Hfr')%IH. split_and!.
      * by rewrite Hid'.
      * by rewrite Hc'.
      * auto.
      * intros j Hj. rewrite Hfr', Hfr; [done|apply Hj; left|].
        intros x Hx. rewrite (get_step_ids _ (m_steps m)) by done.
        apply Hj. by right.
    + intros [= <- <-]. split_and!; [done..|].
      intros j Hj. apply Hfr, Hj. left.
Qed.

Lemma apply_results_ok results config : ∀ m m',
  NoDup results.*1 → continue_on_error config = false →
  apply_results results config m = (Ok (), m') →
  ∀ x k, x ∈ results.*1 → get_step (m_steps m) x = Some k →
    ∃ s' res, m_steps m' !! k = Some s' ∧ step_status s' = COMPLETED ∧
              step_result s' = Some res.
Proof.
  induction results as [|[sid res] results IH]; intros m m' Hnd Hcont; simpl.
  - intros _ x k []%elem_of_nil.
  - apply NoDup_cons in Hnd as [Hsid Hnd]. unfold mbind, M_bind.
    destruct (apply_result sid res config m) as [[[]|e] m1] eqn:Ha; [|done].
    apply apply_result_spec in Ha as (Hid & _ & _ & _ & Hat & Hres & _).
    intros Hrest x k [->|Hx]%elem_of_cons Hk.
    + destruct (Hat k Hk) as (s' & Hs' & Hr & Hst).
      specialize (Hres k Hk Hcont). destruct (success res); [|done].
      apply apply_results_spec in Hrest as (_ & _ & _ & Hfr).
      exists s', res. rewrite Hfr; [done|].
      intros y Hy Hyk. rewrite (get_step_ids _ (m_steps m)) in Hyk by done.
      apply get_step_id in Hyk, Hk. simpl in *.
      assert (y = sid) as -> by congruence. done.
    + eapply IH; [done..|]. by rewrite (get_step_ids _ (m_steps m)).
Qed.

(** *** The loop over the groups *)

Lemma run_groups_completed groups config : ∀ m r m',
  run_groups groups config m = (r, m') →
  completed_have_results (m_steps m) → completed_have_results (m_steps m').
Proof.
  induction groups as [|g groups IH]; intros m r m'; simpl.
  - by intros [= <- <-].
  - unfold mbind, M_bind.
    destruct (_execute_step_group g config m) as [[results|e] m1] eqn:He;
      apply execute_step_group_spec in He as (_ & Hinv & _).
    2:{ by intros [= <- <-]. }
    destruct (apply_results results config m1) as [[[]|e] m2] eqn:Ha;
      apply apply_results_spec in Ha as (_ & _ & Hinv' & _).
    + intros Hrun Hm. eapply IH; [exact Hrun|]. apply Hinv', Hinv, Hm.
    + intros [= <- <-] Hm. apply Hinv', Hinv, Hm.
Qed.

(** With unique step ids, a group only works on its own steps. *)
Lemma group_works_on g config m r1 m1 r2 m2 :
  NoDup (step_id <$> m_steps m) →
  _execute_step_group g config m = (Ok r1, m1) →
  apply_results r1 config m1 = (r2, m2) →
  works_on g m m2.
Proof.
  intros Hnd (Hw & _ & Hout)%execute_step_group_spec
    (Hid & Hc & _ & Hfr)%apply_results_spec.
  destruct (Hout _ eq_refl) as [_ Hkeys].
  eapply works_on_trans; [done|].
  split_and!; [done| |].
  - intros j Hj. apply Hfr. intros x (j' & Hj' & Hx)%Hkeys Hget.
    destruct Hw as (Hids & _).
    rewrite (get_step_ids _ (m_steps m)) in Hget by done.
    rewrite (get_step_NoDup _ _ _ Hnd Hx) in Hget. congruence.
  - exists []. rewrite app_nil_r. split; [done|]. by intros c ?%elem_of_nil.
Qed.

Lemma run_groups_works_on groups config : ∀ m r m',
  NoDup (step_id <$> m_steps m) →
  run_groups groups config m = (r, m') →
  works_on (concat groups) m m'.
Proof.
  induction groups as [|g groups IH]; intros m r m' Hnd; simpl.
  - intros [= <- <-]. apply works_on_refl.
  - unfold mbind, M_bind.
    destruct (_execute_step_group g config m) as [[results|e] m1] eqn:He.
    2:{ apply execute_step_group_spec in He as (Hw & _).
        intros [= <- <-]. eapply works_on_mono; [|done]. set_solver. }
    destruct (apply_results results config m1) as [r2 m2] eqn:Ha.
    pose proof (group_works_on _ _ _ _ _ _ _ Hnd He Ha) as Hw.
    assert (works_on (g ++ concat groups) m m2) as Hw2
      by (eapply works_on_mono; [|done]; set_solver).
    destruct r2 as [[]|e]; [|by intros [= <- <-]].
    intros Hrun. eapply works_on_trans; [done|].
    eapply works_on_mono; [|eapply IH; [|done]]; [set_solver|].
    destruct Hw as (-> & _). done.
Qed.

Lemma run_groups_ok groups config : ∀ m m',
  NoDup (step_id <$> m_steps m) → NoDup (concat groups) →
  (∀ i, i ∈ concat groups → i < length (m_steps m)) →
  continue_on_error config = false →
  run_groups groups config m = (Ok (), m') →
  ∀ i, i ∈ concat groups →
    ∃ s' res, m_steps m' !! i = Some s' ∧ step_status s' = COMPLETED ∧
              step_result s' = Some res.
Proof.
  induction groups as [|g groups IH]; intros m m' Hnd Hdis Hval Hcont; simpl.
  - by intros _ i ?%elem_of_nil.
  - simpl in Hdis. apply NoDup_app in Hdis as (Hg & Hdisj & Hrest).
    unfold mbind, M_bind.
    destruct (_execute_step_group g config m) as [[results|e] m1] eqn:He;
      [|done].
    destruct (apply_results results config m1) as [[[]|e] m2] eqn:Ha; [|done].
    pose proof (group_works_on _ _ _ _ _ _ _ Hnd He Ha) as (Hids & _).
    apply execute_step_group_spec in He as ((Hids1 & _) & _ & Hout).
    destruct (Hout _ eq_refl) as [Hndk Hkeys].
    intros Hrun i [Hi|Hi]%elem_of_app.
    + assert (is_Some ((step_id <$> m_steps m) !! i)) as [x Hx].
      { apply lookup_lt_is_Some. rewrite length_fmap. apply Hval.
        simpl. set_solver. }
      destruct (apply_results_ok _ _ _ _ Hndk Hcont Ha x i)
        as (s' & res & Hs' & Hst & Hres).
      { apply Hkeys. eauto. }
      { rewrite (get_step_ids _ (m_steps m)) by done.
        by apply get_step_NoDup. }
      apply run_groups_works_on in Hrun as (_ & Hfr & _);
        [|by rewrite Hids].
      exists s', res. rewrite Hfr; [done|]. intros ?. by eapply Hdisj.
    + eapply IH; [| | |done|done|done].
      * by rewrite Hids.
      * done.
      * intros j Hj. rewrite <- (length_fmap step_id), Hids, length_fmap.
        apply Hval. simpl. set_solver.
Qed.

Lemma run_groups_raise groups config : ∀ m e m',
  NoDup (step_id <$> m_steps m) →
  run_groups groups config m = (Raise e, m') →
  ∃ pre g post m1,
    groups = pre ++ g :: post ∧
    run_groups pre config m = (Ok (), m1) ∧
    works_on g m1 m'.
Proof.
  induction groups as [|g groups IH]; intros m e m' Hnd; simpl; [done|].
  unfold mbind, M_bind.
  destruct (_execute_step_group g config m) as [[results|e1] m1] eqn:He.
  2:{ intros [= <- <-]. exists [], g, groups, m. split_and!; [done..|].
      by apply execute_step_group_spec in He as (? & _). }
  destruct (apply_results results config m1) as [r2 m2] eqn:Ha.
  pose proof (group_works_on _ _ _ _ _ _ _ Hnd He Ha) as Hw.
  destruct r2 as [[]|e2].
  - intros Hrun. apply IH in Hrun as (pre & g' & post & m3 & -> & Hpre & Hw');
      [|by destruct Hw as (-> & _)].
    exists (g :: pre), g', post, m3. split_and!; [done| |done].
    simpl. unfold mbind, M_bind. by rewrite He, Ha.
  - intros [= <- <-]. exists [], g, groups, m. by split_and!.
Qed.

(** *** The returned dictionary *)

Lemma scan_final_output_spec reversed :
  completed_have_results reversed →
  scan_final_output reversed =
  '(_, step) ← list_find (λ s, step_status s = COMPLETED) reversed;
  output <$> step_result step.
Proof.
  induction reversed as [|s l IH]; intros Hinv; [done|].
  assert (completed_have_results l) as Hl
    by (intros t Ht; apply Hinv; by right).
  cbn [scan_final_output list_find]. rewrite IH by done.
  destruct (step_result s) as [r|] eqn:Hr;
    destruct (decide (step_status s = COMPLETED)) as [Hs|Hs]; simpl.
  - by rewrite Hr.
  - by destruct (list_find _ l) as [[??]|].
  - destruct (Hinv s) as [r Hr']; [left|done|]. congruence.
  - by destruct (list_find _ l) as [[??]|].
Qed.

Lemma final_output_spec steps :
  completed_have_results steps →
  final_output_of steps = last_completed_output steps.
Proof.
  intros Hinv. unfold final_output_of, last_completed_output.
  apply scan_final_output_spec. intros s Hs. apply Hinv.
  by rewrite elem_of_reverse in Hs.
Qed.

Lemma pending_have_results steps :
  completed_have_results (set_status PENDING <$> steps).
Proof. by intros s (s0 & -> & _)%list_elem_of_fmap. Qed.

Lemma step_results_of_gen steps : ∀ (d : gmap string (option RunResult)) x,
  foldl (λ d s, <[step_id s := step_result s]> d) d steps !! x =
  match list_find (λ s, step_id s = x) (reverse steps) with
  | Some (_, s) => Some (step_result s)
  | None => d !! x
  end.
Proof.
  induction steps as [|s steps IH]; intros d x; simpl; [done|].
  rewrite IH, reverse_cons.
  destruct (list_find _ (reverse steps)) as [[i t]|] eqn:Hf.
  - by erewrite list_find_app_l.
  - rewrite list_find_app_r by done. simpl.
    case_decide; subst; simpl.
    + by rewrite lookup_insert_eq.
    + by rewrite lookup_insert_ne.
Qed.

(** With unique ids, the returned [step_results] has, for every step,
    an entry with the result of that step. *)
Lemma step_results_of_lookup steps i s :
  NoDup (step_id <$> steps) → steps !! i = Some s →
  step_results_of steps !! step_id s = Some (step_result s).
Proof.
  intros Hnd Hs. unfold step_results_of. rewrite step_results_of_gen.
  destruct (list_find _ (reverse steps)) as [[j t]|] eqn:Hf.
  - apply list_find_Some in Hf as (Ht & Hid & _).
    apply list_elem_of_lookup_2 in Ht. rewrite elem_of_reverse in Ht.
    apply list_elem_of_lookup_1 in Ht as [k Hk].
    assert (k = i); [|by simplify_eq].
    eapply NoDup_lookup; [done| |]; rewrite list_lookup_fmap.
    + by rewrite Hk.
    + by rewrite Hs, Hid.
  - apply list_find_None in Hf. rewrite Forall_forall in Hf.
    exfalso. apply (Hf s); [|done].
    apply elem_of_reverse. by eapply list_elem_of_lookup_2.
Qed.

(** [execute_workflow] after a successful planning. *)
Lemma execute_workflow_planned workflow input_text w groups steps0 :
  _plan_execution_groups (wf_steps workflow) = Some (Ok groups, steps0) →
  execute_workflow workflow input_text w =
  let (start, w1) := datetime_now w in
  let '(body, m) :=
    run_groups groups (wf_config workflow)
      (mkMachine steps0 {["_initial" := input_text]} w1 []) in
  let (finish, w2) := datetime_now (m_world m) in
  Some
    (mkExecutionResult (wf_id workflow)
       (match body with Ok _ => true | Raise _ => false end)
       (match body with
        | Ok _ => final_output_of (m_steps m)
        | Raise _ => None
        end)
       (match body with Ok _ => None | Raise e => Some e end)
       (step_results_of (m_steps m))
       (finish - start)%Z
       (length (m_steps m))
       (count_status COMPLETED (m_steps m))
       (count_status FAILED (m_steps m)),
     mkWorkflow (wf_id workflow) (wf_name workflow) (m_steps m)
       (wf_config workflow)
       (match body with Ok _ => COMPLETED | Raise _ => FAILED end)
       (Some start) (Some finish) (wf_current_step workflow),
     w2, m_calls m).
Proof.
  intros Hplan. unfold execute_workflow.
  destruct (datetime_now w) as [start w1]. rewrite Hplan. simpl.
  by destruct (run_groups _ _ _) as [body m].
Qed.

(** [execute_workflow] after a failed planning: nothing is dispatched. *)
Lemma execute_workflow_unplanned workflow input_text w e steps0 :
  _plan_execution_groups (wf_steps workflow) = Some (Raise e, steps0) →
  ∃ res workflow' w',
    execute_workflow workflow input_text w = Some (res, workflow', w', []) ∧
    r_success res = false ∧ r_final_output res = None ∧
    r_error res = Some e ∧ wf_status workflow' = FAILED.
Proof.
  intros Hplan. unfold execute_workflow.
  destruct (datetime_now w) as [start w1]. rewrite Hplan. simpl.
  destruct (datetime_now w1) as [finish w2]. by eexists _, _, _.
Qed.
End EngineProperties.

(** ** C2: a cyclic workflow *)

Lemma completed_cycle_has_cycle : has_cycle completed_cycle.
Proof.
  exists 0. eapply tc_l; [|apply tc_once].
  - exists (set_status COMPLETED (new_step "a" "pattern_a" None ["b"])), "b".
    split_and!; [done|set_solver|done].
  - exists (set_status COMPLETED (new_step "b" "pattern_b" None ["a"])), "a".
    split_and!; [done|set_solver|done].
Qed.

Lemma cycle_after_completed_live : has_live_cycle cycle_after_completed.
Proof.
  exists 1. apply (tc_l _ 1 2 1); [|apply tc_once].
  - split; [|by vm_compute].
    exists (new_step "b" "pattern_b" None ["a"; "c"]), "c".
    split_and!; [done|set_solver|done].
  - split; [|by vm_compute].
    exists (new_step "c" "pattern_c" None ["b"]), "b".
    split_and!; [done|set_solver|done].
Qed.

(** C2.  When the dependency graph has a cycle none of whose steps is
    [COMPLETED] at the start of the run, [execute_workflow] returns a failed
    result with the cycle error, without a final output, marks the workflow
    [FAILED], and never calls the executor; the other steps may have any
    status. *)
Theorem cyclic_workflow_fails_before_dispatch `{env : Environment}
    workflow input_text (w : World) :
  has_live_cycle (wf_steps workflow) →
  ∃ res workflow' w',
    execute_workflow workflow input_text w = Some (res, workflow', w', []) ∧
    r_success res = false ∧ r_final_output res = None ∧
    r_error res = Some cycle_error ∧ wf_status workflow' = FAILED.
Proof.
  intros Hcyc.
  destruct (plan_live_cycle_raises _ Hcyc) as [st' Hplan].
  by eapply execute_workflow_unplanned.
Qed.

Lemma cyclic_workflow_fails_before_dispatch_witness :
  has_live_cycle cycle_after_completed ∧
  status_at cycle_after_completed 0 = Some COMPLETED ∧
  ∃ res workflow' w',
    @execute_workflow sample_env (sample_workflow cycle_after_completed) "in" 0%Z
    = Some (res, workflow', w', []) ∧
    r_success res = false ∧ r_final_output res = None ∧
    r_error res = Some cycle_error ∧ wf_status workflow' = FAILED.
Proof.
  split; [apply cycle_after_completed_live|]. split; [reflexivity|].
  apply (@cyclic_workflow_fails_before_dispatch sample_env
           (sample_workflow cycle_after_completed) "in" 0%Z),
    cycle_after_completed_live.
Defined.

(** C2 as stated fails: two steps that depend on each other and are both
    [COMPLETED] are planned into one group, and the executor is called for
    both. *)
Lemma completed_cycle_is_dispatched :
  has_cycle completed_cycle ∧
  match @execute_workflow sample_env (sample_workflow completed_cycle)
          "in" 0%Z with
  | Some (res, workflow', _, calls) =>
      r_success res = true ∧ r_error res = None ∧
      call_step <$> calls = [0; 1] ∧ wf_status workflow' = COMPLETED
  | None => False
  end.
Proof. split; [apply completed_cycle_has_cycle|by vm_compute]. Qed.

(** ** C10: a dependency that names no step *)

Lemma dangling_step_dangling : dangling dangling_step.
Proof.
  exists 0, (new_step "step_1" "pattern_a" None ["nonexistent"]), "nonexistent".
  split_and!; [done|set_solver|done].
Qed.

(** C10.  For a workflow with a step one of whose [depends_on] ids names no
    step, that step is never ready, whatever the statuses of the steps are;
    [execute_workflow] returns, planning having raised the same error as
    for a cycle: no call of the step executor is made, the workflow is
    [FAILED] and the result has [success = False]. *)
Theorem dangling_dependency_fails_before_dispatch `{env : Environment}
    workflow input_text (w : World) :
  dangling (wf_steps workflow) →
  (∃ i s d,
     wf_steps workflow !! i = Some s ∧ d ∈ step_depends_on s ∧
     get_step (wf_steps workflow) d = None ∧
     ∀ steps,
       step_id <$> steps = step_id <$> wf_steps workflow →
       step_depends_on <$> steps = step_depends_on <$> wf_steps workflow →
       is_ready steps i = false) ∧
  ∃ res workflow' w',
    execute_workflow workflow input_text w = Some (res, workflow', w', []) ∧
    r_success res = false ∧ r_final_output res = None ∧
    r_error res = Some cycle_error ∧ wf_status workflow' = FAILED.
Proof.
  intros Hd. split.
  - destruct Hd as (i & s & d & Hs & Hin & Hnone).
    exists i, s, d. split_and!; [done..|].
    intros steps Hids Hdeps. apply not_true_is_false. intros Hr.
    apply Is_true_true_2 in Hr.
    assert (step_depends_on <$> steps !! i = Some (step_depends_on s)) as Hi.
    { by rewrite <- list_lookup_fmap, Hdeps, list_lookup_fmap, Hs. }
    destruct (steps !! i) as [s'|] eqn:Hs'; simplify_eq/=.
    eapply dangling_never_ready; [done| |by rewrite (get_step_ids _ _ _ Hids)|done].
    congruence.
  - destruct (plan_dangling_raises _ Hd) as [st' Hplan].
    by eapply execute_workflow_unplanned.
Qed.

Lemma dangling_dependency_fails_before_dispatch_witness :
  dangling dangling_step ∧
  (∃ i s d,
     dangling_step !! i = Some s ∧ d ∈ step_depends_on s ∧
     get_step dangling_step d = None ∧
     ∀ steps,
       step_id <$> steps = step_id <$> dangling_step →
       step_depends_on <$> steps = step_depends_on <$> dangling_step →
       is_ready steps i = false) ∧
  ∃ res workflow' w',
    @execute_workflow sample_env (sample_workflow dangling_step) "in" 0%Z
      = Some (res, workflow', w', []) ∧
    r_success res = false ∧ r_final_output res = None ∧
    r_error res = Some cycle_error ∧ wf_status workflow' = FAILED.
Proof.
  split; [apply dangling_step_dangling|].
  apply (@dangling_dependency_fails_before_dispatch sample_env
           (sample_workflow dangling_step) "in" 0%Z).
  apply dangling_step_dangling.
Defined.

(** ** C3: the final output *)

(** C3 (amended).  [execute_workflow] returns.  When all groups have
    finished, the reported final output is the output of the first
    [COMPLETED] step met from the last step to the first, and [None] when
    there is none; when the run was aborted, the reported final output is
    [None]. *)
Theorem final_output_of_a_run `{env : Environment}
    workflow input_text (w : World) :
  ∃ res workflow' w' calls,
    execute_workflow workflow input_text w = Some (res, workflow', w', calls) ∧
    (r_success res = true →
     r_final_output res = last_completed_output (wf_steps workflow')) ∧
    (r_success res = false → r_final_output res = None).
Proof.
  destruct (plan_total (wf_steps workflow)) as (r & st' & Hplan & Hr).
  destruct Hr as [->|(gs & -> & ->)].
  - destruct (execute_workflow_unplanned workflow input_text w _ _ Hplan)
      as (res & wf' & w' & -> & Hs & Hf & _).
    exists res, wf', w', []. split_and!; [done| |done]. by rewrite Hs.
  - rewrite (execute_workflow_planned _ _ _ _ _ Hplan).
    destruct (datetime_now w) as [start w1].
    destruct (run_groups _ _ _) as [body m] eqn:Hrun.
    destruct (datetime_now (m_world m)) as [finish w2].
    eexists _, _, _, _. split; [done|]. simpl.
    eapply run_groups_completed in Hrun; [|apply pending_have_results].
    destruct body; split; try done.
    intros _. by apply final_output_spec.
Qed.

(** C3 as stated fails: when the second step of a chain fails, the first
    step is [COMPLETED] and has an output, and the reported final output is
    [None]. *)
Lemma aborted_run_reports_no_output :
  match @execute_workflow sample_env (sample_workflow failing_tail)
          "in" 0%Z with
  | Some (res, workflow', _, _) =>
      r_success res = false ∧
      step_status <$> wf_steps workflow' = [COMPLETED; FAILED] ∧
      last_completed_output (wf_steps workflow') = Some "pattern_a(in)" ∧
      r_final_output res = None
  | None => False
  end.
Proof. by vm_compute. Qed.


(** ** C4: a failing step without [continue_on_error] *)

Lemma reset_ids (steps : list WorkflowStep) :
  step_id <$> (set_status PENDING <$> steps) = step_id <$> steps.
Proof. rewrite <- list_fmap_compose. by apply list_fmap_ext. Qed.

(** C4 (amended).  For a workflow with unique step ids that is planned into
    groups and executed with [continue_on_error = False], if some step [f]
    ends [FAILED], the run is aborted in the group [g] of [f]: the step
    executor is called for steps of [g] and of earlier groups only; every
    step of a later group is [PENDING], its other fields, its result among
    them, being as before the run; every step of an earlier group is
    [COMPLETED] with a result; and the returned [step_results] has an entry
    for every step, which is the result of that step when it has one and
    [None] when it has none. *)
Theorem abort_keeps_later_groups_pending `{env : Environment}
    workflow input_text (w : World) res workflow' w' calls groups steps0 f :
  NoDup (step_id <$> wf_steps workflow) →
  continue_on_error (wf_config workflow) = false →
  _plan_execution_groups (wf_steps workflow) = Some (Ok groups, steps0) →
  execute_workflow workflow input_text w = Some (res, workflow', w', calls) →
  status_at (wf_steps workflow') f = Some FAILED →
  r_success res = false ∧
  ∃ pre g post,
    groups = pre ++ g :: post ∧ f ∈ g ∧
    (∀ c, c ∈ calls → call_step c ∈ concat pre ++ g) ∧
    (∀ i s, i ∈ concat post → wf_steps workflow !! i = Some s →
       wf_steps workflow' !! i = Some (set_status PENDING s) ∧
       r_step_results res !! step_id s = Some (step_result s)) ∧
    (∀ i, i ∈ concat pre →
       ∃ s' r, wf_steps workflow' !! i = Some s' ∧
               step_status s' = COMPLETED ∧ step_result s' = Some r ∧
               r_step_results res !! step_id s' = Some (Some r)) ∧
    (∀ i s', wf_steps workflow' !! i = Some s' →
       r_step_results res !! step_id s' = Some (step_result s')).
Proof.
  intros Hnd Hcont Hplan Hexec Hfail.
  pose proof (plan_ok_reset _ _ _ Hplan) as ->.
  pose proof (plan_groups_perm _ _ _ Hplan) as Hperm.
  rewrite (execute_workflow_planned _ _ _ _ _ Hplan) in Hexec.
  destruct (datetime_now w) as [start w1].
  set (m0 := mkMachine (set_status PENDING <$> wf_steps workflow)
               {["_initial" := input_text]} w1 []) in Hexec.
  destruct (run_groups groups (wf_config workflow) m0) as [body m] eqn:Hrun.
  destruct (datetime_now (m_world m)) as [finish w2].
  injection Hexec as <- <- <- <-. simpl in *.
  assert (m_steps m0 = set_status PENDING <$> wf_steps workflow) as Hm0
    by done.
  assert (m_calls m0 = []) as Hc0 by done.
  clearbody m0.
  assert (NoDup (step_id <$> m_steps m0)) as Hnd0
    by by rewrite Hm0, reset_ids.
  assert (NoDup (concat groups)) as Hndg by (rewrite Hperm; apply NoDup_seq).
  assert (∀ i, i ∈ concat groups ↔ i < length (m_steps m0)) as Hval.
  { intros i. rewrite Hperm, elem_of_seq, Hm0, length_fmap. lia. }
  pose proof (run_groups_works_on _ _ _ _ _ Hnd0 Hrun) as (Hids & _ & _).
  assert (NoDup (step_id <$> m_steps m)) as Hndm by by rewrite Hids.
  assert (∀ i s', m_steps m !! i = Some s' →
            step_results_of (m_steps m) !! step_id s' = Some (step_result s'))
    as Hres by (intros i s'; by apply step_results_of_lookup).
  assert (f ∈ concat groups) as Hf.
  { apply Hval. rewrite <- (length_fmap step_id), <- Hids, length_fmap.
    unfold status_at in Hfail.
    destruct (m_steps m !! f) eqn:E; [|done]. by eapply lookup_lt_Some. }
  destruct body as [[]|e].
  { exfalso.
    destruct (run_groups_ok groups (wf_config workflow) m0 m Hnd0 Hndg
                (λ i Hi, proj1 (Hval i) Hi) Hcont Hrun f Hf)
      as (s' & r & Hs' & Hst & _).
    unfold status_at in Hfail. rewrite Hs' in Hfail. simpl in Hfail.
    congruence. }
  split; [done|].
  apply run_groups_raise in Hrun as (pre & g & post & m1 & -> & Hpre & Hw);
    [|done].
  rewrite concat_app in Hndg, Hf. simpl in Hndg, Hf.
  apply NoDup_app in Hndg as (Hndpre & Hdis1 & Hndg).
  apply NoDup_app in Hndg as (_ & Hdis2 & _).
  pose proof (run_groups_works_on _ _ _ _ _ Hnd0 Hpre) as Hwpre.
  assert (∀ i, i ∈ concat pre →
            ∃ s' r, m_steps m !! i = Some s' ∧
                    step_status s' = COMPLETED ∧ step_result s' = Some r)
    as Hdone.
  { intros i Hi.
    assert (∀ j, j ∈ concat pre → j < length (m_steps m0)) as Hvalpre.
    { intros j Hj. apply Hval. rewrite concat_app. set_solver. }
    destruct (run_groups_ok pre (wf_config workflow) m0 m1 Hnd0 Hndpre
                Hvalpre Hcont Hpre i Hi)
      as (s' & r & Hs' & Hst & Hr).
    exists s', r. split_and!; [|done..].
    destruct Hw as (_ & Hfr & _). rewrite Hfr; [done|].
    intros Hig. eapply Hdis1; [done|]. set_solver. }
  assert (∀ i, i ∈ concat post → m_steps m !! i = m_steps m0 !! i) as Hlater.
  { intros i Hi.
    destruct Hw as (_ & Hfr & _), Hwpre as (_ & Hfr' & _).
    rewrite Hfr, Hfr'; [done| |].
    - intros Hip. eapply Hdis1; [done|]. set_solver.
    - intros Hig. eapply Hdis2; [done|]. set_solver. }
  exists pre, g, post. split_and!; [done| | | | |done].
  - apply elem_of_app in Hf as [Hf|[Hf|Hf]%elem_of_app]; [|done|].
    + destruct (Hdone f Hf) as (s' & r & Hs' & Hst & _).
      unfold status_at in Hfail. rewrite Hs' in Hfail. simpl in Hfail.
      congruence.
    + unfold status_at in Hfail. rewrite (Hlater f Hf), Hm0 in Hfail.
      rewrite list_lookup_fmap in Hfail.
      by destruct (wf_steps workflow !! f).
  - assert (works_on (concat pre ++ g) m0 m) as (_ & _ & new & Hc & Hnew).
    { eapply works_on_trans; (eapply works_on_mono; [|done]); set_solver. }
    intros c Hc'. apply Hnew. by rewrite Hc, Hc0 in Hc'.
  - intros i s Hi Hs.
    assert (m_steps m !! i = Some (set_status PENDING s)) as Hm.
    { by rewrite (Hlater i Hi), Hm0, list_lookup_fmap, Hs. }
    split; [done|]. by apply Hres in Hm.
  - intros i Hi. destruct (Hdone i Hi) as (s' & r & Hs' & Hst & Hr).
    exists s', r. split_and!; [done..|].
    apply Hres in Hs'. by rewrite Hs', Hr.
Qed.

(** The first step of [failing_head] fails: its group is the first of the
    two, so that the later groups are the group of the second step. *)
Lemma abort_keeps_later_groups_pending_witness :
  ∃ res workflow' w' calls,
    NoDup (step_id <$> failing_head) ∧
    continue_on_error default_config = false ∧
    _plan_execution_groups failing_head = Some (Ok [[0]; [1]], failing_head) ∧
    @execute_workflow sample_env (sample_workflow failing_head) "in" 0%Z
      = Some (res, workflow', w', calls) ∧
    status_at (wf_steps workflow') 0 = Some FAILED ∧
    (∀ (pre : list (list nat)) g post,
       [[0]; [1]] = pre ++ g :: post → 0 ∈ g → post = [[1]]) ∧
    r_success res = false ∧
    ∃ pre g post,
      [[0]; [1]] = pre ++ g :: post ∧ 0 ∈ g ∧
      (∀ c, c ∈ calls → call_step c ∈ concat pre ++ g) ∧
      (∀ i s, i ∈ concat post → failing_head !! i = Some s →
         wf_steps workflow' !! i = Some (set_status PENDING s) ∧
         r_step_results res !! step_id s = Some (step_result s)) ∧
      (∀ i, i ∈ concat pre →
         ∃ s' r, wf_steps workflow' !! i = Some s' ∧
                 step_status s' = COMPLETED ∧ step_result s' = Some r ∧
                 r_step_results res !! step_id s' = Some (Some r)) ∧
      (∀ i s', wf_steps workflow' !! i = Some s' →
         r_step_results res !! step_id s' = Some (step_result s')).
Proof.
  assert (∀ (pre : list (list nat)) g post,
            [[0]; [1]] = pre ++ g :: post → 0 ∈ g → post = [[1]]) as Hpost.
  { intros pre g post Heq Hg.
    destruct pre as [|p [|p' [|p'' pre]]]; simplify_eq/=; [done|].
    apply list_elem_of_singleton in Hg. discriminate Hg. }
  destruct (@execute_workflow sample_env (sample_workflow failing_head)
              "in" 0%Z) as [[[[res workflow'] w'] calls]|] eqn:Hexec;
    [|by vm_compute in Hexec].
  assert (status_at (wf_steps workflow') 0 = Some FAILED) as Hfail.
  { vm_compute in Hexec. by injection Hexec as <- <- <- <-. }
  assert (NoDup (step_id <$> failing_head)) as Hnd
    by (apply (bool_decide_unpack _); by vm_compute).
  assert (_plan_execution_groups failing_head
          = Some (Ok [[0]; [1]], failing_head)) as Hplan by by vm_compute.
  exists res, workflow', w', calls.
  split; [exact Hnd|]. split; [reflexivity|]. split; [exact Hplan|].
  split; [reflexivity|]. split; [exact Hfail|]. split; [exact Hpost|].
  exact (@abort_keeps_later_groups_pending sample_env
           (sample_workflow failing_head) "in" 0%Z res workflow' w' calls
           [[0]; [1]] failing_head 0 Hnd eq_refl Hplan Hexec Hfail).
Defined.

(** C4 as stated fails: when the first step of a chain fails, the second
    step, in the later group, is [PENDING] and is never dispatched, and the
    returned [step_results] has the entry [None] for it. *)
Lemma later_step_has_an_entry :
  _plan_execution_groups failing_head = Some (Ok [[0]; [1]], failing_head) ∧
  match @execute_workflow sample_env (sample_workflow failing_head)
          "in" 0%Z with
  | Some (res, workflow', _, calls) =>
      continue_on_error (wf_config workflow') = false ∧
      step_status <$> wf_steps workflow' = [FAILED; PENDING] ∧
      call_step <$> calls = [0] ∧
      r_step_results res !! "b" = Some None ∧
      r_step_results res !! "b" ≠ None
  | None => False
  end.
Proof. split; [by vm_compute|]. by vm_compute. Qed.

(** * Validation, data flow and builders *)

(** ** The circular-dependency check terminates *)

Lemma size_pos_lookup {A} (m : gmap string A) k x :
  m !! k = Some x → size m = S (size (delete k m)).
Proof.
  intros Hk. rewrite <- (insert_id m k x) at 1 by done.
  rewrite <- insert_delete_eq. rewrite map_size_insert_None; [done|].
  by rewrite lookup_delete_eq.
Qed.

Lemma positive_keys_insert k v d :
  positive_keys (<[k := v]> d) ≤ S (positive_keys d).
Proof.
  unfold positive_keys. rewrite map_filter_insert. case_decide.
  - rewrite map_size_insert. destruct (_ !! k); simpl; lia.
  - rewrite map_filter_delete, map_size_delete. destruct (_ !! k); simpl; lia.
Qed.

Lemma positive_keys_insert_nonpos k v d :
  (v ≤ 0)%Z → positive_keys (<[k := v]> d) ≤ positive_keys d.
Proof.
  intros Hv. unfold positive_keys. rewrite map_filter_insert.
  rewrite decide_False by (simpl; lia).
  rewrite map_filter_delete, map_size_delete. destruct (_ !! k); simpl; lia.
Qed.

Lemma positive_keys_insert_pos k v n d :
  d !! k = Some n → (0 < n)%Z →
  positive_keys (<[k := v]> d) ≤ positive_keys d.
Proof.
  intros Hk Hn. unfold positive_keys. rewrite map_filter_insert.
  assert (filter (λ kv, (0 < kv.2)%Z) d !! k = Some n) as Hf
    by by apply map_lookup_filter_Some.
  case_decide.
  - by rewrite map_size_insert, Hf.
  - rewrite map_filter_delete, map_size_delete, Hf. simpl. lia.
Qed.

Lemma positive_keys_insert_drop k v n d :
  d !! k = Some n → (0 < n)%Z → (v ≤ 0)%Z →
  S (positive_keys (<[k := v]> d)) ≤ positive_keys d.
Proof.
  intros Hk Hn Hv. unfold positive_keys. rewrite map_filter_insert.
  assert (filter (λ kv, (0 < kv.2)%Z) d !! k = Some n) as Hf
    by by apply map_lookup_filter_Some.
  rewrite decide_False by (simpl; lia).
  rewrite map_filter_delete. by rewrite (size_pos_lookup _ _ _ Hf).
Qed.

Lemma visit_fold current steps in_degree queue :
  visit current steps in_degree queue
  = foldl (visit_step current) (Some (in_degree, queue)) steps.
Proof. done. Qed.

Lemma visit_step_None current steps :
  foldl (visit_step current) None steps = None.
Proof. by induction steps. Qed.

Lemma visit_cons current step steps in_degree queue :
  visit current (step :: steps) in_degree queue =
  if decide (current ∈ step_depends_on step) then
    match in_degree !! step_id step with
    | Some n =>
        visit current steps (<[step_id step := (n - 1)%Z]> in_degree)
          (if decide (n - 1 = 0)%Z then queue ++ [step_id step] else queue)
    | None => None
    end
  else visit current steps in_degree queue.
Proof.
  rewrite !visit_fold. simpl. case_decide; [|done].
  destruct (in_degree !! step_id step); simpl; [done|].
  apply visit_step_None.
Qed.

Lemma visit_potential current steps : ∀ in_degree queue in_degree' queue',
  visit current steps in_degree queue = Some (in_degree', queue') →
  length queue' + positive_keys in_degree'
  ≤ length queue + positive_keys in_degree.
Proof.
  induction steps as [|step steps IH]; intros d q d' q'.
  - intros [= <- <-]. done.
  - rewrite visit_cons. case_decide; [|apply IH].
    destruct (d !! step_id step) as [n|] eqn:Hk; [|done].
    intros Hv%IH. etrans; [exact Hv|].
    case_decide.
    + rewrite length_app. simpl.
      pose proof (positive_keys_insert_drop (step_id step) (n - 1) n d Hk).
      lia.
    + destruct (decide (0 < n)%Z).
      * pose proof (positive_keys_insert_pos (step_id step) (n - 1) n d Hk).
        lia.
      * pose proof (positive_keys_insert_nonpos (step_id step) (n - 1) d).
        lia.
Qed.

Lemma count_processed_total steps fuel : ∀ in_degree queue processed,
  length queue + positive_keys in_degree ≤ fuel →
  is_Some (count_processed fuel steps in_degree queue processed).
Proof.
  induction fuel as [|fuel IH]; intros d q p Hle.
  - destruct q; [by eexists|simpl in Hle; lia].
  - destruct q as [|c q]; [by eexists|]. simpl.
    destruct (visit c steps d q) as [[d' q']|] eqn:Hv; [|by eexists].
    apply IH. apply visit_potential in Hv. simpl in Hle. lia.
Qed.

Lemma initial_potential steps : ∀ d,
  length (initial_queue steps)
  + positive_keys
      (foldl (λ d step,
                <[step_id step := Z.of_nat (length (step_depends_on step))]> d)
             d steps)
  ≤ length steps + positive_keys d.
Proof.
  unfold initial_queue.
  induction steps as [|step steps IH]; intros d; simpl; [done|].
  rewrite filter_cons. case_decide as Hl.
  - simpl. specialize (IH (<[step_id step :=
                             Z.of_nat (length (step_depends_on step))]> d)).
    pose proof (positive_keys_insert_nonpos (step_id step)
                  (Z.of_nat (length (step_depends_on step))) d).
    rewrite length_fmap in *. lia.
  - specialize (IH (<[step_id step :=
                      Z.of_nat (length (step_depends_on step))]> d)).
    pose proof (positive_keys_insert (step_id step)
                  (Z.of_nat (length (step_depends_on step))) d).
    rewrite length_fmap in *. lia.
Qed.

(** The check always comes to an end. *)
Lemma has_circular_total steps : is_Some (_has_circular_dependencies steps).
Proof.
  unfold _has_circular_dependencies.
  destruct (count_processed_total steps (length steps) (in_degree_of steps)
              (initial_queue steps) 0) as [r ->]; [|by eexists].
  pose proof (initial_potential steps ∅) as H.
  unfold positive_keys in H at 2. rewrite map_filter_empty, map_size_empty in H.
  unfold in_degree_of. lia.
Qed.

(** ** The circular-dependency check is a topological sort *)

Lemma ids_inj (steps : list WorkflowStep) s t :
  NoDup (step_id <$> steps) → s ∈ steps → t ∈ steps →
  step_id s = step_id t → s = t.
Proof.
  intros Hnd (i & Hi)%list_elem_of_lookup_1 (j & Hj)%list_elem_of_lookup_1 Heq.
  assert (i = j); [|by simplify_eq].
  eapply NoDup_lookup; [done| |]; rewrite list_lookup_fmap.
  - by rewrite Hi.
  - by rewrite Hj, Heq.
Qed.

Lemma in_degree_fold_notin steps : ∀ (d : gmap string Z) k,
  k ∉ step_id <$> steps →
  foldl (λ d step,
           <[step_id step := Z.of_nat (length (step_depends_on step))]> d)
        d steps !! k = d !! k.
Proof.
  induction steps as [|s steps IH]; intros d k Hk; simpl; [done|].
  rewrite fmap_cons, not_elem_of_cons in Hk. destruct Hk as [Hne Hk].
  rewrite IH by done. by rewrite lookup_insert_ne.
Qed.

Lemma in_degree_of_lookup steps s :
  NoDup (step_id <$> steps) → s ∈ steps →
  in_degree_of steps !! step_id s
  = Some (Z.of_nat (length (step_depends_on s))).
Proof.
  unfold in_degree_of. generalize (∅ : gmap string Z).
  induction steps as [|t steps IH]; intros d Hnd Hs.
  - by apply elem_of_nil in Hs.
  - rewrite fmap_cons in Hnd. apply NoDup_cons in Hnd as [Ht Hnd]. simpl.
    apply elem_of_cons in Hs as [->|Hs].
    + rewrite in_degree_fold_notin by done. by rewrite lookup_insert_eq.
    + by apply IH.
Qed.

Lemma ids_filter_NoDup (P : WorkflowStep → Prop) `{!∀ s, Decision (P s)}
    (steps : list WorkflowStep) :
  NoDup (step_id <$> steps) → NoDup (step_id <$> filter P steps).
Proof.
  intros Hnd. eapply sublist_NoDup; [done|].
  apply fmap_sublist, sublist_filter.
Qed.

Lemma topo_state_init steps :
  NoDup (step_id <$> steps) →
  topo_state steps [] (in_degree_of steps) (initial_queue steps) 0.
Proof.
  intros Hnd. unfold topo_state, initial_queue. split_and!.
  - done.
  - simpl. by apply ids_filter_NoDup.
  - intros s Hs. rewrite in_degree_of_lookup by done. unfold hits. simpl.
    f_equal. lia.
  - intros j c Hj. by rewrite lookup_nil in Hj.
  - intros c (s & -> & [Hl Hs]%list_elem_of_filter)%list_elem_of_fmap.
    exists s. apply nil_length_inv in Hl. rewrite Hl.
    split_and!; [done|done|apply NoDup_nil_2|by intros x ?%elem_of_nil].
  - intros s Hs. rewrite in_degree_of_lookup by done. intros [= H0]. simpl.
    apply list_elem_of_fmap. exists s. split; [done|].
    apply list_elem_of_filter. split; [lia|done].
Qed.

Lemma visit_spec c l : ∀ d q,
  NoDup (step_id <$> l) →
  (∀ s, s ∈ l → is_Some (d !! step_id s)) →
  ∃ d',
    visit c l d q
    = Some (d', q ++ (step_id <$>
                        filter (λ s, c ∈ step_depends_on s
                                     ∧ d !! step_id s = Some 1%Z) l)) ∧
    (∀ s, s ∈ l →
       d' !! step_id s
       = if decide (c ∈ step_depends_on s)
         then (λ n, n - 1)%Z <$> d !! step_id s else d !! step_id s) ∧
    (∀ k, k ∉ step_id <$> l → d' !! k = d !! k).
Proof.
  induction l as [|s l IH]; intros d q Hnd Hkeys.
  - exists d. split_and!; [|by intros s ?%elem_of_nil|done].
    simpl. by rewrite app_nil_r.
  - rewrite fmap_cons in Hnd. apply NoDup_cons in Hnd as [Hs Hnd].
    rewrite visit_cons.
    assert (∀ t, t ∈ l → step_id t ≠ step_id s) as Hne.
    { intros t Ht Heq. apply Hs. apply list_elem_of_fmap. eauto. }
    destruct (decide (c ∈ step_depends_on s)) as [Hc|Hc].
    + destruct (Hkeys s) as [n Hn]; [left|]. rewrite Hn.
      destruct (IH (<[step_id s := (n - 1)%Z]> d)
                  (if decide (n - 1 = 0)%Z then q ++ [step_id s] else q)
                  Hnd) as (d' & Hv & Hl & Hk).
      { intros t Ht. rewrite lookup_insert_ne by (symmetry; by apply Hne).
        apply Hkeys. by right. }
      exists d'. split_and!.
      * rewrite Hv. do 2 f_equal. rewrite filter_cons.
        assert (filter (λ s0, c ∈ step_depends_on s0
                   ∧ <[step_id s:=(n - 1)%Z]> d !! step_id s0 = Some 1%Z) l
                = filter (λ s0, c ∈ step_depends_on s0
                   ∧ d !! step_id s0 = Some 1%Z) l) as ->.
        { apply filter_ext_elem. intros t Ht.
          by rewrite lookup_insert_ne by (symmetry; by apply Hne). }
        rewrite Hn.
        destruct (decide (n - 1 = 0)%Z) as [H0|H0].
        -- rewrite decide_True by (split; [done|f_equal; lia]).
           by rewrite fmap_cons, <- (assoc_L (++)).
        -- rewrite decide_False; [done|].
           intros [_ [= H1]]. lia.
      * intros t [->|Ht]%elem_of_cons.
        -- rewrite Hk by done. rewrite decide_True by done.
           by rewrite lookup_insert_eq, Hn.
        -- rewrite Hl by done.
           by rewrite lookup_insert_ne by (symmetry; by apply Hne).
      * intros k Hk'. rewrite fmap_cons, not_elem_of_cons in Hk'.
        destruct Hk' as [Hks Hkl]. rewrite Hk by done.
        by rewrite lookup_insert_ne.
    + destruct (IH d q Hnd) as (d' & Hv & Hl & Hk).
      { intros t Ht. apply Hkeys. by right. }
      exists d'. split_and!.
      * rewrite Hv. do 2 f_equal. rewrite filter_cons.
        rewrite decide_False; [done|]. by intros [? _].
      * intros t [->|Ht]%elem_of_cons.
        -- rewrite Hk by done. by rewrite decide_False.
        -- by apply Hl.
      * intros k Hk'. rewrite fmap_cons, not_elem_of_cons in Hk'.
        apply Hk. tauto.
Qed.

Lemma hits_snoc done c s :
  hits (done ++ [c]) s
  = hits done s + (if decide (c ∈ step_depends_on s) then 1 else 0).
Proof.
  unfold hits. rewrite filter_app, length_app. f_equal.
  rewrite filter_cons, filter_nil. by case_decide.
Qed.

Lemma hits_le done s :
  NoDup done → NoDup (step_depends_on s) → hits done s ≤ length (step_depends_on s).
Proof.
  intros Hd Hs. unfold hits. apply submseteq_length.
  apply NoDup_submseteq; [by apply NoDup_filter|].
  by intros x [? _]%list_elem_of_filter.
Qed.

Lemma hits_full done s :
  NoDup done → length (step_depends_on s) ≤ hits done s →
  NoDup (step_depends_on s) ∧ ∀ x, x ∈ step_depends_on s → x ∈ done.
Proof.
  intros Hd Hlen. unfold hits in Hlen.
  assert (filter (λ c, c ∈ step_depends_on s) done ≡ₚ step_depends_on s)
    as Hperm.
  { apply submseteq_length_Permutation; [|done].
    apply NoDup_submseteq; [by apply NoDup_filter|].
    by intros x [? _]%list_elem_of_filter. }
  split.
  - rewrite <- Hperm. by apply NoDup_filter.
  - intros x Hx. rewrite <- Hperm in Hx.
    by apply list_elem_of_filter in Hx as [_ ?].
Qed.

Lemma topo_state_step steps done d c q p :
  NoDup (step_id <$> steps) →
  topo_state steps done d (c :: q) p →
  ∃ d' q', visit c steps d q = Some (d', q') ∧
           topo_state steps (done ++ [c]) d' q' (S p).
Proof.
  intros Hnd (Hp & Hndq & Hdeg & Hdone & Hqueue & Hzero).
  destruct (visit_spec c steps d q Hnd) as (d' & Hv & Hl & _).
  { intros s Hs. rewrite Hdeg by done. by eexists. }
  eexists d', _. split; [exact Hv|].
  set (new := step_id <$> filter (λ s, c ∈ step_depends_on s
                                       ∧ d !! step_id s = Some 1%Z) steps).
  assert (Hc_notin : c ∉ done).
  { intros Hc. apply NoDup_app in Hndq as (_ & Hdisj & _).
    eapply Hdisj; [done|left]. }
  assert (F1 : ∀ s, s ∈ steps → c ∈ step_depends_on s →
                    step_id s ∉ done ++ c :: q).
  { intros s Hs Hcs Hin. apply Hc_notin.
    apply elem_of_app in Hin as [Hin|Hin].
    - apply list_elem_of_lookup_1 in Hin as [j Hj].
      destruct (Hdone j _ Hj) as (s' & Hs' & Hid & _ & Hdeps).
      assert (s' = s) as -> by by eapply ids_inj.
      destruct (Hdeps c Hcs) as (i & _ & Hi).
      by eapply list_elem_of_lookup_2.
    - destruct (Hqueue _ Hin) as (s' & Hs' & Hid & _ & Hdeps).
      assert (s' = s) as -> by by eapply ids_inj.
      by apply Hdeps. }
  assert (Hdeg' : ∀ s, s ∈ steps →
            d' !! step_id s
            = Some (Z.of_nat (length (step_depends_on s))
                    - Z.of_nat (hits (done ++ [c]) s))%Z).
  { intros s Hs. rewrite Hl, hits_snoc by done. rewrite Hdeg by done.
    case_decide; simpl; f_equal; lia. }
  assert (Hnd' : NoDup ((done ++ [c]) ++ q ++ new)).
  { replace ((done ++ [c]) ++ q ++ new) with ((done ++ c :: q) ++ new)
      by (by rewrite <- !(assoc_L (++))).
    apply NoDup_app. split_and!; [done| |by apply ids_filter_NoDup].
    intros x Hx (s & -> & [[Hcs _] Hs]%list_elem_of_filter)%list_elem_of_fmap.
    by eapply F1. }
  split_and!.
  - rewrite length_app. simpl. lia.
  - done.
  - done.
  - intros j c0 Hj.
    destruct (decide (j < length done)) as [Hlt|Hge].
    + rewrite lookup_app_l in Hj by done.
      destruct (Hdone j c0 Hj) as (s & Hs & Hid & Hnds & Hdeps).
      exists s. split_and!; [done..|]. intros x Hx.
      destruct (Hdeps x Hx) as (i & Hi & Hxi). exists i. split; [done|].
      rewrite lookup_app_l; [done|]. by eapply lookup_lt_Some.
    + pose proof (lookup_lt_Some _ _ _ Hj) as Hlen.
      rewrite length_app in Hlen. simpl in Hlen.
      assert (j = length done) as -> by lia.
      rewrite list_lookup_middle in Hj by done. injection Hj as <-.
      destruct (Hqueue c) as (s & Hs & Hid & Hnds & Hdeps); [left|].
      exists s. split_and!; [done..|]. intros x Hx.
      apply Hdeps, list_elem_of_lookup_1 in Hx as [i Hi].
      exists i. split; [by eapply lookup_lt_Some|].
      rewrite lookup_app_l; [done|]. by eapply lookup_lt_Some.
  - intros c0 [Hc0|Hc0]%elem_of_app.
    + destruct (Hqueue c0) as (s & Hs & Hid & Hnds & Hdeps); [by right|].
      exists s. split_and!; [done..|]. intros x Hx.
      apply elem_of_app. left. by apply Hdeps.
    + apply list_elem_of_fmap in Hc0
        as (s & -> & [[Hcs H1] Hs]%list_elem_of_filter).
      exists s. split; [done|]. split; [done|].
      apply hits_full.
      * apply NoDup_app in Hnd' as (? & _). done.
      * rewrite hits_snoc, decide_True by done.
        rewrite Hdeg in H1 by done. injection H1 as H1. lia.
  - intros s Hs H0. rewrite Hl in H0 by done.
    case_decide as Hcs.
    + rewrite !elem_of_app. right. right.
      apply list_elem_of_fmap. exists s. split; [done|].
      apply list_elem_of_filter. split; [|done]. split; [done|].
      destruct (d !! step_id s) as [n|]; simplify_eq/=. f_equal. lia.
    + specialize (Hzero s Hs H0). set_solver.
Qed.

Lemma count_processed_spec steps fuel : ∀ done d q p r,
  NoDup (step_id <$> steps) →
  topo_state steps done d q p →
  count_processed fuel steps d q p = Some r →
  ∃ done' d', r = Some (length done') ∧
              topo_state steps done' d' [] (length done').
Proof.
  induction fuel as [|fuel IH]; intros done d q p r Hnd Hst.
  - destruct q; [|done]. intros [= <-].
    pose proof Hst as (-> & _). eauto.
  - destruct q as [|c q].
    { intros [= <-]. pose proof Hst as (-> & _). eauto. }
    simpl.
    destruct (topo_state_step _ _ _ _ _ _ Hnd Hst) as (d' & q' & -> & Hst').
    by eapply IH.
Qed.

Lemma topo_done_ids steps done d q p :
  topo_state steps done d q p → ∀ c, c ∈ done → c ∈ step_id <$> steps.
Proof.
  intros (_ & _ & _ & Hdone & _) c [j Hj]%list_elem_of_lookup_1.
  destruct (Hdone j c Hj) as (s & Hs & <- & _).
  apply list_elem_of_fmap. eauto.
Qed.

Lemma get_step_is_Some steps x :
  x ∈ step_id <$> steps → is_Some (get_step steps x).
Proof.
  intros Hx. destruct (get_step steps x) eqn:E; [by eexists|].
  apply get_step_None in E. by rewrite elem_of_list_to_set in E.
Qed.

Lemma get_step_elem steps x j :
  get_step steps x = Some j → ∃ s, steps !! j = Some s ∧ step_id s = x.
Proof. intros (s & ? & ? & _)%get_step_Some. eauto. Qed.

(** All steps taken: the order in which they were taken is a topological
    order. *)
Lemma topo_complete_sound steps done d :
  NoDup (step_id <$> steps) →
  topo_state steps done d [] (length done) →
  length done = length steps →
  deps_closed steps ∧ acyclic steps ∧
  Forall (λ s, NoDup (step_depends_on s)) steps.
Proof.
  intros Hnd Hst Hlen.
  pose proof (topo_done_ids _ _ _ _ _ Hst) as Hsub.
  destruct Hst as (_ & Hndd & _ & Hdone & _). rewrite app_nil_r in Hndd.
  assert (done ≡ₚ step_id <$> steps) as Hperm.
  { apply submseteq_length_Permutation; [by apply NoDup_submseteq|].
    rewrite length_fmap. lia. }
  assert (Hat : ∀ s, s ∈ steps →
            ∃ j, done !! j = Some (step_id s) ∧ NoDup (step_depends_on s) ∧
                 ∀ x, x ∈ step_depends_on s → ∃ i, i < j ∧ done !! i = Some x).
  { intros s Hs.
    assert (step_id s ∈ done) as [j Hj]%list_elem_of_lookup_1.
    { rewrite Hperm. apply list_elem_of_fmap. eauto. }
    destruct (Hdone j _ Hj) as (s' & Hs' & Hid & Hnds & Hdeps).
    assert (s' = s) as -> by by eapply ids_inj. eauto. }
  split_and!.
  - intros s x Hs Hx. destruct (Hat s Hs) as (j & _ & _ & Hdeps).
    destruct (Hdeps x Hx) as (i & _ & Hi).
    apply get_step_is_Some, Hsub. by eapply list_elem_of_lookup_2.
  - assert (∀ a b, tc (dep_edge steps) a b →
              ∃ sa sb i j, steps !! a = Some sa ∧ steps !! b = Some sb ∧
                done !! i = Some (step_id sa) ∧ done !! j = Some (step_id sb) ∧
                j < i) as Hrank.
    { assert (∀ a b, dep_edge steps a b →
                ∃ sa sb i j, steps !! a = Some sa ∧ steps !! b = Some sb ∧
                  done !! i = Some (step_id sa) ∧
                  done !! j = Some (step_id sb) ∧ j < i) as Hbase.
      { intros a b (sa & x & Hsa & Hx & Hb).
        apply get_step_elem in Hb as (sb & Hsb & <-).
        destruct (Hat sa) as (i & Hi & _ & Hdeps);
          [by eapply list_elem_of_lookup_2|].
        destruct (Hdeps _ Hx) as (j & Hji & Hj).
        by exists sa, sb, i, j. }
      intros a b Htc. induction Htc as [a b H|a b c H _ IH]; [by apply Hbase|].
      destruct (Hbase _ _ H) as (sa & sb & i & j & Hsa & Hsb & Hi & Hj & Hlt).
      destruct IH as (sb' & sc & i' & j' & Hsb' & Hsc & Hi' & Hj' & Hlt').
      assert (sb' = sb) as -> by congruence.
      assert (i' = j) as -> by by eapply NoDup_lookup.
      exists sa, sc, i, j'. split_and!; [done..|lia]. }
    intros a Ha. destruct (Hrank _ _ Ha) as (sa & sb & i & j & ? & ? & ? & ? & ?).
    assert (sb = sa) as -> by congruence.
    assert (i = j) by by eapply NoDup_lookup. lia.
  - apply Forall_forall. intros s Hs. by destruct (Hat s Hs) as (_ & _ & ? & _).
Qed.

(** Some step never taken: the steps never taken are on or behind a
    cycle. *)
Lemma topo_complete steps done d :
  NoDup (step_id <$> steps) →
  topo_state steps done d [] (length done) →
  deps_closed steps → acyclic steps →
  Forall (λ s, NoDup (step_depends_on s)) steps →
  length done = length steps.
Proof.
  intros Hnd Hst Hcl Hac Hdeps.
  pose proof (topo_done_ids _ _ _ _ _ Hst) as Hsub.
  destruct Hst as (_ & Hndd & Hdeg & _ & _ & Hzero).
  rewrite app_nil_r in Hndd.
  destruct (decide (length done = length steps)) as [|Hne]; [done|].
  exfalso.
  set (R := filter (λ j, from_option (λ s, bool_decide (step_id s ∉ done))
                                     false (steps !! j))
                   (seq 0 (length steps))).
  assert (HR : ∀ j, j ∈ R ↔ ∃ s, steps !! j = Some s ∧ step_id s ∉ done).
  { intros j. unfold R. rewrite list_elem_of_filter, elem_of_seq. split.
    - intros [Hj _]. destruct (steps !! j) as [s|]; [|done].
      apply bool_decide_unpack in Hj. eauto.
    - intros (s & Hs & Hn). split.
      + rewrite Hs. simpl. by apply bool_decide_pack.
      + apply lookup_lt_Some in Hs. lia. }
  destruct (sinkless_cycle (tc (dep_edge steps)) R) as [i Hi].
  - intros HRnil.
    assert (step_id <$> steps ⊆+ done) as Hsm.
    { apply NoDup_submseteq; [done|].
      intros x (s & -> & [j Hj]%list_elem_of_lookup_1)%list_elem_of_fmap.
      destruct (decide (step_id s ∈ done)) as [|Hn]; [done|].
      assert (j ∈ R) as Hin by (apply HR; eauto).
      rewrite HRnil in Hin. by apply elem_of_nil in Hin. }
    apply submseteq_length in Hsm. rewrite length_fmap in Hsm.
    assert (done ⊆+ step_id <$> steps) as Hsm' by by apply NoDup_submseteq.
    apply submseteq_length in Hsm'. rewrite length_fmap in Hsm'. lia.
  - intros j (s & Hs & Hn)%HR.
    assert (s ∈ steps) as Hin by by eapply list_elem_of_lookup_2.
    assert (NoDup (step_depends_on s)) as Hnds
      by by eapply Forall_forall in Hdeps.
    destruct (decide (Forall (λ x, x ∈ done) (step_depends_on s))) as [Hall|Hex].
    + exfalso. apply Hn.
      assert (step_id s ∈ done ++ []) as Hd; [|by rewrite app_nil_r in Hd].
      apply Hzero; [done|]. rewrite Hdeg by done. f_equal.
      pose proof (hits_le done s Hndd Hnds).
      assert (length (step_depends_on s) ≤ hits done s); [|lia].
      unfold hits. apply submseteq_length, NoDup_submseteq; [done|].
      intros x Hx. apply list_elem_of_filter. split; [done|].
      by eapply Forall_forall in Hall.
    + apply not_Forall_Exists in Hex; [|solve_decision].
      apply Exists_exists in Hex as (x & Hx & Hxd). simpl in Hxd.
      destruct (Hcl s x Hin Hx) as [j' Hj'].
      pose proof Hj' as (s' & Hs' & <-)%get_step_elem.
      exists j'. split; [apply HR; eauto|].
      apply tc_once. by exists s, (step_id s').
  - by apply (Hac i).
Qed.

Lemma has_circular_spec steps :
  NoDup (step_id <$> steps) →
  ∃ b, _has_circular_dependencies steps = Some b ∧
       (b = false ↔
        deps_closed steps ∧ acyclic steps ∧
        Forall (λ s, NoDup (step_depends_on s)) steps).
Proof.
  intros Hnd. destruct (has_circular_total steps) as [b Hb]. exists b.
  split; [done|]. unfold _has_circular_dependencies in Hb.
  destruct (count_processed _ _ _ _ _) as [r|] eqn:Hcount; [|done].
  simpl in Hb. injection Hb as <-.
  apply (count_processed_spec _ _ [] _ _ _ _ Hnd (topo_state_init _ Hnd))
    in Hcount as (done & d & -> & Hst).
  rewrite bool_decide_eq_false. split.
  - intros Hlen. apply dec_stable in Hlen.
    by eapply topo_complete_sound.
  - intros (Hcl & Hac & Hdeps) Hne. apply Hne.
    by eapply topo_complete.
Qed.

(** ** The validation *)

Lemma size_list_to_set_le (l : list string) :
  size (list_to_set l : gset string) ≤ length l.
Proof.
  induction l as [|x l IH].
  - by rewrite list_to_set_nil, size_empty.
  - rewrite list_to_set_cons, size_union_alt, size_singleton. cbn [length].
    assert (size (list_to_set l ∖ {[x]} : gset string)
            ≤ size (list_to_set l : gset string)); [|lia].
    apply subseteq_size. set_solver.
Qed.

Lemma size_list_to_set_NoDup (l : list string) :
  size (list_to_set l : gset string) = length l ↔ NoDup l.
Proof.
  split; [|apply size_list_to_set].
  induction l as [|x l IH]; intros Hsize; [apply NoDup_nil_2|].
  rewrite list_to_set_cons in Hsize. cbn [length] in Hsize.
  destruct (decide (x ∈ l)) as [Hx|Hx].
  - assert ({[x]} ∪ list_to_set l = (list_to_set l : gset string)) as Heq
      by set_solver.
    rewrite Heq in Hsize. pose proof (size_list_to_set_le l). lia.
  - rewrite size_union in Hsize by set_solver.
    rewrite size_singleton in Hsize.
    apply NoDup_cons. split; [done|]. apply IH. lia.
Qed.

Lemma dependency_errors_inner (step_ids : gset string) sid deps : ∀ errors,
  foldl (λ errors dep_id,
           if decide (dep_id ∈ step_ids) then errors
           else errors ++ [dependency_message sid dep_id]) errors deps
  = errors ++ (dependency_message sid
                 <$> filter (λ dep_id, dep_id ∉ step_ids) deps).
Proof.
  induction deps as [|d deps IH]; intros errors; simpl.
  - by rewrite app_nil_r.
  - rewrite IH, filter_cons. destruct (decide (d ∈ step_ids)).
    + by rewrite decide_False by tauto.
    + rewrite decide_True by done. by rewrite fmap_cons, <- (assoc_L (++)).
Qed.

Lemma dependency_errors_spec step_ids steps : ∀ errors,
  dependency_errors step_ids steps errors
  = errors ++ missing_messages step_ids steps.
Proof.
  unfold dependency_errors, missing_messages.
  induction steps as [|s steps IH]; intros errors.
  - simpl. by rewrite app_nil_r.
  - cbn [foldl fmap list_fmap concat].
    by rewrite IH, dependency_errors_inner, <- (assoc_L (++)).
Qed.

Lemma elem_of_missing_messages step_ids steps m :
  m ∈ missing_messages step_ids steps ↔
  ∃ s d, s ∈ steps ∧ d ∈ step_depends_on s ∧ (d ∉ step_ids) ∧
         m = dependency_message (step_id s) d.
Proof.
  unfold missing_messages. rewrite elem_of_concat. split.
  - intros (l & Hm & Hl). apply list_elem_of_fmap in Hl as (s & -> & Hs).
    apply list_elem_of_fmap in Hm as (d & -> & Hd).
    apply list_elem_of_filter in Hd as [Hd Hin]. by exists s, d.
  - intros (s & d & Hs & Hd & Hn & ->).
    exists (dependency_message (step_id s)
              <$> filter (λ dep_id, dep_id ∉ step_ids) (step_depends_on s)).
    split.
    + apply list_elem_of_fmap. exists d. split; [done|].
      by apply list_elem_of_filter.
    + apply list_elem_of_fmap. by exists s.
Qed.

Lemma missing_messages_nil step_ids steps :
  missing_messages step_ids steps = [] ↔
  ∀ s d, s ∈ steps → d ∈ step_depends_on s → d ∈ step_ids.
Proof.
  split.
  - intros Hnil s d Hs Hd. destruct (decide (d ∈ step_ids)) as [|Hn]; [done|].
    assert (dependency_message (step_id s) d ∈ missing_messages step_ids steps)
      as Hin by (apply elem_of_missing_messages; eauto 10).
    rewrite Hnil in Hin. by apply elem_of_nil in Hin.
  - intros Hall. destruct (missing_messages step_ids steps) as [|m l] eqn:E;
      [done|].
    assert (m ∈ missing_messages step_ids steps) as Hin by (rewrite E; left).
    apply elem_of_missing_messages in Hin as (s & d & Hs & Hd & Hn & _).
    destruct Hn. by eapply Hall.
Qed.

(** The head of the missing-dependency messages is the error of
    [create_custom_workflow]. *)
Lemma first_missing_filter (step_ids : gset string) deps :
  first_missing step_ids deps
  = head (filter (λ dep_id, dep_id ∉ step_ids) deps).
Proof.
  induction deps as [|d deps IH]; simpl; [done|].
  rewrite filter_cons. destruct (decide (d ∈ step_ids)).
  - by rewrite decide_False by tauto.
  - by rewrite decide_True.
Qed.

Lemma first_dangling_head step_ids steps :
  (λ '(sid, dep_id), dependency_message sid dep_id)
    <$> first_dangling step_ids steps
  = head (missing_messages step_ids steps).
Proof.
  unfold missing_messages.
  induction steps as [|s steps IH]; simpl; [done|].
  rewrite first_missing_filter.
  destruct (filter _ (step_depends_on s)) as [|d l]; simpl; [|done].
  exact IH.
Qed.

Lemma deps_closed_ids steps :
  deps_closed steps ↔
  ∀ s d, s ∈ steps → d ∈ step_depends_on s →
         d ∈ (list_to_set (step_id <$> steps) : gset string).
Proof.
  unfold deps_closed. split; intros H s d Hs Hd.
  - destruct (H s d Hs Hd) as [j Hj].
    destruct (decide (d ∈ (list_to_set (step_id <$> steps) : gset string)));
      [done|].
    assert (get_step steps d = None) by by apply get_step_None. congruence.
  - apply get_step_is_Some.
    rewrite <- (elem_of_list_to_set (C := gset string)). by eapply H.
Qed.

(** The shape of the list returned for a workflow with steps. *)
Lemma validate_workflow_eq steps :
  steps ≠ [] →
  ∃ circular,
    _has_circular_dependencies steps = Some circular ∧
    validate_workflow steps
    = Some ((if decide (NoDup (step_id <$> steps)) then []
             else ["Duplicate step IDs found"])
            ++ missing_messages (list_to_set (step_id <$> steps)) steps
            ++ (if circular then ["Circular dependencies detected"] else [])).
Proof.
  intros Hne. destruct (has_circular_total steps) as [b Hb]. exists b.
  split; [done|]. unfold validate_workflow.
  destruct steps as [|s steps]; [done|].
  rewrite Hb. cbn [mbind option_bind]. f_equal.
  rewrite dependency_errors_spec.
  assert ((if decide (size (list_to_set (step_id <$> s :: steps) : gset string)
                      ≠ length (step_id <$> s :: steps))
           then ["Duplicate step IDs found"] else [])
          = if decide (NoDup (step_id <$> s :: steps)) then []
            else ["Duplicate step IDs found"]) as ->.
  { pose proof (size_list_to_set_NoDup (step_id <$> s :: steps)) as H.
    destruct (decide (_ ≠ _)), (decide (NoDup _)); try done; tauto. }
  destruct b; by rewrite <- ?(assoc_L (++)), ?app_nil_r.
Qed.

Lemma validate_workflow_total steps : is_Some (validate_workflow steps).
Proof.
  destruct steps as [|s steps]; [by eexists|].
  destruct (validate_workflow_eq (s :: steps)) as (b & _ & ->); [done|].
  by eexists.
Qed.

Lemma validate_workflow_clean steps :
  ∃ errors, validate_workflow steps = Some errors ∧
    (errors = [] ↔
     steps ≠ [] ∧ NoDup (step_id <$> steps) ∧ deps_closed steps ∧
     acyclic steps ∧ Forall (λ s, NoDup (step_depends_on s)) steps).
Proof.
  destruct (decide (steps = [])) as [->|Hne].
  { eexists. split; [done|]. split; [done|]. by intros [? _]. }
  destruct (validate_workflow_eq steps Hne) as (b & Hb & ->).
  eexists. split; [done|]. split.
  - intros Heq. apply app_eq_nil in Heq as [Hdup Heq].
    apply app_eq_nil in Heq as [Hmiss Hcirc].
    destruct (decide (NoDup (step_id <$> steps))) as [Hnd|]; [|done].
    destruct b; [done|].
    destruct (has_circular_spec steps Hnd) as (b' & Hb' & Hiff).
    assert (b' = false) as -> by congruence.
    split_and!; [done|done|by apply Hiff..].
  - intros (_ & Hnd & Hcl & Hac & Hdeps).
    destruct (has_circular_spec steps Hnd) as (b' & Hb' & Hiff).
    assert (b' = b) as -> by congruence.
    assert (b = false) as -> by (by apply Hiff).
    rewrite decide_True by done.
    assert (missing_messages (list_to_set (step_id <$> steps)) steps = [])
      as ->; [|done].
    apply missing_messages_nil. by apply deps_closed_ids.
Qed.

Lemma dependency_message_head sid d :
  ∃ rest, dependency_message sid d = String "S" rest.
Proof. by eexists. Qed.

(** X3.  [validate_workflow] returns on every workflow, and it reports
    ["Duplicate step IDs found"] exactly when two steps have the same
    id. *)
Lemma validate_workflow_duplicates steps :
  ∃ errors, validate_workflow steps = Some errors ∧
    ("Duplicate step IDs found" ∈ errors ↔ ¬ NoDup (step_id <$> steps)).
Proof.
  destruct (decide (steps = [])) as [->|Hne].
  { eexists. split; [done|]. split.
    - intros [=]%list_elem_of_singleton.
    - intros []. apply NoDup_nil_2. }
  destruct (validate_workflow_eq steps Hne) as (b & Hb & ->).
  eexists. split; [done|]. rewrite !elem_of_app. split.
  - intros [H|[H|H]].
    + by destruct (decide (NoDup _)); [apply elem_of_nil in H|].
    + apply elem_of_missing_messages in H as (s & d & _ & _ & _ & H).
      destruct (dependency_message_head (step_id s) d) as [r Hr].
      rewrite Hr in H. done.
    + destruct b; [|by apply elem_of_nil in H].
      by apply list_elem_of_singleton in H.
  - intros Hn. left. rewrite decide_False by done. left.
Qed.

(** X4.  On a workflow with unique step ids in which a dependency names no
    step, [validate_workflow] reports the missing dependency and, besides,
    ["Circular dependencies detected"]: the step that waits for the missing
    id never reaches the queue of the circular-dependency check. *)
Lemma validate_workflow_dangling steps :
  NoDup (step_id <$> steps) → dangling steps →
  ∃ errors, validate_workflow steps = Some errors ∧
    "Circular dependencies detected" ∈ errors ∧
    ∃ s d, s ∈ steps ∧ d ∈ step_depends_on s ∧ get_step steps d = None ∧
           dependency_message (step_id s) d ∈ errors.
Proof.
  intros Hnd (i & s & d & Hs & Hd & Hnone).
  assert (steps ≠ []) as Hne by (intros ->; by rewrite lookup_nil in Hs).
  destruct (validate_workflow_eq steps Hne) as (b & Hb & ->).
  eexists. split; [done|].
  assert (s ∈ steps) as Hin by by eapply list_elem_of_lookup_2.
  split.
  - destruct (has_circular_spec steps Hnd) as (b' & Hb' & Hiff).
    assert (b' = b) as -> by congruence.
    destruct b; [rewrite !elem_of_app; right; right; left|].
    exfalso. destruct Hiff as [Hiff _].
    destruct (Hiff eq_refl) as (Hcl & _).
    destruct (Hcl s d Hin Hd) as [j Hj]. congruence.
  - exists s, d. split_and!; [done..|]. rewrite !elem_of_app. right. left.
    apply elem_of_missing_messages. exists s, d. split_and!; [done..| |done].
    by apply get_step_None.
Qed.

(** X5.  On a workflow with unique step ids, a step whose [depends_on]
    names the same id twice makes [validate_workflow] report
    ["Circular dependencies detected"]: the in-degree counts the id twice
    and the loop takes it off once. *)
Lemma validate_workflow_repeated_dependency steps s :
  NoDup (step_id <$> steps) → s ∈ steps → ¬ NoDup (step_depends_on s) →
  ∃ errors, validate_workflow steps = Some errors ∧
    "Circular dependencies detected" ∈ errors.
Proof.
  intros Hnd Hs Hdup.
  assert (steps ≠ []) as Hne by (intros ->; by apply elem_of_nil in Hs).
  destruct (validate_workflow_eq steps Hne) as (b & Hb & ->).
  eexists. split; [done|].
  destruct (has_circular_spec steps Hnd) as (b' & Hb' & Hiff).
  assert (b' = b) as -> by congruence.
  destruct b; [rewrite !elem_of_app; right; right; left|].
  exfalso. destruct Hiff as [Hiff _].
  destruct (Hiff eq_refl) as (_ & _ & Hdeps).
  apply Hdup. by eapply Forall_forall in Hdeps.
Qed.

Section Compose.
Context {env : Environment}.

(** X6.  [create_custom_workflow] and [validate_workflow] agree on the
    dependencies.  When [create_custom_workflow] raises, its message is the
    first of the messages for a missing dependency, in the order of the
    steps and of their [depends_on], and [validate_workflow] reports it
    too; when it registers the workflow, [validate_workflow] can only
    report an empty workflow, duplicate ids or a circular dependency. *)
Lemma create_custom_workflow_validate registry name steps config w :
  ∃ errors, validate_workflow steps = Some errors ∧
    match (create_custom_workflow registry name steps config w).1.1 with
    | Raise e =>
        ∃ m, e = ValueError m ∧
             head (missing_messages (list_to_set (step_id <$> steps)) steps)
             = Some m ∧ m ∈ errors
    | Ok _ =>
        ∀ m, m ∈ errors →
             m ∈ ["Workflow has no steps"; "Duplicate step IDs found";
                  "Circular dependencies detected"]
    end.
Proof.
  unfold create_custom_workflow. destruct (uuid4 w) as [workflow_id w1].
  pose proof (first_dangling_head (list_to_set (step_id <$> steps)) steps)
    as Hhead.
  destruct (decide (steps = [])) as [->|Hne].
  { eexists. split; [done|]. simpl. set_solver. }
  destruct (validate_workflow_eq steps Hne) as (b & Hb & ->).
  eexists. split; [done|].
  destruct (first_dangling _ steps) as [[sid d]|]; simpl in *.
  - exists (dependency_message sid d). split_and!; [done..|].
    rewrite !elem_of_app. right. left.
    destruct (missing_messages _ steps) as [|m l]; simplify_eq/=. left.
  - destruct (missing_messages _ steps) as [|m l]; [|done]. simpl.
    intros m. rewrite elem_of_app.
    destruct (decide (NoDup _)), b; set_solver.
Qed.
End Compose.

(** ** Plans of workflows without completed steps *)

(** Whenever the planner returns groups for a workflow none of whose steps
    is [COMPLETED], every dependency names a step, and that step lies in a
    strictly earlier group. *)
Lemma plan_fresh_order steps groups steps' :
  none_completed steps →
  _plan_execution_groups steps = Some (Ok groups, steps') →
  ∀ i s d, steps !! i = Some s → d ∈ step_depends_on s →
    ∃ j, get_step steps d = Some j ∧ strictly_earlier groups j i.
Proof.
  intros Hnc Heq.
  pose proof (plan_loop_invariant
    (λ st R gs,
       (st = planning_state steps R ∧
        (∀ j, j ∈ R → j < length steps) ∧
        (∀ j, j < length steps → j ∈ R ∨ j ∈ concat gs) ∧
        (∀ i s d j, i ∈ concat gs → steps !! i = Some s →
           d ∈ step_depends_on s → get_step steps d = Some j →
           strictly_earlier gs j i)) ∧
       (∀ i s d, i ∈ concat gs → steps !! i = Some s →
          d ∈ step_depends_on s → is_Some (get_step steps d)))) as Hinv.
  eapply (Hinv _ _ _ _ _ (Ok groups)) in Heq
    as (st & (_ & _ & Hcover & Hord) & Hclosed).
  - intros i s d Hs Hd.
    assert (i ∈ concat groups) as Hi.
    { destruct (Hcover i) as [[]%elem_of_nil|?];
        [by eapply lookup_lt_Some|done]. }
    destruct (Hclosed i s d Hi Hs Hd) as [j Hj]. exists j. split; [done|].
    by eapply Hord.
  - apply NoDup_seq.
  - split; [split_and!|].
    + by rewrite planning_state_init.
    + intros j Hj%elem_of_seq. lia.
    + intros j Hj. left. apply elem_of_seq. lia.
    + intros i s d j Hi. by apply elem_of_nil in Hi.
    + intros i s d Hi. by apply elem_of_nil in Hi.
  Unshelve.
  intros st R gs [Hord Hclosed] Hnd ready Hne. split.
  { by apply (plan_order_invariant steps Hnc st R gs Hord Hnd). }
  intros i s d Hi Hs Hd. rewrite concat_app in Hi.
  apply elem_of_app in Hi as [Hi|Hi]; [by eapply Hclosed|].
  rewrite group_ready_concat in Hi.
  apply list_elem_of_filter in Hi as [Hr Hi].
  destruct Hord as (-> & _).
  apply is_ready_planning in Hr as (s' & Hs' & Hdeps); [|done].
  assert (s' = s) as -> by congruence.
  destruct (Hdeps d Hd) as (j & Hj & _). by eexists.
Qed.

(** The planner succeeds on an acyclic workflow without dangling
    dependencies and without completed steps. *)
Lemma plan_acyclic_ok steps :
  none_completed steps → acyclic steps → deps_closed steps →
  ∃ groups,
    _plan_execution_groups steps
    = Some (Ok groups, set_status PENDING <$> steps).
Proof.
  intros Hnc Hac Hcl.
  destruct (plan_total steps) as (r & st' & Heq & Hr).
  destruct Hr as [->|(gs & -> & ->)]; [|by eexists]. exfalso.
  pose proof (plan_loop_invariant
    (λ st R _, st = planning_state steps R ∧ ∀ j, j ∈ R → j < length steps))
    as Hinv.
  eapply (Hinv _ _ _ _ _ (Raise cycle_error)) in Heq
    as (st & R & gs & (-> & Hrange) & _ & Hne & Hstuck).
  - destruct (stuck_cycle steps R Hnc Hcl Hrange Hne Hstuck) as [v Hv].
    by apply (Hac v).
  - apply NoDup_seq.
  - split; [by rewrite planning_state_init|].
    intros j Hj%elem_of_seq. lia.
  Unshelve.
  intros st R gs [-> Hrange] Hnd ready _. split.
  { apply planning_state_round. }
  intros j [_ Hj]%list_elem_of_filter. by apply Hrange.
Qed.

(** X7.  A workflow that passes [validate_workflow] and has no [COMPLETED]
    step is planned: [_plan_execution_groups] returns groups that hold
    every step exactly once, and every dependency of a step names a step of
    a strictly earlier group. *)
Lemma validated_plan steps :
  validate_workflow steps = Some [] → none_completed steps →
  ∃ groups,
    _plan_execution_groups steps
    = Some (Ok groups, set_status PENDING <$> steps) ∧
    concat groups ≡ₚ seq 0 (length steps) ∧
    ∀ i s d, steps !! i = Some s → d ∈ step_depends_on s →
      ∃ j, get_step steps d = Some j ∧ strictly_earlier groups j i.
Proof.
  intros Hval Hnc.
  destruct (validate_workflow_clean steps) as (errors & Herr & Hiff).
  assert (errors = []) as -> by congruence.
  destruct Hiff as [Hiff _].
  destruct (Hiff eq_refl) as (_ & _ & Hcl & Hac & _).
  destruct (plan_acyclic_ok steps Hnc Hac Hcl) as [groups Hplan].
  exists groups. split_and!; [done|by eapply plan_groups_perm|].
  by eapply plan_fresh_order.
Qed.

(** ** Ready steps *)

Lemma ready_now_spec steps i :
  ready_now steps i ↔
  ∃ s, steps !! i = Some s ∧ step_status s = PENDING ∧
       ∀ d, d ∈ step_depends_on s → dep_completed steps d.
Proof.
  unfold ready_now. destruct (steps !! i) as [s|]; [|naive_solver]. split.
  - intros [Hp Hd]%andb_True. apply bool_decide_unpack in Hp.
    apply forallb_True in Hd. rewrite Forall_forall in Hd. eauto.
  - intros (? & [= <-] & Hp & Hd). apply andb_True. split.
    + by apply bool_decide_pack.
    + by apply forallb_True, Forall_forall.
Qed.

Lemma elem_of_get_ready_steps steps i :
  i ∈ get_ready_steps steps ↔ ready_now steps i.
Proof.
  unfold get_ready_steps. rewrite list_elem_of_filter, elem_of_seq.
  split; [tauto|]. intros Hr. split; [done|].
  apply ready_now_spec in Hr as (s & Hs & _).
  apply lookup_lt_Some in Hs. lia.
Qed.

Lemma dep_completed_spec steps d :
  dep_completed steps d ↔
  ∃ j s, get_step steps d = Some j ∧ steps !! j = Some s ∧
         step_status s = COMPLETED.
Proof.
  unfold dep_completed, status_at.
  destruct (get_step steps d) as [j|]; [|by split; [|intros (? & ? & ? & _)]].
  rewrite bool_decide_spec. destruct (steps !! j) as [s|] eqn:Hs; simpl; split.
  - intros [= Hc]. by exists j, s.
  - intros (? & ? & [= <-] & ? & ?). simplify_eq. by f_equal.
  - done.
  - intros (? & ? & [= <-] & ? & ?). simplify_eq.
Qed.

(** X8.  [get_ready_steps] finds work as long as there is some: in a
    workflow without cycle whose dependencies all name steps and whose
    steps are [PENDING] or [COMPLETED], if some step is [PENDING] then some
    step is ready. *)
Lemma get_ready_steps_progress steps :
  deps_closed steps → acyclic steps →
  (∀ s, s ∈ steps → step_status s = PENDING ∨ step_status s = COMPLETED) →
  (∃ s, s ∈ steps ∧ step_status s = PENDING) →
  get_ready_steps steps ≠ [].
Proof.
  intros Hcl Hac Hst (s0 & [i0 Hi0]%list_elem_of_lookup_1 & Hp0) Hnil.
  set (R := filter (λ j, status_at steps j = Some PENDING)
                   (seq 0 (length steps))).
  assert (HR : ∀ j, j ∈ R ↔ ∃ s, steps !! j = Some s ∧ step_status s = PENDING).
  { intros j. unfold R, status_at.
    rewrite list_elem_of_filter, elem_of_seq. split.
    - intros [Hj _]. destruct (steps !! j) as [s|]; [|done].
      simplify_eq/=. eauto.
    - intros (s & Hs & Hp). rewrite Hs. split; [by rewrite <- Hp|].
      apply lookup_lt_Some in Hs. lia. }
  destruct (sinkless_cycle (tc (dep_edge steps)) R) as [v Hv].
  - intros HRnil. assert (i0 ∈ R) as Hin by (apply HR; eauto).
    rewrite HRnil in Hin. by apply elem_of_nil in Hin.
  - intros j (s & Hs & Hp)%HR.
    assert (s ∈ steps) as Hin by by eapply list_elem_of_lookup_2.
    destruct (decide (Forall (λ d, dep_completed steps d) (step_depends_on s)))
      as [Hall|Hex].
    + exfalso.
      assert (j ∈ get_ready_steps steps) as Hj.
      { apply elem_of_get_ready_steps, ready_now_spec. exists s.
        split_and!; [done..|]. intros d Hd.
        by eapply Forall_forall in Hall. }
      rewrite Hnil in Hj. by apply elem_of_nil in Hj.
    + apply not_Forall_Exists in Hex; [|solve_decision].
      apply Exists_exists in Hex as (d & Hd & Hnot). simpl in Hnot.
      destruct (Hcl s d Hin Hd) as [j' Hj'].
      pose proof Hj' as (s' & Hs' & Hid)%get_step_elem.
      exists j'. split.
      * apply HR. exists s'. split; [done|].
        destruct (Hst s') as [?|Hc]; [by eapply list_elem_of_lookup_2|done|].
        exfalso. apply Hnot, dep_completed_spec. eauto.
      * apply tc_once. by exists s, d.
  - by apply (Hac v).
Qed.

(** ** The calls of a run *)

Section Trace.
Context {env : Environment}.

Lemma dispatch_calls i config m r m' :
  i < length (m_steps m) →
  dispatch i config m = (r, m') →
  (∃ so, r = Ok so) ∧
  dispatched m' = dispatched m ++ [i] ∧
  length (m_steps m') = length (m_steps m).
Proof.
  intros Hi. rewrite dispatch_eq.
  destruct (lookup_lt_is_Some_2 _ _ Hi) as [s ->]. simpl.
  destruct (datetime_now (m_world m)) as [t w1].
  destruct (run_fabric _ _ _ _ _ w1) as [o w2]. intros [= <- <-].
  split_and!; [by eexists| |]; unfold dispatched; simpl.
  - by rewrite fmap_app.
  - by rewrite length_alter.
Qed.

Lemma run_directly_calls i config m r m' :
  i < length (m_steps m) →
  run_directly i config m = (r, m') →
  dispatched m' = dispatched m ++ [i] ∧
  length (m_steps m') = length (m_steps m) ∧
  (∀ e, r = Raise e → ∃ msg, e = ExecutorError msg).
Proof.
  intros Hi. unfold run_directly, mbind, M_bind.
  destruct (dispatch i config m) as [[[sid o]|e] m1] eqn:Hd;
    apply dispatch_calls in Hd as ([so Hso] & Hc & Hl); try done.
  destruct o as [res|msg]; intros [= <- <-]; split_and!; try done.
  intros e [= <-]. eauto.
Qed.

Lemma run_sequentially_calls l config : ∀ results m r m',
  (∀ i, i ∈ l → i < length (m_steps m)) →
  run_sequentially l config results m = (r, m') →
  ∃ done, done `prefix_of` l ∧
    dispatched m' = dispatched m ++ done ∧
    length (m_steps m') = length (m_steps m) ∧
    (∀ out, r = Ok out → done = l) ∧
    (∀ e, r = Raise e → ∃ msg, e = ExecutorError msg).
Proof.
  induction l as [|i l IH]; intros results m r m' Hval; simpl.
  - intros [= <- <-]. exists []. rewrite app_nil_r. by split_and!.
  - unfold mbind, M_bind.
    destruct (run_directly i config m) as [[[sid res]|e] m1] eqn:Hd;
      apply run_directly_calls in Hd as (Hc & Hl & He);
      try (apply Hval; left).
    2:{ intros [= <- <-]. exists [i]. split_and!; try done.
        - by apply prefix_cons, prefix_nil.
        - intros e' [= <-]. by apply He. }
    set (m2 := if success res
               then mkMachine (m_steps m1) (<[sid := output res]> (m_outputs m1))
                      (m_world m1) (m_calls m1)
               else m1).
    assert (m_steps m2 = m_steps m1 ∧ dispatched m2 = dispatched m1) as [Hs2 Hc2]
      by (unfold m2; by destruct (success res)).
    assert ((if success res then set_output sid (output res) else mret ()) m1
            = (Ok (), m2)) as ->
      by (unfold m2, set_output; by destruct (success res)).
    intros Hrun. apply IH in Hrun as (done & Hpre & Hc' & Hl' & Hok & Hraise).
    2:{ intros j Hj. rewrite Hs2, Hl. apply Hval. by right. }
    exists (i :: done). split_and!.
    + by apply prefix_cons.
    + by rewrite Hc', Hc2, Hc, <- (assoc_L (++)).
    + by rewrite Hl', Hs2.
    + intros out ->. by rewrite (Hok _ eq_refl).
    + done.
Qed.

Lemma submit_all_calls l config : ∀ m r m',
  (∀ i, i ∈ l → i < length (m_steps m)) →
  submit_all l config m = (r, m') →
  (∃ sos, r = Ok sos) ∧
  dispatched m' = dispatched m ++ l ∧
  length (m_steps m') = length (m_steps m).
Proof.
  induction l as [|i l IH]; intros m r m' Hval; simpl.
  - intros [= <- <-]. rewrite app_nil_r. split_and!; [by eexists|done..].
  - unfold mbind, M_bind.
    destruct (dispatch i config m) as [[so|e] m1] eqn:Hd;
      apply dispatch_calls in Hd as ([so' Hso] & Hc & Hl);
      try (apply Hval; left); [|done].
    destruct (submit_all l config m1) as [[sos|e] m2] eqn:Hs;
      apply IH in Hs as ([sos' Hsos] & Hc' & Hl');
      try (intros j Hj; rewrite Hl; apply Hval; by right); [|done].
    intros [= <- <-]. split_and!; [by eexists| |congruence].
    by rewrite Hc', Hc, <- (assoc_L (++)).
Qed.

Lemma execute_step_group_calls g config m r m' :
  (∀ i, i ∈ g → i < length (m_steps m)) →
  _execute_step_group g config m = (r, m') →
  ∃ done, done `prefix_of` g ∧
    dispatched m' = dispatched m ++ done ∧
    length (m_steps m') = length (m_steps m) ∧
    (∀ out, r = Ok out → done = g) ∧
    (∀ e, r = Raise e → ∃ msg, e = ExecutorError msg).
Proof.
  intros Hval.
  assert (run_in_pool g config m = (r, m') →
    ∃ done, done `prefix_of` g ∧
      dispatched m' = dispatched m ++ done ∧
      length (m_steps m') = length (m_steps m) ∧
      (∀ out, r = Ok out → done = g) ∧
      (∀ e, r = Raise e → ∃ msg, e = ExecutorError msg)) as Hpool.
  { unfold run_in_pool, mbind, M_bind, picks, mret, M_ret.
    destruct (submit_all g config m) as [[sos|e] m1] eqn:Hs;
      apply submit_all_calls in Hs as ([sos' Hsos] & Hc & Hl); try done.
    intros [= <- <-]. exists g. by split_and!. }
  unfold _execute_step_group.
  destruct g as [|i [|i2 g]].
  - destruct (_ && _); [done|]. by apply run_sequentially_calls.
  - unfold mbind, M_bind, mret, M_ret.
    destruct (run_directly i config m) as [[[sid res]|e] m1] eqn:Hd;
      apply run_directly_calls in Hd as (Hc & Hl & He);
      try (apply Hval; left); intros [= <- <-]; exists [i];
      split_and!; try done.
    intros e' [= <-]. by apply He.
  - destruct (_ && _); [done|]. by apply run_sequentially_calls.
Qed.

Lemma apply_result_failure sid res config m e m' :
  apply_result sid res config m = (Raise e, m') →
  continue_on_error config = false ∧ e = step_failed_error sid res ∧
  success res = false.
Proof.
  rewrite apply_result_eq. destruct (get_step _ _); [|done].
  destruct (datetime_now _) as [t w1]. destruct (success res); [done|].
  destruct (continue_on_error config); [done|]. by intros [= <- <-].
Qed.

Lemma apply_results_calls results config : ∀ m r m',
  apply_results results config m = (r, m') →
  dispatched m' = dispatched m ∧
  length (m_steps m') = length (m_steps m) ∧
  (∀ e, r = Raise e → run_failure config e).
Proof.
  induction results as [|[sid res] results IH]; intros m r m'; simpl.
  - by intros [= <- <-].
  - unfold mbind, M_bind.
    destruct (apply_result sid res config m) as [[[]|e] m1] eqn:Ha.
    + apply apply_result_spec in Ha as (Hid & Hc & _).
      intros (Hc' & Hl' & He)%IH. split_and!; [|  |done].
      * unfold dispatched in *. by rewrite Hc', Hc.
      * rewrite Hl'. by rewrite <- (length_fmap step_id), Hid, length_fmap.
    + pose proof Ha as (Hid & Hc & _)%apply_result_spec.
      apply apply_result_failure in Ha as (Hcont & -> & Hres).
      intros [= <- <-]. split_and!.
      * unfold dispatched. by rewrite Hc.
      * by rewrite <- (length_fmap step_id), Hid, length_fmap.
      * intros e [= <-]. right. eauto.
Qed.

Lemma run_groups_calls groups config : ∀ m r m',
  (∀ i, i ∈ concat groups → i < length (m_steps m)) →
  run_groups groups config m = (r, m') →
  ∃ done, done `prefix_of` concat groups ∧
    dispatched m' = dispatched m ++ done ∧
    (r = Ok () → done = concat groups) ∧
    (∀ e, r = Raise e → run_failure config e).
Proof.
  induction groups as [|g groups IH]; intros m r m' Hval; simpl.
  - intros [= <- <-]. exists []. rewrite app_nil_r. by split_and!.
  - unfold mbind, M_bind.
    destruct (_execute_step_group g config m) as [[results|e] m1] eqn:He;
      apply execute_step_group_calls in He
        as (done & Hpre & Hc & Hl & Hok & Hraise);
      try (intros j Hj; apply Hval; simpl; set_solver).
    2:{ intros [= <- <-]. exists done. split_and!; [|done|done|].
        - by apply prefix_app_r.
        - intros e' [= <-]. left. by apply Hraise. }
    rewrite (Hok _ eq_refl) in Hc. clear Hok Hraise Hpre done.
    destruct (apply_results results config m1) as [[[]|e] m2] eqn:Ha;
      apply apply_results_calls in Ha as (Hc2 & Hl2 & He2).
    + intros Hrun. apply IH in Hrun as (done & Hpre & Hc' & Hok & Hraise).
      2:{ intros j Hj. rewrite Hl2, Hl. apply Hval. simpl. set_solver. }
      exists (g ++ done). split_and!.
      * by apply prefix_app.
      * by rewrite Hc', Hc2, Hc, <- (assoc_L (++)).
      * intros ->. by rewrite Hok.
      * done.
    + intros [= <- <-]. exists g. split_and!.
      * by apply prefix_app_r.
      * by rewrite Hc2.
      * done.
      * intros e' [= <-]. by apply He2.
Qed.

(** [execute_workflow] in terms of the plan and of the run of the groups. *)
Lemma execute_workflow_run workflow input_text w :
  ∃ plan steps0 res workflow' w' calls,
    _plan_execution_groups (wf_steps workflow) = Some (plan, steps0) ∧
    execute_workflow workflow input_text w
    = Some (res, workflow', w', calls) ∧
    (wf_status workflow' = if r_success res then COMPLETED else FAILED) ∧
    (r_success res = true ↔ r_error res = None) ∧
    match plan with
    | Raise e =>
        calls = [] ∧ e = cycle_error ∧ r_error res = Some cycle_error
    | Ok groups =>
        call_step <$> calls `prefix_of` concat groups ∧
        (r_success res = true → call_step <$> calls = concat groups) ∧
        (∀ e, r_error res = Some e → run_failure (wf_config workflow) e)
    end.
Proof.
  destruct (plan_total (wf_steps workflow)) as (plan & steps0 & Hplan & Hr).
  exists plan, steps0. destruct plan as [groups|e].
  - rewrite (execute_workflow_planned _ _ _ _ _ Hplan).
    destruct (datetime_now w) as [start w1].
    destruct (run_groups _ _ _) as [body m] eqn:Hrun.
    destruct (datetime_now (m_world m)) as [finish w2].
    eexists _, _, _, _. split; [done|]. split; [done|].
    apply run_groups_calls in Hrun as (done & Hpre & Hc & Hok & Hraise).
    2:{ simpl. intros i Hi.
        rewrite (plan_groups_perm _ _ _ Hplan) in Hi.
        apply elem_of_seq in Hi.
        destruct Hr as [[=]|(gs & [= <-] & ->)]. rewrite length_fmap. lia. }
    unfold dispatched in Hc. simpl in Hc. simpl.
    destruct body as [[]|e]; simpl; (split; [done|]); (split; [done|]);
      rewrite Hc; split_and!; try done.
    + intros _. by rewrite Hok.
    + intros e' [= <-]. by apply Hraise.
  - destruct (execute_workflow_unplanned workflow input_text w _ _ Hplan)
      as (res & workflow' & w' & Hex & Hs & _ & He & Hst).
    assert (e = cycle_error) as -> by by destruct Hr as [[= ->]|(? & [=] & _)].
    exists res, workflow', w', []. rewrite Hs, He, Hst. by split_and!.
Qed.
End Trace.

(** ** The order of the calls and the final statuses *)

Lemma earlier_in_prefix (groups : list (list nat)) done p i j :
  NoDup (concat groups) → done `prefix_of` concat groups →
  done !! p = Some i → strictly_earlier groups j i →
  ∃ q, q < p ∧ done !! q = Some j.
Proof.
  intros Hnd Hpre Hp (pre & g & post & -> & Hi & Hj).
  rewrite concat_app in Hnd, Hpre. simpl in Hnd, Hpre.
  apply list_elem_of_lookup_1 in Hj as [q Hq].
  pose proof (lookup_lt_Some _ _ _ Hq) as Hqlt.
  pose proof (prefix_lookup_Some _ _ _ _ Hp Hpre) as HpL.
  assert (length (concat pre) ≤ p) as Hle.
  { destruct (decide (length (concat pre) ≤ p)) as [|Hlt]; [done|]. exfalso.
    rewrite lookup_app_l in HpL by lia.
    apply NoDup_app in Hnd as (_ & Hdisj & _).
    eapply Hdisj; [by eapply list_elem_of_lookup_2|].
    apply elem_of_app. by left. }
  exists q. split; [lia|].
  apply lookup_lt_Some in Hp.
  rewrite (prefix_lookup_lt done _ q) by (done || lia).
  by apply lookup_app_l_Some.
Qed.

Lemma count_status_settled steps :
  (∀ s, s ∈ steps → step_status s = COMPLETED ∨ step_status s = FAILED) →
  count_status COMPLETED steps + count_status FAILED steps = length steps.
Proof.
  unfold count_status. induction steps as [|s steps IH]; intros H; [done|].
  rewrite !filter_cons. simpl.
  specialize (IH (λ t Ht, H t (list_elem_of_further _ _ _ Ht))).
  destruct (H s) as [Hs|Hs]; [left|..]; rewrite Hs in *;
    repeat case_decide; simplify_eq/=; lia.
Qed.

Lemma count_status_all v steps :
  (∀ s, s ∈ steps → step_status s = v) → count_status v steps = length steps.
Proof.
  unfold count_status. induction steps as [|s steps IH]; intros H; [done|].
  rewrite filter_cons, decide_True by (apply H; left). simpl.
  rewrite IH; [done|]. intros t Ht. apply H. by right.
Qed.

Lemma count_status_none v steps :
  (∀ s, s ∈ steps → step_status s ≠ v) → count_status v steps = 0.
Proof.
  unfold count_status. induction steps as [|s steps IH]; intros H; [done|].
  rewrite filter_cons, decide_False by (apply H; left).
  apply IH. intros t Ht. apply H. by right.
Qed.

Section Runs.
Context {env : Environment}.

(** X10.  The calls of the step executor respect the dependencies: in a
    run on a workflow without [COMPLETED] steps, whenever the executor is
    called for a step, every id in its [depends_on] names a step for which
    the executor was called earlier in the run. *)
Lemma execute_order workflow input_text w :
  none_completed (wf_steps workflow) →
  ∃ res workflow' w' calls,
    execute_workflow workflow input_text w = Some (res, workflow', w', calls) ∧
    ∀ p c s d, calls !! p = Some c →
      wf_steps workflow !! call_step c = Some s → d ∈ step_depends_on s →
      ∃ j q c', get_step (wf_steps workflow) d = Some j ∧ q < p ∧
                calls !! q = Some c' ∧ call_step c' = j.
Proof.
  intros Hnc.
  destruct (execute_workflow_run workflow input_text w)
    as (plan & steps0 & res & workflow' & w' & calls & Hplan & Hex & _ & _ & Hrun).
  exists res, workflow', w', calls. split; [done|].
  destruct plan as [groups|e].
  2:{ destruct Hrun as (-> & _). intros p c s d Hp. by rewrite lookup_nil in Hp. }
  destruct Hrun as (Hpre & _).
  intros p c s d Hp Hs Hd.
  destruct (plan_fresh_order _ _ _ Hnc Hplan _ _ _ Hs Hd) as (j & Hj & Hearlier).
  assert (NoDup (concat groups)) as Hnd.
  { rewrite (plan_groups_perm _ _ _ Hplan). apply NoDup_seq. }
  destruct (earlier_in_prefix groups (call_step <$> calls) p (call_step c) j)
    as (q & Hq & Hjq); [done|done|by rewrite list_lookup_fmap, Hp|done|].
  rewrite list_lookup_fmap in Hjq.
  destruct (calls !! q) as [c'|] eqn:Hc'; simplify_eq/=.
  by exists (call_step c'), q, c'.
Qed.

Lemma apply_results_done results config : ∀ m m',
  NoDup results.*1 →
  apply_results results config m = (Ok (), m') →
  ∀ x k, x ∈ results.*1 → get_step (m_steps m) x = Some k →
    ∃ s' res, m_steps m' !! k = Some s' ∧ step_result s' = Some res ∧
              step_status s' = if success res then COMPLETED else FAILED.
Proof.
  induction results as [|[sid res] results IH]; intros m m' Hnd; simpl.
  - intros _ x k []%elem_of_nil.
  - apply NoDup_cons in Hnd as [Hsid Hnd]. unfold mbind, M_bind.
    destruct (apply_result sid res config m) as [[[]|e] m1] eqn:Ha; [|done].
    apply apply_result_spec in Ha as (Hid & _ & _ & _ & Hat & _).
    intros Hrest x k [->|Hx]%elem_of_cons Hk.
    + destruct (Hat k Hk) as (s' & Hs' & Hr & Hst).
      apply apply_results_spec in Hrest as (_ & _ & _ & Hfr).
      exists s', res. rewrite Hfr; [done|].
      intros y Hy Hyk. rewrite (get_step_ids _ (m_steps m)) in Hyk by done.
      apply get_step_id in Hyk, Hk. simpl in *.
      assert (y = sid) as -> by congruence. done.
    + eapply IH; [done..|]. by rewrite (get_step_ids _ (m_steps m)).
Qed.

Lemma run_groups_done groups config : ∀ m m',
  NoDup (step_id <$> m_steps m) → NoDup (concat groups) →
  (∀ i, i ∈ concat groups → i < length (m_steps m)) →
  run_groups groups config m = (Ok (), m') →
  ∀ i, i ∈ concat groups →
    ∃ s' res, m_steps m' !! i = Some s' ∧ step_result s' = Some res ∧
              step_status s' = if success res then COMPLETED else FAILED.
Proof.
  induction groups as [|g groups IH]; intros m m' Hnd Hdis Hval; simpl.
  - by intros _ i ?%elem_of_nil.
  - simpl in Hdis. apply NoDup_app in Hdis as (Hg & Hdisj & Hrest).
    unfold mbind, M_bind.
    destruct (_execute_step_group g config m) as [[results|e] m1] eqn:He;
      [|done].
    destruct (apply_results results config m1) as [[[]|e] m2] eqn:Ha; [|done].
    pose proof (group_works_on _ _ _ _ _ _ _ Hnd He Ha) as (Hids & _).
    apply execute_step_group_spec in He as ((Hids1 & _) & _ & Hout).
    destruct (Hout _ eq_refl) as [Hndk Hkeys].
    intros Hrun i [Hi|Hi]%elem_of_app.
    + assert (is_Some ((step_id <$> m_steps m) !! i)) as [x Hx].
      { apply lookup_lt_is_Some. rewrite length_fmap. apply Hval.
        simpl. set_solver. }
      destruct (apply_results_done _ _ _ _ Hndk Ha x i)
        as (s' & res & Hs' & Hst & Hres).
      { apply Hkeys. eauto. }
      { rewrite (get_step_ids _ (m_steps m)) by done.
        by apply get_step_NoDup. }
      apply run_groups_works_on in Hrun as (_ & Hfr & _);
        [|by rewrite Hids].
      exists s', res. rewrite Hfr; [done|]. intros ?. by eapply Hdisj.
    + eapply IH; [| | |done|done].
      * by rewrite Hids.
      * done.
      * intros j Hj. rewrite <- (length_fmap step_id), Hids, length_fmap.
        apply Hval. simpl. set_solver.
Qed.

(** X11.  After a run that succeeds on a workflow with unique step ids,
    every step has a result and is [COMPLETED] when the result is a success
    and [FAILED] otherwise, so the successful and the failed steps add up
    to the total; with [continue_on_error = False] every step is
    [COMPLETED] and no step is counted as failed. *)
Lemma execute_success_statuses workflow input_text w res workflow' w' calls :
  NoDup (step_id <$> wf_steps workflow) →
  execute_workflow workflow input_text w = Some (res, workflow', w', calls) →
  r_success res = true →
  (∀ s, s ∈ wf_steps workflow' →
     ∃ r, step_result s = Some r ∧
          step_status s = if success r then COMPLETED else FAILED) ∧
  r_successful_steps res + r_failed_steps res = r_total_steps res ∧
  (continue_on_error (wf_config workflow) = false →
   (∀ s, s ∈ wf_steps workflow' → step_status s = COMPLETED) ∧
   r_successful_steps res = r_total_steps res ∧ r_failed_steps res = 0).
Proof.
  intros Hnd Hex Hsucc.
  destruct (plan_total (wf_steps workflow)) as (plan & steps0 & Hplan & Hr).
  destruct plan as [groups|e].
  2:{ destruct (execute_workflow_unplanned workflow input_text w _ _ Hplan)
        as (? & ? & ? & Hex' & Hs & _).
      rewrite Hex in Hex'. simplify_eq. congruence. }
  rewrite (execute_workflow_planned _ _ _ _ _ Hplan) in Hex.
  destruct (datetime_now w) as [start w1].
  destruct (run_groups _ _ _) as [body m] eqn:Hrun.
  destruct (datetime_now (m_world m)) as [finish w2].
  injection Hex as <- <- <- <-. simpl in *.
  destruct body as [[]|e]; [|done].
  destruct Hr as [[=]|(gs & [= <-] & ->)].
  assert (NoDup (concat groups)) as Hndg.
  { rewrite (plan_groups_perm _ _ _ Hplan). apply NoDup_seq. }
  assert (∀ i, i ∈ concat groups →
               i < length (set_status PENDING <$> wf_steps workflow)) as Hval.
  { intros i Hi. rewrite (plan_groups_perm _ _ _ Hplan) in Hi.
    apply elem_of_seq in Hi. rewrite length_fmap. lia. }
  assert (NoDup (step_id <$> (set_status PENDING <$> wf_steps workflow)))
    as Hnd0 by by rewrite reset_ids.
  assert (length (m_steps m) = length (wf_steps workflow)) as Hlen.
  { apply run_groups_works_on in Hrun as (Hids & _); [|done]. simpl in Hids.
    by rewrite <- (length_fmap step_id), Hids, !length_fmap. }
  assert (∀ s, s ∈ m_steps m → ∃ i, i ∈ concat groups ∧ m_steps m !! i = Some s)
    as Hpos.
  { intros s [i Hi]%list_elem_of_lookup_1. exists i. split; [|done].
    rewrite (plan_groups_perm _ _ _ Hplan). apply elem_of_seq.
    apply lookup_lt_Some in Hi. lia. }
  assert (Hall : ∀ s, s ∈ m_steps m →
            ∃ r, step_result s = Some r ∧
                 step_status s = if success r then COMPLETED else FAILED).
  { intros s (i & Hi & Hs)%Hpos.
    destruct (run_groups_done groups (wf_config workflow)
                (mkMachine (set_status PENDING <$> wf_steps workflow)
                   {["_initial" := input_text]} w1 []) m
                Hnd0 Hndg Hval Hrun i Hi)
      as (s' & r & Hs' & Hres & Hst).
    simplify_eq. eauto. }
  split_and!.
  - done.
  - apply count_status_settled. intros s (r & _ & ->)%Hall.
    destruct (success r); auto.
  - intros Hcont.
    assert (∀ s, s ∈ m_steps m → step_status s = COMPLETED) as Hcompl.
    { intros s (i & Hi & Hs)%Hpos.
      destruct (run_groups_ok groups (wf_config workflow)
                  (mkMachine (set_status PENDING <$> wf_steps workflow)
                     {["_initial" := input_text]} w1 []) m
                  Hnd0 Hndg Hval Hcont Hrun i Hi)
        as (s' & r & Hs' & Hst & Hres).
      by simplify_eq. }
    split_and!; [done|by apply count_status_all|].
    apply count_status_none. intros s Hs. by rewrite Hcompl.
Qed.
End Runs.

(** ** Shapes *)

Lemma shape_lookup (steps steps' : list WorkflowStep) j s' :
  shape <$> steps' = shape <$> steps → steps' !! j = Some s' →
  ∃ s, steps !! j = Some s ∧ shape s' = shape s.
Proof.
  intros Heq Hs'.
  assert ((shape <$> steps') !! j = Some (shape s')) as H
    by by rewrite list_lookup_fmap, Hs'.
  rewrite Heq, list_lookup_fmap in H.
  destruct (steps !! j) as [s|]; [|done]. simpl in H.
  exists s. split; [done|]. congruence.
Qed.

Lemma shape_fields s s0 :
  shape s = shape s0 →
  step_id s = step_id s0 ∧ step_pattern s = step_pattern s0 ∧
  step_timeout s = step_timeout s0 ∧ step_depends_on s = step_depends_on s0.
Proof. unfold shape. by intros [= -> -> _ _ -> -> _]. Qed.

Lemma shape_ids (steps steps' : list WorkflowStep) :
  shape <$> steps' = shape <$> steps → step_id <$> steps' = step_id <$> steps.
Proof.
  intros Heq.
  assert (∀ l : list WorkflowStep,
            step_id <$> l = (λ x, x.1.1.1.1.1.1) <$> (shape <$> l)) as H.
  { intros l. rewrite <- list_fmap_compose. by apply list_fmap_ext. }
  by rewrite !H, Heq.
Qed.

Lemma shape_length (steps steps' : list WorkflowStep) :
  shape <$> steps' = shape <$> steps → length steps' = length steps.
Proof. intros Heq. by rewrite <- (length_fmap shape), Heq, length_fmap. Qed.

Lemma alter_shape (f : WorkflowStep → WorkflowStep) (k : nat)
    (steps : list WorkflowStep) :
  (∀ s, shape (f s) = shape s) →
  shape <$> alter f k steps = shape <$> steps.
Proof.
  intros Hf. apply list_eq; intros j. rewrite !list_lookup_fmap.
  destruct (decide (j = k)) as [->|Hne].
  - rewrite list_lookup_alter_eq. destruct (steps !! k); simpl; [|done].
    by rewrite Hf.
  - by rewrite list_lookup_alter_ne.
Qed.

Lemma reset_shape (steps : list WorkflowStep) :
  shape <$> (set_status PENDING <$> steps) = shape <$> steps.
Proof. rewrite <- list_fmap_compose. by apply list_fmap_ext. Qed.

(** ** Input resolution *)

Lemma resolve_shape s s0 outputs :
  shape s = shape s0 →
  _resolve_step_input s outputs = _resolve_step_input s0 outputs.
Proof.
  intros (_ & _ & _ & Hd)%shape_fields. unfold _resolve_step_input.
  by rewrite Hd.
Qed.

Lemma available_outputs_agree deps (O1 O2 : gmap string string) :
  (∀ d, d ∈ deps → O1 !! d = O2 !! d) →
  available_outputs deps O1 = available_outputs deps O2.
Proof.
  unfold available_outputs. induction deps as [|d deps IH]; intros H; [done|].
  csimpl. rewrite (H d) by left. rewrite IH; [done|].
  intros d' Hd'. apply H. by right.
Qed.

Lemma resolve_agree s (O1 O2 : gmap string string) :
  O1 !! "_initial" = O2 !! "_initial" →
  (∀ d, d ∈ step_depends_on s → O1 !! d = O2 !! d) →
  _resolve_step_input s O1 = _resolve_step_input s O2.
Proof.
  intros Hinit Hdeps. unfold _resolve_step_input.
  destruct (step_depends_on s) as [|d1 [|d2 deps]] eqn:E.
  - by rewrite Hinit.
  - rewrite Hinit, (Hdeps d1); [done|left].
  - rewrite !collect_inputs, Hinit.
    assert (available_outputs (d1 :: d2 :: deps) O1
            = available_outputs (d1 :: d2 :: deps) O2) as ->; [|done].
    by apply available_outputs_agree.
Qed.

(** ** Dictionaries in insertion order *)

Lemma dict_set_elem_eq {V} (d : list (string * V)) k v :
  (k, v) ∈ dict_set d k v.
Proof.
  induction d as [|[k' v'] d IH]; simpl; [left|].
  case_decide; subst; [left|by right].
Qed.

Lemma dict_set_elem_ne {V} (d : list (string * V)) k v x r :
  (x, r) ∈ d → x ≠ k → (x, r) ∈ dict_set d k v.
Proof.
  intros Hin Hne. induction d as [|[k' v'] d IH]; simpl.
  - by apply elem_of_nil in Hin.
  - apply elem_of_cons in Hin as [E|Hin].
    + simplify_eq. rewrite decide_False by done. left.
    + case_decide; subst; right; auto.
Qed.

Lemma NoDup_fst_unique {V} (l : list (string * V)) x r r' :
  NoDup l.*1 → (x, r) ∈ l → (x, r') ∈ l → r = r'.
Proof.
  induction l as [|[k v] l IH]; intros Hnd H1 H2.
  - by apply elem_of_nil in H1.
  - rewrite fmap_cons in Hnd. apply NoDup_cons in Hnd as [Hk Hnd].
    apply elem_of_cons in H1 as [E1|H1];
      apply elem_of_cons in H2 as [E2|H2]; simplify_eq.
    + done.
    + destruct Hk. apply list_elem_of_fmap. by exists (k, r').
    + destruct Hk. apply list_elem_of_fmap. by exists (k, r).
    + by apply IH.
Qed.

(** ** The recorded outputs *)

Lemma recorded_fold_notin steps : ∀ (O : gmap string string) k,
  k ∉ step_id <$> steps →
  foldl (λ outputs s,
           match recorded_output s with
           | Some o => <[step_id s := o]> outputs
           | None => outputs
           end) O steps !! k = O !! k.
Proof.
  induction steps as [|s steps IH]; intros O k Hk; simpl; [done|].
  rewrite fmap_cons, not_elem_of_cons in Hk. destruct Hk as [Hne Hk].
  rewrite IH by done. destruct (recorded_output s); [|done].
  by rewrite lookup_insert_ne.
Qed.

Lemma recorded_outputs_initial input_text steps :
  "_initial" ∉ step_id <$> steps →
  recorded_outputs input_text steps !! "_initial" = Some input_text.
Proof.
  intros Hn. unfold recorded_outputs. rewrite recorded_fold_notin by done.
  apply lookup_singleton_eq.
Qed.

Lemma recorded_outputs_lookup input_text steps s :
  NoDup (step_id <$> steps) → "_initial" ∉ step_id <$> steps → s ∈ steps →
  recorded_outputs input_text steps !! step_id s = recorded_output s.
Proof.
  unfold recorded_outputs.
  assert (∀ O : gmap string string, O !! step_id s = None →
            NoDup (step_id <$> steps) → s ∈ steps →
            foldl (λ outputs s,
                     match recorded_output s with
                     | Some o => <[step_id s := o]> outputs
                     | None => outputs
                     end) O steps !! step_id s = recorded_output s) as H.
  { induction steps as [|t steps IH]; intros O HO Hnd Hs.
    - by apply elem_of_nil in Hs.
    - rewrite fmap_cons in Hnd. apply NoDup_cons in Hnd as [Ht Hnd]. simpl.
      apply elem_of_cons in Hs as [->|Hs].
      + rewrite recorded_fold_notin by done.
        destruct (recorded_output t); [by rewrite lookup_insert_eq|done].
      + apply IH; [|done..]. destruct (recorded_output t); [|done].
        rewrite lookup_insert_ne; [done|]. intros Heq. apply Ht.
        rewrite Heq. apply list_elem_of_fmap. eauto. }
  intros Hnd Hinit Hs. apply H; [|done..].
  apply lookup_singleton_ne. intros Heq. apply Hinit. rewrite Heq.
  apply list_elem_of_fmap. eauto.
Qed.

(** ** The data flow of the engine *)

Section Flow.
Context {env : Environment}.
Variable steps0 : list WorkflowStep.
Variable config : ExecutionConfig.
Hypothesis Hnd0 : NoDup (step_id <$> steps0).

Lemma in_group_cons i g k :
  in_group steps0 (i :: g) k ↔
  (step_id <$> steps0) !! i = Some k ∨ in_group steps0 g k.
Proof.
  unfold in_group. split.
  - intros (j & [->|Hj]%elem_of_cons & Hk); eauto.
  - intros [Hk|(j & Hj & Hk)]; [exists i|exists j]; split; try done;
      [left|by right].
Qed.

Lemma in_group_other i g k :
  i ∉ g → (step_id <$> steps0) !! i = Some k → ¬ in_group steps0 g k.
Proof.
  intros Hi Hk (j & Hj & Hk'). assert (i = j) by by eapply NoDup_lookup.
  by subst.
Qed.

Lemma in_group_id g k : in_group steps0 g k → k ∈ step_id <$> steps0.
Proof. intros (j & _ & Hk). by eapply list_elem_of_lookup_2. Qed.

Lemma dispatch_flow i m r m' :
  shape <$> m_steps m = shape <$> steps0 → i < length steps0 →
  dispatch i config m = (r, m') →
  shape <$> m_steps m' = shape <$> steps0 ∧ m_outputs m' = m_outputs m ∧
  ∃ c o s0, steps0 !! i = Some s0 ∧ r = Ok (step_id s0, o) ∧
            m_calls m' = m_calls m ++ [c] ∧ call_step c = i ∧
            call_of steps0 config (m_outputs m) c.
Proof.
  intros Hsh Hi. rewrite dispatch_eq.
  assert (i < length (m_steps m)) as Hi' by by rewrite (shape_length _ _ Hsh).
  destruct (lookup_lt_is_Some_2 _ _ Hi') as [s Hs]. rewrite Hs.
  destruct (shape_lookup _ _ _ _ Hsh Hs) as (s0 & Hs0 & Hshape). simpl.
  destruct (datetime_now (m_world m)) as [t w1].
  destruct (run_fabric _ _ _ _ _ w1) as [o w2]. intros [= <- <-]. simpl.
  split_and!.
  - rewrite <- Hsh. apply alter_shape. by intros [].
  - done.
  - eexists _, o, s0. split_and!; [done| |done|done|].
    + do 2 f_equal. by destruct (shape_fields _ _ Hshape) as (-> & _).
    + exists s0. simpl. split; [done|].
      rewrite (resolve_shape _ _ _ Hshape).
      by destruct (shape_fields _ _ Hshape) as (_ & -> & -> & _).
Qed.

Lemma run_directly_flow i m r m' :
  shape <$> m_steps m = shape <$> steps0 → i < length steps0 →
  run_directly i config m = (r, m') →
  shape <$> m_steps m' = shape <$> steps0 ∧ m_outputs m' = m_outputs m ∧
  ∃ c s0, steps0 !! i = Some s0 ∧ m_calls m' = m_calls m ++ [c] ∧
          call_step c = i ∧ call_of steps0 config (m_outputs m) c ∧
          ∀ sid res, r = Ok (sid, res) → sid = step_id s0.
Proof.
  intros Hsh Hi. unfold run_directly, mbind, M_bind.
  destruct (dispatch i config m) as [[[sid o]|e] m1] eqn:Hd;
    apply dispatch_flow in Hd
      as (Hsh1 & Ho & c & o' & s0 & Hs0 & Hr & Hc & Hcs & Hcall);
    try done.
  injection Hr as -> ->.
  destruct o' as [res|msg]; intros [= <- <-]; split_and!; try done;
    exists c, s0; split_and!; try done.
  by intros ?? [= <- _].
Qed.

Lemma run_sequentially_flow l : ∀ results m r m',
  shape <$> m_steps m = shape <$> steps0 →
  (∀ i, i ∈ l → i < length steps0) → NoDup l →
  run_sequentially l config results m = (r, m') →
  shape <$> m_steps m' = shape <$> steps0 ∧
  ∃ new, m_calls m' = m_calls m ++ new ∧
    (∀ c, c ∈ new →
       call_step c ∈ l ∧
       ∃ O, (∀ k, ¬ in_group steps0 l k → O !! k = m_outputs m !! k) ∧
            call_of steps0 config O c) ∧
    (∀ k, ¬ in_group steps0 l k → m_outputs m' !! k = m_outputs m !! k) ∧
    (∀ out, r = Ok out →
       (∀ x res, (x, res) ∈ results → ¬ in_group steps0 l x →
                 (x, res) ∈ out) ∧
       (∀ k, m_outputs m' !! k = m_outputs m !! k ∨
             ∃ res, (k, res) ∈ out ∧ success res = true ∧
                    m_outputs m' !! k = Some (output res))).
Proof.
  induction l as [|i l IH]; intros results m r m' Hsh Hval Hnd; simpl.
  - intros [= <- <-]. split; [done|]. exists []. rewrite app_nil_r.
    split_and!; [done|by intros c ?%elem_of_nil|done|].
    intros out [= <-]. split; [done|]. by left.
  - apply NoDup_cons in Hnd as [Hi Hnd]. unfold mbind, M_bind.
    destruct (run_directly i config m) as [[[sid res]|e] m1] eqn:Hd;
      apply run_directly_flow in Hd
        as (Hsh1 & Ho1 & c & s0 & Hs0 & Hc & Hcs & Hcall & Hsid);
      try done; try (apply Hval; left).
    2:{ intros [= <- <-]. split; [done|]. exists [c]. split_and!; [done| | |done].
        - intros c' ->%list_elem_of_singleton. rewrite Hcs.
          split; [left|]. exists (m_outputs m). by split.
        - intros k _. by rewrite Ho1. }
    specialize (Hsid _ _ eq_refl). subst sid.
    assert ((step_id <$> steps0) !! i = Some (step_id s0)) as Hid0
      by by rewrite list_lookup_fmap, Hs0.
    set (m2 := if success res
               then mkMachine (m_steps m1)
                      (<[step_id s0 := output res]> (m_outputs m1))
                      (m_world m1) (m_calls m1)
               else m1).
    assert (m_steps m2 = m_steps m1 ∧ m_calls m2 = m_calls m1) as [Hs2 Hc2]
      by (unfold m2; by destruct (success res)).
    assert (∀ k, k ≠ step_id s0 → m_outputs m2 !! k = m_outputs m !! k) as Ho2.
    { intros k Hk. unfold m2. destruct (success res); simpl; rewrite <- Ho1.
      - by rewrite lookup_insert_ne.
      - done. }
    assert ((if success res then set_output (step_id s0) (output res)
             else mret ()) m1 = (Ok (), m2)) as ->
      by (unfold m2, set_output; by destruct (success res)).
    intros Hrun. apply IH in Hrun as (Hsh' & new & Hc' & Hnew & Hout & Hok);
      [|by rewrite Hs2|intros j Hj; apply Hval; by right|done].
    assert (Hgrp : ∀ k, ¬ in_group steps0 (i :: l) k →
                        k ≠ step_id s0 ∧ ¬ in_group steps0 l k).
    { intros k Hk. rewrite in_group_cons in Hk. split; [|tauto].
      intros ->. tauto. }
    split; [done|]. exists (c :: new). split_and!.
    + by rewrite Hc', Hc2, Hc, <- (assoc_L (++)).
    + intros c' [->|Hc'']%elem_of_cons.
      * rewrite Hcs. split; [left|]. exists (m_outputs m). by split.
      * destruct (Hnew _ Hc'') as (Hin & O & HO & Hcall').
        split; [by right|]. exists O. split; [|done].
        intros k [Hk1 Hk2]%Hgrp. rewrite HO by done. by apply Ho2.
    + intros k [Hk1 Hk2]%Hgrp. rewrite Hout by done. by apply Ho2.
    + intros out ->. destruct (Hok _ eq_refl) as [Hkeep Hset].
      assert (¬ in_group steps0 l (step_id s0)) as Hnot
        by by eapply in_group_other.
      split.
      * intros x res0 Hx [Hx1 Hx2]%Hgrp. apply Hkeep; [|done].
        by apply dict_set_elem_ne.
      * intros k. destruct (Hset k) as [Hk|Hk]; [|by right].
        destruct (decide (k = step_id s0)) as [->|Hne];
          [|left; rewrite Hk; by apply Ho2].
        unfold m2 in Hk. destruct (success res) eqn:Hsucc.
        -- right. exists res. split_and!; [|done|].
           ++ apply Hkeep; [apply dict_set_elem_eq|done].
           ++ rewrite Hk. simpl. by rewrite lookup_insert_eq.
        -- left. by rewrite Hk, Ho1.
Qed.

Lemma submit_all_flow l : ∀ m r m',
  shape <$> m_steps m = shape <$> steps0 →
  (∀ i, i ∈ l → i < length steps0) →
  submit_all l config m = (r, m') →
  shape <$> m_steps m' = shape <$> steps0 ∧ m_outputs m' = m_outputs m ∧
  ∃ new, m_calls m' = m_calls m ++ new ∧
    ∀ c, c ∈ new → call_step c ∈ l ∧ call_of steps0 config (m_outputs m) c.
Proof.
  induction l as [|i l IH]; intros m r m' Hsh Hval; simpl.
  - intros [= <- <-]. split_and!; [done..|]. exists []. rewrite app_nil_r.
    split; [done|]. by intros c ?%elem_of_nil.
  - unfold mbind, M_bind.
    destruct (dispatch i config m) as [[so|e] m1] eqn:Hd;
      apply dispatch_flow in Hd
        as (Hsh1 & Ho1 & c & o & s0 & Hs0 & Hr & Hc & Hcs & Hcall);
      try done; try (apply Hval; left).
    destruct (submit_all l config m1) as [[sos|e] m2] eqn:Hs;
      apply IH in Hs as (Hsh2 & Ho2 & new & Hc' & Hnew);
      try done; try (intros j Hj; apply Hval; by right);
      intros [= <- <-]; (split_and!; [done|by rewrite Ho2|]);
      exists (c :: new); (split; [by rewrite Hc', Hc, <- (assoc_L (++))|]);
      intros c' [->|Hc'']%elem_of_cons;
      try (rewrite Hcs; split; [left|done]);
      destruct (Hnew _ Hc'') as [Hin Hcall']; (split; [by right|]);
      by rewrite <- Ho1.
Qed.

Lemma group_flow g m r m1 :
  shape <$> m_steps m = shape <$> steps0 →
  (∀ i, i ∈ g → i < length steps0) → NoDup g →
  _execute_step_group g config m = (r, m1) →
  shape <$> m_steps m1 = shape <$> steps0 ∧
  ∃ new, m_calls m1 = m_calls m ++ new ∧
    (∀ c, c ∈ new →
       call_step c ∈ g ∧
       ∃ O, (∀ k, ¬ in_group steps0 g k → O !! k = m_outputs m !! k) ∧
            call_of steps0 config O c) ∧
    (∀ k, ¬ in_group steps0 g k → m_outputs m1 !! k = m_outputs m !! k) ∧
    (∀ out, r = Ok out →
       ∀ k, m_outputs m1 !! k = m_outputs m !! k ∨
            ∃ res, (k, res) ∈ out ∧ success res = true ∧
                   m_outputs m1 !! k = Some (output res)).
Proof.
  intros Hsh Hval Hnd.
  assert (∀ l, (∀ i, i ∈ l → i < length steps0) → NoDup l →
    run_sequentially l config [] m = (r, m1) →
    shape <$> m_steps m1 = shape <$> steps0 ∧
    ∃ new, m_calls m1 = m_calls m ++ new ∧
      (∀ c, c ∈ new →
         call_step c ∈ l ∧
         ∃ O, (∀ k, ¬ in_group steps0 l k → O !! k = m_outputs m !! k) ∧
              call_of steps0 config O c) ∧
      (∀ k, ¬ in_group steps0 l k → m_outputs m1 !! k = m_outputs m !! k) ∧
      (∀ out, r = Ok out →
         ∀ k, m_outputs m1 !! k = m_outputs m !! k ∨
              ∃ res, (k, res) ∈ out ∧ success res = true ∧
                     m_outputs m1 !! k = Some (output res))) as Hseq.
  { intros l Hl Hndl Hrun.
    apply run_sequentially_flow in Hrun
      as (Hsh1 & new & Hc & Hnew & Hout & Hok); [|done..].
    split; [done|]. exists new. split_and!; [done..|].
    intros out ->. by destruct (Hok _ eq_refl). }
  assert (∀ l, (∀ i, i ∈ l → i < length steps0) →
    run_in_pool l config m = (r, m1) →
    shape <$> m_steps m1 = shape <$> steps0 ∧
    ∃ new, m_calls m1 = m_calls m ++ new ∧
      (∀ c, c ∈ new →
         call_step c ∈ l ∧
         ∃ O, (∀ k, ¬ in_group steps0 l k → O !! k = m_outputs m !! k) ∧
              call_of steps0 config O c) ∧
      (∀ k, ¬ in_group steps0 l k → m_outputs m1 !! k = m_outputs m !! k) ∧
      (∀ out, r = Ok out →
         ∀ k, m_outputs m1 !! k = m_outputs m !! k ∨
              ∃ res, (k, res) ∈ out ∧ success res = true ∧
                     m_outputs m1 !! k = Some (output res))) as Hpool.
  { intros l Hl. unfold run_in_pool, mbind, M_bind, picks, mret, M_ret.
    destruct (submit_all l config m) as [[sos|e] m2] eqn:Hs;
      apply submit_all_flow in Hs as (Hsh2 & Ho2 & new & Hc & Hnew);
      try done; intros [= <- <-]; (split; [done|]); exists new;
      (split_and!; [done| |by intros; rewrite Ho2|by intros; left; rewrite Ho2]);
      intros c Hc'; destruct (Hnew c Hc') as [Hin Hcall];
      (split; [done|]); exists (m_outputs m); by split. }
  unfold _execute_step_group.
  destruct g as [|i [|i2 g]].
  - destruct (_ && _); auto.
  - unfold mbind, M_bind, mret, M_ret.
    destruct (run_directly i config m) as [[[sid res]|e] m2] eqn:Hd;
      apply run_directly_flow in Hd
        as (Hsh2 & Ho2 & c & s0 & Hs0 & Hc & Hcs & Hcall & Hsid);
      try done; try (apply Hval; left); intros [= <- <-];
      (split; [done|]); exists [c];
      (split_and!; [done| |by intros; rewrite Ho2|by intros; left; rewrite Ho2]);
      intros c' ->%list_elem_of_singleton; rewrite Hcs;
      (split; [left|]); exists (m_outputs m); by split.
  - destruct (_ && _); auto.
Qed.

Lemma apply_result_flow sid res m r m' :
  shape <$> m_steps m = shape <$> steps0 →
  apply_result sid res config m = (r, m') →
  shape <$> m_steps m' = shape <$> steps0 ∧
  (∀ k, k ≠ sid → m_outputs m' !! k = m_outputs m !! k) ∧
  (is_Some (get_step (m_steps m) sid) →
   m_outputs m' !! sid
   = if success res then Some (output res) else m_outputs m !! sid).
Proof.
  intros Hsh. rewrite apply_result_eq.
  destruct (get_step (m_steps m) sid) as [k|] eqn:Hk.
  2:{ intros [= <- <-]. split_and!; [done..|]. by intros [??]. }
  destruct (datetime_now (m_world m)) as [t w1].
  destruct (success res); intros [= <- <-]; simpl; split_and!; try done.
  - rewrite <- Hsh. apply alter_shape. by intros [].
  - intros k' Hk'. by rewrite lookup_insert_ne.
  - intros _. by rewrite lookup_insert_eq.
  - rewrite <- Hsh. apply alter_shape. by intros [].
Qed.

Lemma apply_results_flow out : ∀ m r m',
  shape <$> m_steps m = shape <$> steps0 →
  apply_results out config m = (r, m') →
  shape <$> m_steps m' = shape <$> steps0 ∧
  (∀ k, k ∉ out.*1 → m_outputs m' !! k = m_outputs m !! k) ∧
  (r = Ok () → NoDup out.*1 →
   (∀ x, x ∈ out.*1 → is_Some (get_step steps0 x)) →
   ∀ x res, (x, res) ∈ out →
     m_outputs m' !! x
     = if success res then Some (output res) else m_outputs m !! x).
Proof.
  induction out as [|[sid res] out IH]; intros m r m' Hsh; simpl.
  - intros [= <- <-]. split_and!; [done..|].
    by intros _ _ _ x res' ?%elem_of_nil.
  - unfold mbind, M_bind.
    destruct (apply_result sid res config m) as [[[]|e] m1] eqn:Ha;
      apply apply_result_flow in Ha as (Hsh1 & Hne & Heq); try done.
    2:{ intros [= <- <-]. split_and!; [done| |done].
        intros k Hk. apply Hne. set_solver. }
    intros (Hsh2 & Hfr & Hok)%IH; [|done]. split_and!; [done| |].
    + intros k Hk. rewrite not_elem_of_cons in Hk. destruct Hk as [Hk1 Hk2].
      rewrite Hfr by done. by apply Hne.
    + intros -> Hnd Hget x res' Hx.
      apply NoDup_cons in Hnd as [Hsid Hnd].
      apply elem_of_cons in Hx as [E|Hx].
      * simplify_eq. rewrite Hfr by done. apply Heq.
        rewrite (get_step_ids _ steps0) by by apply shape_ids.
        apply Hget. left.
      * rewrite (Hok eq_refl Hnd) with (res := res'); [|set_solver|done].
        rewrite Hne; [done|]. intros ->. apply Hsid.
        apply list_elem_of_fmap. by exists (sid, res').
Qed.
End Flow.

Section FlowRun.
Context {env : Environment}.
Variable steps0 : list WorkflowStep.
Variable config : ExecutionConfig.
Variable input_text : string.
Hypothesis Hnd0 : NoDup (step_id <$> steps0).
Hypothesis Hinit0 : "_initial" ∉ step_id <$> steps0.

Lemma apply_results_recorded results : ∀ m m',
  NoDup results.*1 →
  apply_results results config m = (Ok (), m') →
  ∀ x res k, (x, res) ∈ results → get_step (m_steps m) x = Some k →
    ∃ s', m_steps m' !! k = Some s' ∧ step_result s' = Some res ∧
          step_status s' = if success res then COMPLETED else FAILED.
Proof.
  induction results as [|[sid res] results IH]; intros m m' Hnd; simpl.
  - intros _ x res k []%elem_of_nil.
  - apply NoDup_cons in Hnd as [Hsid Hnd]. unfold mbind, M_bind.
    destruct (apply_result sid res config m) as [[[]|e] m1] eqn:Ha; [|done].
    apply apply_result_spec in Ha as (Hid & _ & _ & _ & Hat & _).
    intros Hrest x res' k [E|Hx]%elem_of_cons Hk.
    + simplify_eq. destruct (Hat k Hk) as (s' & Hs' & Hr & Hst).
      apply apply_results_spec in Hrest as (_ & _ & _ & Hfr).
      exists s'. rewrite Hfr; [done|].
      intros y Hy Hyk. rewrite (get_step_ids _ (m_steps m)) in Hyk by done.
      apply get_step_id in Hyk, Hk. simpl in *.
      assert (y = sid) as -> by congruence. done.
    + eapply IH; [done..|]. by rewrite (get_step_ids _ (m_steps m)).
Qed.

Lemma settled_recorded D (O : gmap string string) c steps' :
  settled steps0 config D O c →
  shape <$> steps' = shape <$> steps0 →
  O !! "_initial" = Some input_text →
  (∀ j s, j ∈ D → steps' !! j = Some s → O !! step_id s = recorded_output s) →
  call_of steps0 config (recorded_outputs input_text steps') c.
Proof.
  intros (s0 & Hs0 & Hdeps & Hc) Hsh HO Hrec. exists s0. split; [done|].
  rewrite Hc at 1. f_equal.
  pose proof (shape_ids _ _ Hsh) as Hids.
  apply resolve_agree.
  - rewrite HO. symmetry. apply recorded_outputs_initial. by rewrite Hids.
  - intros d Hd. destruct (Hdeps d Hd) as (j & Hj & Hget).
    apply get_step_elem in Hget as (sj & Hsj & Hid).
    assert (j < length steps') as Hlt.
    { rewrite (shape_length _ _ Hsh). by eapply lookup_lt_Some. }
    destruct (lookup_lt_is_Some_2 _ _ Hlt) as [s' Hs'].
    destruct (shape_lookup _ _ _ _ Hsh Hs') as (sj' & Hsj' & Hshape).
    assert (sj' = sj) as -> by congruence.
    assert (step_id s' = d) as <-
      by (destruct (shape_fields _ _ Hshape) as (? & _); congruence).
    rewrite (Hrec j s' Hj Hs'). symmetry.
    apply recorded_outputs_lookup; rewrite ?Hids; try done.
    by eapply list_elem_of_lookup_2.
Qed.

Lemma settled_weaken D D' (O O' : gmap string string) c :
  settled steps0 config D O c →
  (∀ j, j ∈ D → j ∈ D') →
  O !! "_initial" = O' !! "_initial" →
  (∀ j s0, j ∈ D → steps0 !! j = Some s0 →
           O !! step_id s0 = O' !! step_id s0) →
  settled steps0 config D' O' c.
Proof.
  intros (s0 & Hs0 & Hdeps & Hc) Hsub Hinit Hagree. exists s0.
  split_and!; [done| |].
  - intros d Hd. destruct (Hdeps d Hd) as (j & Hj & Hget). eauto.
  - rewrite Hc at 1. f_equal. apply resolve_agree; [done|].
    intros d Hd. destruct (Hdeps d Hd) as (j & Hj & Hget).
    apply get_step_elem in Hget as (sj & Hsj & <-). by eapply Hagree.
Qed.

Lemma new_call_settled D g (O Om : gmap string string) c :
  (∀ i s d, i ∈ g → steps0 !! i = Some s → d ∈ step_depends_on s →
            ∃ j, j ∈ D ∧ get_step steps0 d = Some j) →
  NoDup (D ++ g) → call_step c ∈ g →
  (∀ k, ¬ in_group steps0 g k → O !! k = Om !! k) →
  call_of steps0 config O c →
  settled steps0 config D Om c.
Proof.
  intros Hg Hnd Hin HO (s0 & Hs0 & Hc). exists s0. split_and!; [done| |].
  - intros d Hd. by eapply Hg.
  - rewrite Hc at 1. f_equal. apply resolve_agree.
    + apply HO. intros Hgrp. by apply in_group_id in Hgrp.
    + intros d Hd. destruct (Hg _ _ _ Hin Hs0 Hd) as (j & Hj & Hget).
      apply HO. eapply (in_group_other steps0 Hnd0); [|by apply get_step_id].
      apply NoDup_app in Hnd as (_ & Hdisj & _). by apply Hdisj.
Qed.

Lemma run_groups_flow groups : ∀ D m r m',
  NoDup (D ++ concat groups) →
  (∀ i, i ∈ concat groups → i < length steps0) →
  deps_before steps0 D groups →
  flow_state steps0 config input_text D m →
  run_groups groups config m = (r, m') →
  ∀ c, c ∈ m_calls m' →
    call_of steps0 config (recorded_outputs input_text (m_steps m')) c.
Proof.
  induction groups as [|g groups IH]; intros D m r m' Hnd Hval Hdeps HK; simpl.
  - intros [= <- <-] c Hc.
    destruct HK as (Hsh & Hinit & Hrec & Hnone & Hcalls).
    eapply settled_recorded; [by apply Hcalls|done..].
  - simpl in Hnd, Hdeps. destruct Hdeps as [Hg Hrest].
    rewrite (assoc_L (++)) in Hnd.
    pose proof Hnd as (HndDg & Hdisj2 & Hndrest)%NoDup_app.
    pose proof HndDg as (HndD & Hdisj & Hndg)%NoDup_app.
    destruct HK as (Hsh & Hinit & Hrec & Hnone & Hcalls).
    assert (NoDup (step_id <$> m_steps m)) as Hndm
      by by rewrite (shape_ids _ _ Hsh).
    assert (Hvalg : ∀ i, i ∈ g → i < length steps0)
      by (intros i Hi; apply Hval; simpl; set_solver).
    unfold mbind, M_bind.
    destruct (_execute_step_group g config m) as [r1 m1] eqn:He.
    pose proof He as Hgf.
    apply (group_flow steps0 config) in Hgf
      as (Hsh1 & new & Hc1 & Hnew & Hout1 & Hok1); [|done..].
    pose proof (execute_step_group_spec _ _ _ _ _ He) as (Hw1 & _ & Hkeys).
    assert (Hall : ∀ c, c ∈ m_calls m ++ new →
                        settled steps0 config D (m_outputs m) c).
    { intros c [Hc|Hc]%elem_of_app; [by apply Hcalls|].
      destruct (Hnew c Hc) as (Hin & O & HO & Hcall).
      by eapply new_call_settled. }
    assert (Hfin : ∀ m2, shape <$> m_steps m2 = shape <$> steps0 →
              m_calls m2 = m_calls m1 →
              (∀ j, j ∉ g → m_steps m2 !! j = m_steps m !! j) →
              ∀ c, c ∈ m_calls m2 →
                call_of steps0 config
                  (recorded_outputs input_text (m_steps m2)) c).
    { intros m2 Hsh2 Hc2 Hfr c Hc. rewrite Hc2, Hc1 in Hc.
      eapply settled_recorded; [by apply Hall|done|done|].
      intros j s Hj Hs. rewrite Hfr in Hs by (intros ?; by eapply Hdisj).
      by eapply Hrec. }
    destruct r1 as [out|e].
    2:{ intros [= <- <-]. apply Hfin; [done|done|]. by destruct Hw1 as (_ & ? & _). }
    destruct (apply_results out config m1) as [r2 m2] eqn:Ha.
    pose proof Ha as Haf.
    apply (apply_results_flow steps0 config) in Haf
      as (Hsh2 & Hfr2 & Hok2); [|done..].
    pose proof (group_works_on _ _ _ _ _ _ _ Hndm He Ha) as (_ & Hfr & _).
    pose proof (apply_results_spec _ _ _ _ _ Ha) as (_ & Hcalls2 & _).
    destruct r2 as [[]|e]; [|intros [= <- <-]; by apply Hfin].
    intros Hrun. eapply (IH (D ++ g)); [done| | |  |exact Hrun].
    { intros i Hi. apply Hval. simpl. set_solver. }
    { done. }
    destruct (Hkeys _ eq_refl) as [Hndk Hkeys'].
    assert (Hk : ∀ x, x ∈ out.*1 ↔ in_group steps0 g x).
    { intros x. rewrite Hkeys'. unfold in_group.
      by rewrite (shape_ids _ _ Hsh). }
    assert (Hget : ∀ x, x ∈ out.*1 → is_Some (get_step steps0 x)).
    { intros x Hx%Hk. by apply get_step_is_Some, (in_group_id steps0 g). }
    specialize (Hok2 eq_refl Hndk Hget). specialize (Hok1 _ eq_refl).
    assert (Hsame : ∀ k, ¬ in_group steps0 g k →
                         m_outputs m2 !! k = m_outputs m !! k).
    { intros k Hk'. rewrite Hfr2 by by rewrite Hk. by apply Hout1. }
    assert (Hinit2 : m_outputs m2 !! "_initial" = Some input_text).
    { rewrite Hsame; [done|]. intros Hgrp. by apply in_group_id in Hgrp. }
    assert (HsameD : ∀ j s0, j ∈ D → steps0 !! j = Some s0 →
                       m_outputs m !! step_id s0 = m_outputs m2 !! step_id s0).
    { intros j s0 Hj Hs0. symmetry. apply Hsame.
      eapply (in_group_other steps0 Hnd0); [by eapply Hdisj|].
      by rewrite list_lookup_fmap, Hs0. }
    split_and!.
    + done.
    + done.
    + intros j s [Hj|Hj]%elem_of_app Hs.
      * pose proof Hs as Hs'. rewrite Hfr in Hs' by by eapply Hdisj.
        destruct (shape_lookup _ _ _ _ Hsh Hs') as (s0 & Hs0 & Hshape).
        assert (step_id s = step_id s0) as Hid
          by by destruct (shape_fields _ _ Hshape).
        rewrite Hid, <- (HsameD j s0 Hj Hs0), <- Hid. by eapply Hrec.
      * destruct (shape_lookup _ _ _ _ Hsh2 Hs) as (s0 & Hs0 & Hshape).
        assert (step_id s = step_id s0) as Hid
          by by destruct (shape_fields _ _ Hshape).
        assert ((step_id <$> steps0) !! j = Some (step_id s0)) as Hid0
          by by rewrite list_lookup_fmap, Hs0.
        assert (step_id s0 ∈ out.*1) as Hin by (apply Hk; by exists j).
        apply list_elem_of_fmap in Hin as ([x res] & Hx & Hin).
        simpl in Hx. subst x.
        destruct (apply_results_recorded out m1 m2 Hndk Ha _ res j Hin)
          as (s' & Hs' & Hres & Hst).
        { apply get_step_NoDup; rewrite (shape_ids _ _ Hsh1); done. }
        assert (s' = s) as -> by congruence.
        rewrite Hid, (Hok2 _ _ Hin). unfold recorded_output.
        rewrite Hst, Hres. destruct (success res) eqn:Hsucc; [done|].
        assert ((if decide (FAILED = COMPLETED) then output <$> Some res
                 else None) = None) as -> by done.
        destruct (Hok1 (step_id s0)) as [->|(res' & Hin' & Hs1 & _)].
        -- eapply Hnone; [|done]. intros Hj'. by eapply Hdisj.
        -- assert (res' = res) as -> by by eapply NoDup_fst_unique.
           congruence.
    + intros j s0 Hj Hs0. rewrite not_elem_of_app in Hj.
      destruct Hj as [HjD Hjg]. rewrite Hsame; [by eapply Hnone|].
      eapply (in_group_other steps0 Hnd0); [done|].
      by rewrite list_lookup_fmap, Hs0.
    + intros c Hc. rewrite Hcalls2, Hc1 in Hc.
      eapply settled_weaken; [by apply Hall| |by rewrite Hinit2|done].
      intros j Hj. apply elem_of_app. by left.
Qed.
End FlowRun.

(** ** From the order of the plan to [deps_before] *)

Lemma same_group {A} (pre p : list (list A)) g g' rest q i :
  NoDup (concat (pre ++ g :: rest)) →
  pre ++ g :: rest = p ++ g' :: q → i ∈ g → i ∈ g' → p = pre.
Proof.
  revert p. induction pre as [|a pre IH]; intros p Hnd Heq Hi Hi'.
  - destruct p as [|b p]; [done|]. simpl in *. injection Heq as <- ->.
    apply NoDup_app in Hnd as (_ & Hdisj & _). exfalso.
    eapply Hdisj; [done|]. rewrite concat_app. simpl. set_solver.
  - destruct p as [|b p]; simpl in *.
    + injection Heq as <- <-. apply NoDup_app in Hnd as (_ & Hdisj & _).
      exfalso. eapply Hdisj; [done|]. rewrite concat_app. simpl. set_solver.
    + injection Heq as <- Heq. f_equal.
      apply NoDup_app in Hnd as (_ & _ & Hnd). by eapply IH.
Qed.

Lemma order_deps_before steps groups :
  NoDup (concat groups) →
  (∀ i s d, steps !! i = Some s → d ∈ step_depends_on s →
     ∃ j, get_step steps d = Some j ∧ strictly_earlier groups j i) →
  deps_before steps [] groups.
Proof.
  intros Hnd Hord.
  assert (∀ rest pre, groups = pre ++ rest →
            deps_before steps (concat pre) rest) as H.
  { induction rest as [|g rest IH]; intros pre Heq; [done|]. simpl. split.
    - intros i s d Hi Hs Hd.
      destruct (Hord i s d Hs Hd) as (j & Hj & p & g' & q & Heq' & Hi' & Hjp).
      exists j. split; [|done]. rewrite Heq in Heq', Hnd.
      by rewrite <- (same_group pre p g g' rest q i Hnd Heq' Hi Hi').
    - specialize (IH (pre ++ [g])).
      rewrite concat_app in IH. simpl in IH. rewrite app_nil_r in IH.
      apply IH. by rewrite <- (assoc_L (++)). }
  by apply (H groups []).
Qed.

Section DataFlow.
Context {env : Environment}.

(** Every call of a run on a workflow with unique ids and without
    completed steps is made on the input resolved from the outputs that
    the workflow records at the end of the run. *)
Lemma execute_data_flow workflow input_text w :
  none_completed (wf_steps workflow) →
  NoDup (step_id <$> wf_steps workflow) →
  "_initial" ∉ step_id <$> wf_steps workflow →
  ∃ res workflow' w' calls,
    execute_workflow workflow input_text w = Some (res, workflow', w', calls) ∧
    ∀ c, c ∈ calls →
      ∃ s, wf_steps workflow !! call_step c = Some s ∧
           c = mkCall (call_step c) (step_pattern s)
                 (_resolve_step_input s
                    (recorded_outputs input_text (wf_steps workflow')))
                 (provider (wf_config workflow)) (model (wf_config workflow))
                 (step_timeout s).
Proof.
  intros Hnc Hnd Hinit.
  destruct (plan_total (wf_steps workflow)) as (plan & steps0 & Hplan & Hr).
  destruct plan as [groups|e].
  2:{ destruct (execute_workflow_unplanned workflow input_text w _ _ Hplan)
        as (res & workflow' & w' & Hex & _).
      exists res, workflow', w', []. split; [done|]. by intros c ?%elem_of_nil. }
  rewrite (execute_workflow_planned _ _ _ _ _ Hplan).
  destruct (datetime_now w) as [start w1].
  destruct (run_groups _ _ _) as [body m] eqn:Hrun.
  destruct (datetime_now (m_world m)) as [finish w2].
  eexists _, _, _, _. split; [done|]. simpl.
  destruct Hr as [[=]|(gs & [= <-] & ->)].
  assert (NoDup (concat groups)) as Hndg.
  { rewrite (plan_groups_perm _ _ _ Hplan). apply NoDup_seq. }
  set (steps0 := set_status PENDING <$> wf_steps workflow) in *.
  assert (shape <$> steps0 = shape <$> wf_steps workflow) as Hsh0
    by apply reset_shape.
  pose proof (shape_ids _ _ Hsh0) as Hids0.
  assert (∀ c, c ∈ m_calls m →
            call_of steps0 (wf_config workflow)
              (recorded_outputs input_text (m_steps m)) c) as Hflow.
  { assert (NoDup (step_id <$> steps0)) as Hnd0 by by rewrite Hids0.
    assert ("_initial" ∉ step_id <$> steps0) as Hinit0 by by rewrite Hids0.
    apply (run_groups_flow steps0 (wf_config workflow) input_text Hnd0 Hinit0
             groups []
             (mkMachine steps0 {["_initial" := input_text]} w1 []) body m);
      [| | | |exact Hrun].
    - done.
    - intros i Hi. rewrite (plan_groups_perm _ _ _ Hplan) in Hi.
      apply elem_of_seq in Hi. unfold steps0. rewrite length_fmap. lia.
    - apply order_deps_before; [done|].
      intros i s d Hs Hd.
      destruct (shape_lookup _ _ _ _ Hsh0 Hs) as (s' & Hs' & Hshape).
      assert (step_depends_on s = step_depends_on s') as Hdeps
        by by destruct (shape_fields _ _ Hshape) as (_ & _ & _ & ?).
      rewrite Hdeps in Hd.
      destruct (plan_fresh_order _ _ _ Hnc Hplan i s' d Hs' Hd)
        as (j & Hj & Hearlier).
      exists j. split; [|done]. by rewrite (get_step_ids _ (wf_steps workflow)).
    - split_and!; simpl.
      + done.
      + apply lookup_singleton_eq.
      + intros j s []%elem_of_nil.
      + intros j s _ Hs. apply lookup_singleton_ne. intros Heq.
        apply Hinit. rewrite <- Hids0, Heq. apply list_elem_of_fmap.
        exists s. split; [done|]. by eapply list_elem_of_lookup_2.
      + intros c []%elem_of_nil. }
  intros c Hc. destruct (Hflow c Hc) as (s0 & Hs0 & Heq).
  destruct (shape_lookup _ _ _ _ Hsh0 Hs0) as (s & Hs & Hshape).
  exists s. split; [done|]. rewrite Heq at 1.
  rewrite (resolve_shape _ _ _ Hshape).
  by destruct (shape_fields _ _ Hshape) as (_ & -> & -> & _).
Qed.
End DataFlow.

(** ** Runs that stop at the first failure *)

Lemma resolve_all s (O : gmap string string) input_text (f : string → string) :
  O !! "_initial" = Some input_text →
  (∀ d, d ∈ step_depends_on s → O !! d = Some (f d)) →
  _resolve_step_input s O
  = match step_depends_on s with
    | [] => input_text
    | deps => String.concat separator (f <$> deps)
    end.
Proof.
  intros Hinit Hdeps. unfold _resolve_step_input.
  destruct (step_depends_on s) as [|d1 [|d2 deps]] eqn:E.
  - by rewrite Hinit.
  - rewrite (Hdeps d1) by left. done.
  - rewrite collect_inputs, (left_id_L [] (++)).
    assert (available_outputs (d1 :: d2 :: deps) O = f <$> d1 :: d2 :: deps)
      as ->; [|done].
    unfold available_outputs.
    generalize dependent (d1 :: d2 :: deps). intros l _ Hl.
    induction l as [|d l IH]; [done|]. csimpl.
    rewrite (Hl d) by left. simpl. f_equal. apply IH.
    intros d' Hd'. apply Hl. by right.
Qed.

Lemma earlier_in_finished (pre rest : list (list nat)) j i :
  NoDup (concat (pre ++ rest)) →
  strictly_earlier (pre ++ rest) j i →
  i ∈ concat pre ++ default [] (head rest) →
  j ∈ concat pre.
Proof.
  intros Hnd (p & g' & q & Heq & Hi' & Hj) Hi.
  apply elem_of_app in Hi as [Hi|Hi].
  - apply elem_of_concat in Hi as (a & Hia & Ha).
    apply list_elem_of_split in Ha as (pre1 & pre2 & ->).
    rewrite <- app_assoc in Heq, Hnd. simpl in Heq, Hnd.
    rewrite (same_group pre1 p a g' (pre2 ++ rest) q i Hnd Heq Hia Hi') in Hj.
    rewrite concat_app. apply elem_of_app. by left.
  - destruct rest as [|g rest]; [by apply elem_of_nil in Hi|]. simpl in Hi.
    by rewrite (same_group pre p g g' rest q i Hnd Heq Hi Hi') in Hj.
Qed.

Section Strict.
Context {env : Environment}.

(** With [continue_on_error = False] a run finishes a prefix of the groups,
    whose steps are all [COMPLETED], and calls the executor for these steps
    and for steps of the next group only. *)
Lemma run_groups_finished groups config m r m' :
  NoDup (step_id <$> m_steps m) → NoDup (concat groups) →
  (∀ i, i ∈ concat groups → i < length (m_steps m)) →
  continue_on_error config = false →
  run_groups groups config m = (r, m') →
  ∃ pre rest,
    groups = pre ++ rest ∧
    (∀ i, i ∈ concat pre →
       ∃ s' res, m_steps m' !! i = Some s' ∧ step_status s' = COMPLETED ∧
                 step_result s' = Some res ∧ success res = true) ∧
    ∃ new, m_calls m' = m_calls m ++ new ∧
      ∀ c, c ∈ new → call_step c ∈ concat pre ++ default [] (head rest).
Proof.
  intros Hnd Hndg Hval Hcont Hrun.
  assert (Hboth : ∀ gs m2, NoDup (concat gs) →
            (∀ i, i ∈ concat gs → i < length (m_steps m)) →
            run_groups gs config m = (Ok (), m2) →
            ∀ i, i ∈ concat gs →
              ∃ s' res, m_steps m2 !! i = Some s' ∧
                step_status s' = COMPLETED ∧ step_result s' = Some res ∧
                success res = true).
  { intros gs m2 Hndgs Hvalgs Hgs i Hi.
    destruct (run_groups_ok gs config m m2 Hnd Hndgs Hvalgs Hcont Hgs i Hi)
      as (s' & res & Hs' & Hst & Hres).
    destruct (run_groups_done gs config m m2 Hnd Hndgs Hvalgs Hgs i Hi)
      as (s'' & res' & Hs'' & Hres' & Hst').
    assert (s'' = s') as -> by congruence.
    assert (res' = res) as -> by congruence.
    exists s', res. split_and!; [done..|].
    destruct (success res); [done|congruence]. }
  destruct r as [[]|e].
  - exists groups, []. split; [by rewrite app_nil_r|]. split.
    + by apply Hboth.
    + apply run_groups_works_on in Hrun as (_ & _ & new & Hc & Hnew); [|done].
      exists new. split; [done|]. intros c Hc'. rewrite app_nil_r. auto.
  - pose proof Hrun as (pre & g & post & m1 & -> & Hpre & Hw)%run_groups_raise;
      [|done].
    exists pre, (g :: post). split; [done|].
    rewrite concat_app in Hndg, Hval. simpl in Hndg.
    apply NoDup_app in Hndg as (Hndpre & Hdisj & Hndrest).
    apply NoDup_app in Hndrest as (Hndg & _ & _).
    pose proof (run_groups_works_on _ _ _ _ _ Hnd Hpre)
      as (Hids1 & _ & new1 & Hc1 & Hnew1).
    destruct Hw as (Hids2 & Hfr2 & new2 & Hc2 & Hnew2).
    split.
    + intros i Hi.
      destruct (Hboth pre m1 Hndpre) with (i := i)
        as (s' & res & Hs' & Hst & Hres & Hsucc); [|done..|].
      { intros j Hj. apply Hval, elem_of_app. by left. }
      exists s', res. rewrite Hfr2; [done|]. intros Hig.
      eapply Hdisj; [done|]. simpl. apply elem_of_app. by left.
    + exists (new1 ++ new2). split; [by rewrite Hc2, Hc1, (assoc_L (++))|].
      intros c [Hc|Hc]%elem_of_app; simpl; apply elem_of_app; auto.
Qed.

(** With [continue_on_error = False], every step that is dispatched in a
    run on a workflow with unique ids and without completed steps has all
    its dependencies completed, and its input is made of their outputs. *)
Lemma execute_strict_flow workflow input_text w :
  none_completed (wf_steps workflow) →
  NoDup (step_id <$> wf_steps workflow) →
  "_initial" ∉ step_id <$> wf_steps workflow →
  continue_on_error (wf_config workflow) = false →
  ∃ res workflow' w' calls,
    execute_workflow workflow input_text w = Some (res, workflow', w', calls) ∧
    ∀ c, c ∈ calls →
      ∃ s outs, wf_steps workflow !! call_step c = Some s ∧
        Forall2 (λ d o, ∃ j s' r,
                   get_step (wf_steps workflow) d = Some j ∧
                   wf_steps workflow' !! j = Some s' ∧
                   step_status s' = COMPLETED ∧ step_result s' = Some r ∧
                   success r = true ∧ o = output r)
                (step_depends_on s) outs ∧
        c = mkCall (call_step c) (step_pattern s)
              match step_depends_on s with
              | [] => input_text
              | _ => String.concat separator outs
              end
              (provider (wf_config workflow)) (model (wf_config workflow))
              (step_timeout s).
Proof.
  intros Hnc Hnd Hinit Hcont.
  destruct (execute_data_flow workflow input_text w Hnc Hnd Hinit)
    as (res & workflow' & w' & calls & Hex & Hflow).
  exists res, workflow', w', calls. split; [done|].
  destruct (plan_total (wf_steps workflow)) as (plan & steps0 & Hplan & Hr).
  destruct plan as [groups|e].
  2:{ destruct (execute_workflow_unplanned workflow input_text w _ _ Hplan)
        as (? & ? & ? & Hex' & _).
      rewrite Hex in Hex'. injection Hex' as <- <- <- ->.
      by intros c ?%elem_of_nil. }
  pose proof Hex as Hex'.
  rewrite (execute_workflow_planned _ _ _ _ _ Hplan) in Hex'.
  destruct (datetime_now w) as [start w1].
  destruct (run_groups _ _ _) as [body m] eqn:Hrun.
  destruct (datetime_now (m_world m)) as [finish w2].
  injection Hex' as <- <- <- <-. simpl in *.
  destruct Hr as [[=]|(gs & [= <-] & ->)].
  assert (NoDup (concat groups)) as Hndg.
  { rewrite (plan_groups_perm _ _ _ Hplan). apply NoDup_seq. }
  assert (NoDup (step_id <$> (set_status PENDING <$> wf_steps workflow)))
    as Hnd0 by by rewrite reset_ids.
  set (m0 := mkMachine (set_status PENDING <$> wf_steps workflow)
               {["_initial" := input_text]} w1 []) in *.
  pose proof (run_groups_works_on groups (wf_config workflow) m0 body m
                Hnd0 Hrun) as (Hids & _).
  simpl in Hids. rewrite reset_ids in Hids.
  apply run_groups_finished in Hrun
    as (pre & rest & -> & Hdone & new & Hc & Hnew); [|done..| |done].
  2:{ simpl. intros i Hi. rewrite (plan_groups_perm _ _ _ Hplan) in Hi.
      apply elem_of_seq in Hi. rewrite length_fmap. lia. }
  simpl in Hc. subst new.
  intros c Hcin. destruct (Hflow c Hcin) as (s & Hs & Heq).
  set (O := recorded_outputs input_text (m_steps m)) in *.
  set (f := λ d, default "" (O !! d)).
  assert (Hdeps : ∀ d, d ∈ step_depends_on s →
            ∃ j s' r, get_step (wf_steps workflow) d = Some j ∧
              m_steps m !! j = Some s' ∧ step_status s' = COMPLETED ∧
              step_result s' = Some r ∧ success r = true ∧ f d = output r ∧
              O !! d = Some (f d)).
  { intros d Hd.
    destruct (plan_fresh_order _ _ _ Hnc Hplan _ _ _ Hs Hd)
      as (j & Hj & Hearlier).
    apply earlier_in_finished in Hearlier; [|done|by apply Hnew].
    destruct (Hdone j Hearlier) as (s' & r & Hs' & Hst & Hres & Hsucc).
    assert (O !! d = Some (output r)) as HO.
    { assert (step_id s' = d) as <-.
      { apply get_step_id in Hj. rewrite <- Hids, list_lookup_fmap, Hs' in Hj.
        by injection Hj. }
      unfold O. rewrite recorded_outputs_lookup.
      - unfold recorded_output. by rewrite decide_True, Hres.
      - by rewrite Hids.
      - by rewrite Hids.
      - by eapply list_elem_of_lookup_2. }
    exists j, s', r. unfold f. rewrite HO. by split_and!. }
  exists s, (f <$> step_depends_on s). split_and!.
  - done.
  - apply Forall2_fmap_r, Forall_Forall2_diag, Forall_forall.
    intros d Hd.
    destruct (Hdeps d Hd) as (j & s' & r & ? & ? & ? & ? & ? & ? & _).
    by exists j, s', r.
  - rewrite Heq at 1. f_equal.
    rewrite (resolve_all s O input_text f).
    + by destruct (step_depends_on s).
    + apply recorded_outputs_initial. by rewrite Hids.
    + intros d Hd.
      by destruct (Hdeps d Hd) as (_ & _ & _ & _ & _ & _ & _ & _ & _ & ?).
Qed.
End Strict.

(** ** The defining fields of the steps are never written *)

Lemma mark_all_shape v X steps : shape <$> mark_all v X steps = shape <$> steps.
Proof.
  apply list_eq; intros j. rewrite !list_lookup_fmap, mark_all_lookup.
  destruct (steps !! j); simpl; [|done]. by case_decide.
Qed.

Lemma plan_loop_shape fuel : ∀ steps remaining groups r st',
  NoDup remaining →
  plan_loop fuel steps remaining groups = Some (r, st') →
  shape <$> st' = shape <$> steps.
Proof.
  induction fuel as [|fuel IH]; intros steps remaining groups r st' Hnd Heq.
  - destruct remaining; [|done]. simpl in Heq. injection Heq as <- <-.
    apply reset_shape.
  - destruct (decide (remaining = [])) as [->|Hne].
    { simpl in Heq. injection Heq as <- <-. apply reset_shape. }
    rewrite plan_loop_round in Heq by done. cbv zeta in Heq.
    destruct (filter (λ i, is_ready steps i) remaining) as [|i l] eqn:E.
    + by injection Heq as <- <-.
    + apply IH in Heq; [|by apply NoDup_filter].
      by rewrite Heq, mark_all_shape.
Qed.

Lemma plan_shape steps r st' :
  _plan_execution_groups steps = Some (r, st') →
  shape <$> st' = shape <$> steps.
Proof. apply plan_loop_shape, NoDup_seq. Qed.

Section Frame.
Context {env : Environment}.

Lemma dispatch_shape i config m r m' :
  dispatch i config m = (r, m') →
  shape <$> m_steps m' = shape <$> m_steps m.
Proof.
  rewrite dispatch_eq. destruct (m_steps m !! i) as [s|]; simpl.
  - destruct (datetime_now (m_world m)) as [t w1].
    destruct (run_fabric _ _ _ _ _ w1) as [o w2]. intros [= <- <-]. simpl.
    apply alter_shape. by intros [].
  - by intros [= <- <-].
Qed.

Lemma run_directly_shape i config m r m' :
  run_directly i config m = (r, m') →
  shape <$> m_steps m' = shape <$> m_steps m.
Proof.
  unfold run_directly, mbind, M_bind.
  destruct (dispatch i config m) as [[[sid o]|e] m1] eqn:Hd;
    apply dispatch_shape in Hd.
  - destruct o; by intros [= <- <-].
  - by intros [= <- <-].
Qed.

Lemma run_sequentially_shape l config : ∀ results m r m',
  run_sequentially l config results m = (r, m') →
  shape <$> m_steps m' = shape <$> m_steps m.
Proof.
  induction l as [|i l IH]; intros results m r m'; simpl.
  - by intros [= <- <-].
  - unfold mbind, M_bind.
    destruct (run_directly i config m) as [[[sid res]|e] m1] eqn:Hd;
      apply run_directly_shape in Hd; [|by intros [= <- <-]].
    destruct (success res); simpl; intros Hrest%IH; by rewrite Hrest.
Qed.

Lemma submit_all_shape l config : ∀ m r m',
  submit_all l config m = (r, m') →
  shape <$> m_steps m' = shape <$> m_steps m.
Proof.
  induction l as [|i l IH]; intros m r m'; simpl.
  - by intros [= <- <-].
  - unfold mbind, M_bind.
    destruct (dispatch i config m) as [[so|e] m1] eqn:Hd;
      apply dispatch_shape in Hd; [|by intros [= <- <-]].
    destruct (submit_all l config m1) as [[sos|e] m2] eqn:Hs;
      apply IH in Hs; intros [= <- <-]; by rewrite Hs.
Qed.

Lemma execute_step_group_shape g config m r m' :
  _execute_step_group g config m = (r, m') →
  shape <$> m_steps m' = shape <$> m_steps m.
Proof.
  assert (Hgen : (if can_parallel (m_steps m) g
                     && bool_decide (Z.of_nat (length g) ≤ parallel_limit config)%Z
                  then run_in_pool g config m
                  else run_sequentially g config [] m) = (r, m') →
                 shape <$> m_steps m' = shape <$> m_steps m).
  { destruct (_ && _).
    - unfold run_in_pool, mbind, M_bind, picks.
      destruct (submit_all g config m) as [[sos|e] m1] eqn:Hs;
        apply submit_all_shape in Hs; by intros [= <- <-].
    - apply run_sequentially_shape. }
  destruct g as [|i [|j g]]; [done| |done].
  unfold _execute_step_group, mbind, M_bind.
  destruct (run_directly i config m) as [[[sid res]|e] m1] eqn:Hd;
    apply run_directly_shape in Hd; by intros [= <- <-].
Qed.

Lemma apply_result_shape sid res config m r m' :
  apply_result sid res config m = (r, m') →
  shape <$> m_steps m' = shape <$> m_steps m.
Proof.
  rewrite apply_result_eq. destruct (get_step (m_steps m) sid) as [k|].
  - destruct (datetime_now (m_world m)) as [t w1].
    destruct (success res); intros [= <- <-]; simpl;
      apply alter_shape; by intros [].
  - by intros [= <- <-].
Qed.

Lemma apply_results_shape results config : ∀ m r m',
  apply_results results config m = (r, m') →
  shape <$> m_steps m' = shape <$> m_steps m.
Proof.
  induction results as [|[sid res] results IH]; intros m r m'; simpl.
  - by intros [= <- <-].
  - unfold mbind, M_bind.
    destruct (apply_result sid res config m) as [[[]|e] m1] eqn:Ha;
      apply apply_result_shape in Ha; [|by intros [= <- <-]].
    intros Hrest%IH. by rewrite Hrest.
Qed.

Lemma run_groups_shape groups config : ∀ m r m',
  run_groups groups config m = (r, m') →
  shape <$> m_steps m' = shape <$> m_steps m.
Proof.
  induction groups as [|g groups IH]; intros m r m'; simpl.
  - by intros [= <- <-].
  - unfold mbind, M_bind.
    destruct (_execute_step_group g config m) as [[results|e] m1] eqn:He;
      apply execute_step_group_shape in He; [|by intros [= <- <-]].
    destruct (apply_results results config m1) as [[[]|e] m2] eqn:Ha;
      apply apply_results_shape in Ha; [|intros [= <- <-]; by rewrite Ha].
    intros Hrest%IH. by rewrite Hrest, Ha.
Qed.

(** A run writes the execution state of the steps only: their number and
    their defining fields are those of the workflow it was given. *)
Lemma execute_shape workflow input_text w res workflow' w' calls :
  execute_workflow workflow input_text w = Some (res, workflow', w', calls) →
  shape <$> wf_steps workflow' = shape <$> wf_steps workflow ∧
  wf_id workflow' = wf_id workflow ∧ wf_name workflow' = wf_name workflow ∧
  wf_config workflow' = wf_config workflow ∧
  r_workflow_id res = wf_id workflow ∧
  r_total_steps res = length (wf_steps workflow).
Proof.
  intros Hex.
  destruct (plan_total (wf_steps workflow)) as (plan & steps0 & Hplan & _).
  pose proof (plan_shape _ _ _ Hplan) as Hsh0.
  destruct plan as [groups|e].
  - rewrite (execute_workflow_planned _ _ _ _ _ Hplan) in Hex.
    destruct (datetime_now w) as [start w1].
    destruct (run_groups _ _ _) as [body m] eqn:Hrun.
    destruct (datetime_now (m_world m)) as [finish w2].
    injection Hex as <- <- <- <-. simpl.
    apply run_groups_shape in Hrun. simpl in Hrun.
    assert (shape <$> m_steps m = shape <$> wf_steps workflow) as Hsh
      by by rewrite Hrun.
    split_and!; try done. by apply shape_length.
  - unfold execute_workflow in Hex.
    destruct (datetime_now w) as [start w1]. rewrite Hplan in Hex.
    simpl in Hex. destruct (datetime_now w1) as [finish w2].
    injection Hex as <- <- <- <-. simpl.
    split_and!; try done. by apply shape_length.
Qed.
End Frame.

(** ** The entry of the initial input *)

Section Initial.
Context {env : Environment}.
Variable steps0 : list WorkflowStep.
Variable input_text : string.
Hypothesis Hinit : "_initial" ∉ step_id <$> steps0.

Local Abbreviation kept := (initial_kept steps0 input_text).










End Initial.

Section InitialRun.
Context {env : Environment}.

End InitialRun.

(** ** C5: the input of a step with several dependencies *)




(** ** Plans by layers *)

Lemma group_ready_planning steps0 R ready :
  group_ready (planning_state steps0 R) ready = group_ready steps0 ready.
Proof.
  assert (Hk : ∀ i, key_at (planning_state steps0 R) i = key_at steps0 i).
  { intros i. unfold key_at. rewrite planning_state_lookup.
    destruct (steps0 !! i); simpl; [|done]. by case_decide. }
  assert (Ht : ∀ i, tag_at (planning_state steps0 R) i = tag_at steps0 i).
  { intros i. unfold tag_at. rewrite planning_state_lookup.
    destruct (steps0 !! i); simpl; [|done]. by case_decide. }
  unfold group_ready.
  assert (existsb (tag_at (planning_state steps0 R)) ready
          = existsb (tag_at steps0) ready) as ->.
  { induction ready as [|i ready IH]; simpl; [done|]. by rewrite Ht, IH. }
  destruct (existsb _ _); [|done]. f_equal.
  generalize (@nil (string * list nat)).
  induction ready as [|i ready IH]; intros d; simpl; [done|].
  by rewrite Hk, IH.
Qed.

Lemma filter_all {A} (P : A → Prop) `{!∀ x, Decision (P x)} (l : list A) :
  (∀ x, x ∈ l → P x) → filter P l = l.
Proof.
  induction l as [|x l IH]; intros Hall; [done|].
  rewrite filter_cons_True by (apply Hall; left).
  rewrite IH; [done|]. intros y Hy. apply Hall. by right.
Qed.

Lemma filter_none {A} (P : A → Prop) `{!∀ x, Decision (P x)} (l : list A) :
  (∀ x, x ∈ l → ¬ P x) → filter P l = [].
Proof.
  induction l as [|x l IH]; intros Hall; [done|].
  rewrite filter_cons_False by (apply Hall; left).
  apply IH. intros y Hy. apply Hall. by right.
Qed.

(** The planning loop on a step list whose remaining steps come in layers,
    the ready steps of every round being the first layer left. *)
Lemma plan_loop_layers steps0 : ∀ layers fuel groups,
  NoDup (concat layers) → Forall (λ l, l ≠ []) layers →
  length layers ≤ fuel →
  (∀ pre l post i, layers = pre ++ l :: post → i ∈ concat (l :: post) →
     is_ready (planning_state steps0 (concat (l :: post))) i ↔ i ∈ l) →
  ∃ st',
    plan_loop fuel (planning_state steps0 (concat layers)) (concat layers)
      groups
    = Some (Ok (groups ++ (layers ≫= group_ready steps0)), st').
Proof.
  induction layers as [|l layers IH]; intros fuel groups Hnd Hne Hfuel Hready.
  { simpl. destruct fuel; rewrite (right_id_L [] (++)); by eexists. }
  destruct fuel as [|fuel]; [simpl in Hfuel; lia|].
  apply Forall_cons in Hne as [Hl Hne]. simpl in Hnd.
  pose proof Hnd as (Hndl & Hdisj & Hndr)%NoDup_app.
  set (steps := planning_state steps0 (concat (l :: layers))).
  assert (Hr : filter (λ i, is_ready steps i) (concat (l :: layers)) = l).
  { simpl. rewrite filter_app, filter_all, filter_none.
    - by rewrite (right_id_L [] (++)).
    - intros i Hi Hri. apply (Hready [] l layers i) in Hri; [|done|].
      + by eapply Hdisj.
      + simpl. apply elem_of_app. by right.
    - intros i Hi. apply (Hready [] l layers i); [done| |done].
      simpl. apply elem_of_app. by left. }
  assert (Hn : filter (λ i, ¬ is_ready steps i) (concat (l :: layers))
               = concat layers).
  { simpl. rewrite filter_app, filter_none, filter_all; [done|..].
    - intros i Hi Hri. apply (Hready [] l layers i) in Hri; [|done|].
      + by eapply Hdisj.
      + simpl. apply elem_of_app. by right.
    - intros i Hi Hri. apply Hri, (Hready [] l layers i); [done| |done].
      simpl. apply elem_of_app. by left. }
  rewrite plan_loop_round; [|done|].
  2:{ simpl. destruct l; [done|]. done. }
  cbv zeta. fold steps. rewrite Hr.
  destruct l as [|x l']; [done|].
  pose proof (planning_state_round steps0 (concat ((x :: l') :: layers))) as Hround.
  cbv zeta in Hround. fold steps in Hround. rewrite Hr, Hn in Hround.
  rewrite Hn, Hround. unfold steps. rewrite group_ready_planning.
  destruct (IH fuel (groups ++ group_ready steps0 (x :: l'))) as [st' Hst'].
  - done.
  - done.
  - simpl in Hfuel. lia.
  - intros pre l post i Heq. apply (Hready ((x :: l') :: pre)).
    by rewrite Heq.
  - exists st'. rewrite Hst'. simpl. by rewrite (assoc_L (++)).
Qed.

Lemma layers_length {A} (layers : list (list A)) :
  Forall (λ l, l ≠ []) layers → length layers ≤ length (concat layers).
Proof.
  induction 1 as [|l layers Hl _ IH]; simpl; [done|].
  rewrite length_app. destruct l; [done|]. simpl. lia.
Qed.

(** The plan of a workflow that comes in layers: every round takes the
    first layer left, grouped by [group_ready]. *)
Lemma plan_layers steps layers :
  concat layers = seq 0 (length steps) → Forall (λ l, l ≠ []) layers →
  (∀ pre l post i, layers = pre ++ l :: post → i ∈ concat (l :: post) →
     is_ready (planning_state steps (concat (l :: post))) i ↔ i ∈ l) →
  _plan_execution_groups steps
  = Some (Ok (layers ≫= group_ready steps), set_status PENDING <$> steps).
Proof.
  intros Hcat Hne Hready.
  destruct (plan_loop_layers steps layers (length steps) []) as [st' Hst'];
    [..|done|].
  - rewrite Hcat. apply NoDup_seq.
  - done.
  - pose proof (layers_length _ Hne) as Hlen.
    by rewrite Hcat, length_seq in Hlen.
  - rewrite Hcat, planning_state_init in Hst'. simpl in Hst'.
    assert (_plan_execution_groups steps
            = Some (Ok (layers ≫= group_ready steps), st')) as Heq by done.
    by rewrite Heq, (plan_ok_reset _ _ _ Heq).
Qed.

(** ** Step names *)

Lemma step_name_inj i j : step_name i = step_name j → i = j.
Proof. unfold step_name. intros Heq. simplify_eq/=. by apply (inj pretty). Qed.

Lemma step_name_initial i : step_name i ≠ "_initial".
Proof. done. Qed.

Lemma singletons_concat {A} (l : list A) : concat ((λ i, [i]) <$> l) = l.
Proof.
  induction l as [|x l IH]; [done|]. rewrite fmap_cons. simpl. by f_equal.
Qed.

Lemma seq_split a n (l1 : list nat) x l2 :
  seq a n = l1 ++ x :: l2 →
  x = a + length l1 ∧ length l1 < n ∧
  x :: l2 = seq (a + length l1) (n - length l1).
Proof.
  intros Heq.
  assert (drop (length l1) (seq a n) = x :: l2) as Hd
    by by rewrite Heq, drop_app_length.
  rewrite drop_seq in Hd.
  assert (length l1 < n) as Hlt.
  { apply (f_equal length) in Heq.
    rewrite length_seq, length_app in Heq. simpl in Heq. lia. }
  split_and!; [|done|done].
  destruct (n - length l1) as [|m] eqn:E; [lia|]. simpl in Hd. congruence.
Qed.

(** ** Workflows whose ids are the step names in order *)

Lemma named_ids_NoDup steps :
  step_id <$> steps = step_name <$> seq 0 (length steps) →
  NoDup (step_id <$> steps).
Proof.
  intros ->.
  apply (@NoDup_fmap_2 nat string step_name step_name_inj), NoDup_seq.
Qed.

Lemma named_get_step steps i :
  step_id <$> steps = step_name <$> seq 0 (length steps) →
  i < length steps → get_step steps (step_name i) = Some i.
Proof.
  intros Hids Hi. apply get_step_NoDup; [by apply named_ids_NoDup|].
  by rewrite Hids, list_lookup_fmap, lookup_seq_lt.
Qed.

Lemma named_get_step_inv steps d j :
  step_id <$> steps = step_name <$> seq 0 (length steps) →
  get_step steps d = Some j → d = step_name j.
Proof.
  intros Hids Hj. pose proof (get_step_lt _ _ _ Hj) as Hlt.
  apply get_step_id in Hj.
  rewrite Hids, list_lookup_fmap, lookup_seq_lt in Hj by done.
  simpl in Hj. congruence.
Qed.

Lemma named_initial steps :
  step_id <$> steps = step_name <$> seq 0 (length steps) →
  "_initial" ∉ step_id <$> steps.
Proof.
  intros -> (i & Heq & _)%list_elem_of_fmap. by apply (step_name_initial i).
Qed.

(** ** [create_workflow] *)

Lemma sequential_lookup config patterns i :
  imap (sequential_step config) patterns !! i
  = sequential_step config i <$> patterns !! i.
Proof. apply list_lookup_imap. Qed.

Lemma sequential_ids config patterns :
  let steps := imap (sequential_step config) patterns in
  step_id <$> steps = step_name <$> seq 0 (length steps).
Proof.
  intros steps. unfold steps. rewrite length_imap.
  apply list_eq; intros i. rewrite !list_lookup_fmap, sequential_lookup.
  destruct (patterns !! i) as [p|] eqn:Hp; simpl.
  - by rewrite lookup_seq_lt by by eapply lookup_lt_Some.
  - by rewrite lookup_seq_ge by by apply lookup_ge_None.
Qed.

Lemma sequential_pending config patterns s :
  s ∈ imap (sequential_step config) patterns → step_status s = PENDING.
Proof.
  intros (i & p & -> & _)%elem_of_lookup_imap. done.
Qed.

Lemma sequential_none_completed config patterns :
  none_completed (imap (sequential_step config) patterns).
Proof. intros s Hs. by rewrite (sequential_pending _ _ _ Hs). Qed.

Lemma sequential_reset config patterns :
  set_status PENDING <$> imap (sequential_step config) patterns
  = imap (sequential_step config) patterns.
Proof.
  apply list_eq; intros i. rewrite list_lookup_fmap, sequential_lookup.
  by destruct (patterns !! i).
Qed.

(** The only dependency of a step of a sequential workflow is the step
    before it. *)
Lemma sequential_dep config patterns i s d :
  imap (sequential_step config) patterns !! i = Some s →
  d ∈ step_depends_on s ↔ 0 < i ∧ d = step_name (i - 1).
Proof.
  rewrite sequential_lookup. destruct (patterns !! i) as [p|]; [|done].
  intros [= <-]. simpl. case_decide.
  - rewrite list_elem_of_singleton. naive_solver.
  - rewrite elem_of_nil. naive_solver lia.
Qed.

Lemma sequential_ready config patterns k i :
  let steps := imap (sequential_step config) patterns in
  let n := length patterns in
  k < n → i ∈ seq k (n - k) →
  is_ready (planning_state steps (seq k (n - k))) i ↔ i = k.
Proof.
  intros steps n Hk Hi. apply elem_of_seq in Hi.
  pose proof (sequential_ids config patterns) as Hids. cbv zeta in Hids.
  fold steps in Hids.
  assert (length steps = n) as Hlen by apply length_imap.
  rewrite is_ready_planning by apply sequential_none_completed.
  destruct (steps !! i) as [s|] eqn:Hs.
  2:{ apply lookup_ge_None in Hs. lia. }
  split.
  - intros (s' & [= <-] & Hdeps).
    destruct (decide (0 < i)) as [Hpos|]; [|lia].
    destruct (Hdeps (step_name (i - 1))) as (j & Hj & Hn).
    { by apply (sequential_dep config patterns i). }
    rewrite (named_get_step steps (i - 1)) in Hj by (done || lia).
    injection Hj as <-. rewrite elem_of_seq in Hn. lia.
  - intros ->. exists s. split; [done|]. intros d Hd.
    apply (sequential_dep config patterns k) in Hd as [Hpos ->]; [|done].
    exists (k - 1). split; [apply named_get_step; [done|lia]|].
    rewrite elem_of_seq. lia.
Qed.

(** The plan of a sequential workflow: one group for every step, in the
    order of the patterns. *)
Lemma sequential_plan config patterns :
  let steps := imap (sequential_step config) patterns in
  _plan_execution_groups steps
  = Some (Ok ((λ i, [i]) <$> seq 0 (length patterns)), steps).
Proof.
  intros steps.
  assert (length steps = length patterns) as Hlen by apply length_imap.
  set (layers := (λ i : nat, [i]) <$> seq 0 (length patterns)).
  rewrite (plan_layers steps layers).
  - f_equal. f_equal; [|apply sequential_reset]. f_equal.
    unfold layers. generalize (seq 0 (length patterns)).
    induction l as [|i l IH]; [done|]. rewrite fmap_cons, bind_cons, IH.
    unfold group_ready. simpl.
    assert (tag_at steps i = false) as ->; [|done].
    unfold tag_at, steps. rewrite sequential_lookup.
    by destruct (patterns !! i).
  - unfold layers. by rewrite singletons_concat, Hlen.
  - unfold layers. apply Forall_fmap, Forall_forall. done.
  - intros pre l post i Heq Hi. unfold layers in Heq.
    apply fmap_app_inv in Heq as (l1 & l2' & -> & Hl2 & Hseq).
    symmetry in Hl2. apply fmap_cons_inv in Hl2 as (k & l2 & -> & -> & ->).
    apply seq_split in Hseq as (-> & Hlt & Hrest). simpl in Hrest.
    assert (concat ([length l1] :: ((λ i, [i]) <$> l2))
            = seq (length l1) (length patterns - length l1)) as Hcat.
    { simpl. rewrite singletons_concat. done. }
    change (0 + length l1) with (length l1) in *.
    rewrite Hcat in Hi |- *. rewrite list_elem_of_singleton.
    by apply sequential_ready.
Qed.

Lemma sequential_edge config patterns i j :
  dep_edge (imap (sequential_step config) patterns) i j → 0 < i ∧ j = i - 1.
Proof.
  intros (s & d & Hs & Hd & Hj).
  pose proof (sequential_ids config patterns) as Hids. cbv zeta in Hids.
  apply (sequential_dep config patterns i) in Hd as [Hpos ->]; [|done].
  pose proof (get_step_lt _ _ _ Hj) as Hlt.
  apply (named_get_step_inv _ _ _ Hids), step_name_inj in Hj. lia.
Qed.

(** A workflow built from a non-empty list of patterns passes the
    validation. *)
Lemma sequential_valid config patterns :
  patterns ≠ [] →
  validate_workflow (imap (sequential_step config) patterns) = Some [].
Proof.
  intros Hne. set (steps := imap (sequential_step config) patterns).
  pose proof (sequential_ids config patterns) as Hids. cbv zeta in Hids.
  fold steps in Hids.
  destruct (validate_workflow_clean steps) as (errors & Herr & Hiff).
  rewrite Herr. f_equal. apply Hiff. split_and!.
  - unfold steps. by destruct patterns.
  - by apply named_ids_NoDup.
  - intros s d [i Hs]%list_elem_of_lookup_1 Hd.
    apply (sequential_dep config patterns i) in Hd as [Hpos ->]; [|done].
    rewrite (named_get_step steps (i - 1)); [done..|].
    apply lookup_lt_Some in Hs. lia.
  - apply acyclic_backward. intros i j Hedge%sequential_edge. lia.
  - apply Forall_forall. intros s (i & p & -> & _)%elem_of_lookup_imap.
    simpl. case_decide; [apply NoDup_singleton|apply NoDup_nil_2].
Qed.

Section Pipeline.
Context {env : Environment}.

Lemma create_workflow_steps registry name patterns config w :
  let workflow := (create_workflow registry name patterns config w).1.1 in
  wf_steps workflow
  = imap (sequential_step (default default_config config)) patterns ∧
  wf_config workflow = default default_config config ∧
  wf_name workflow = name ∧ wf_status workflow = PENDING.
Proof. unfold create_workflow. by destruct (uuid4 w). Qed.

(** The run of a sequential workflow: the patterns are called in their
    order, each on the output that the step before it has recorded, or on
    the initial input when there is none. *)
Lemma sequential_run workflow patterns input_text w :
  wf_steps workflow = imap (sequential_step (wf_config workflow)) patterns →
  ∃ res workflow' w' calls,
    execute_workflow workflow input_text w = Some (res, workflow', w', calls) ∧
    length calls ≤ length patterns ∧
    (r_success res = true → length calls = length patterns) ∧
    (∀ k c, calls !! k = Some c →
       ∃ p, patterns !! k = Some p ∧
         c = mkCall k p
               match k with
               | 0 => input_text
               | S k' =>
                   default input_text
                     (wf_steps workflow' !! k' ≫= recorded_output)
               end
               (provider (wf_config workflow)) (model (wf_config workflow))
               (timeout_s (wf_config workflow))) ∧
    (continue_on_error (wf_config workflow) = false →
     ∀ k c, calls !! S k = Some c →
       ∃ s r, wf_steps workflow' !! k = Some s ∧ step_status s = COMPLETED ∧
              step_result s = Some r ∧ success r = true ∧
              call_input c = output r).
Proof.
  intros Hsteps. set (config := wf_config workflow) in *.
  pose proof (sequential_ids config patterns) as Hids. cbv zeta in Hids.
  rewrite <- Hsteps in Hids.
  assert (length (wf_steps workflow) = length patterns) as Hlen
    by by rewrite Hsteps, length_imap.
  assert (none_completed (wf_steps workflow)) as Hnc
    by (rewrite Hsteps; apply sequential_none_completed).
  pose proof (named_ids_NoDup _ Hids) as Hnd.
  pose proof (named_initial _ Hids) as Hinit.
  destruct (execute_workflow_run workflow input_text w)
    as (plan & steps0 & res & workflow' & w' & calls & Hplan & Hex & _ & _
        & Hrun).
  exists res, workflow', w', calls. split; [done|].
  pose proof (sequential_plan config patterns) as Hseq. cbv zeta in Hseq.
  rewrite <- Hsteps, Hplan in Hseq. injection Hseq as -> ->.
  destruct Hrun as (Hpre & Hall & _). rewrite singletons_concat in Hpre, Hall.
  destruct (execute_shape _ _ _ _ _ _ _ Hex) as (Hsh & _).
  pose proof (shape_ids _ _ Hsh) as Hids'.
  assert (Hpos : ∀ k c, calls !! k = Some c →
            call_step c = k ∧ k < length patterns).
  { intros k c Hk.
    assert ((call_step <$> calls) !! k = Some (call_step c)) as Hk'
      by by rewrite list_lookup_fmap, Hk.
    eapply prefix_lookup_Some in Hk'; [|done].
    apply lookup_seq in Hk' as [-> ?]. done. }
  assert (Hrec : ∀ k, k < length patterns →
            recorded_outputs input_text (wf_steps workflow') !! step_name k
            = wf_steps workflow' !! k ≫= recorded_output).
  { intros k Hk.
    assert (is_Some (wf_steps workflow' !! k)) as [s' Hs'].
    { apply lookup_lt_is_Some. rewrite (shape_length _ _ Hsh). lia. }
    rewrite Hs'. simpl.
    assert (step_id s' = step_name k) as <-.
    { assert ((step_id <$> wf_steps workflow') !! k = Some (step_id s')) as H
        by by rewrite list_lookup_fmap, Hs'.
      rewrite Hids', Hids, list_lookup_fmap, lookup_seq_lt in H by lia.
      by injection H. }
    apply recorded_outputs_lookup; [by rewrite Hids'..|].
    by eapply list_elem_of_lookup_2. }
  split_and!.
  - apply prefix_length in Hpre. by rewrite length_fmap, length_seq in Hpre.
  - intros Hs. apply Hall in Hs. apply (f_equal length) in Hs.
    by rewrite length_fmap, length_seq in Hs.
  - destruct (execute_data_flow workflow input_text w Hnc Hnd Hinit)
      as (? & ? & ? & ? & Hex' & Hflow).
    rewrite Hex in Hex'. injection Hex' as <- <- <- <-.
    intros k c Hk. destruct (Hpos k c Hk) as [Hck Hlt].
    destruct (Hflow c) as (s & Hs & Heq); [by eapply list_elem_of_lookup_2|].
    rewrite Hck in Hs, Heq. rewrite Hsteps, sequential_lookup in Hs.
    destruct (patterns !! k) as [p|]; [|done]. injection Hs as <-.
    exists p. split; [done|]. rewrite Heq at 1. simpl. f_equal.
    unfold _resolve_step_input. simpl.
    rewrite recorded_outputs_initial by by rewrite Hids'.
    destruct k as [|k]; simpl; [done|].
    rewrite Nat.sub_0_r, Hrec by lia. done.
  - intros Hcont k c Hk. destruct (Hpos _ c Hk) as [Hck Hlt].
    destruct (execute_strict_flow workflow input_text w Hnc Hnd Hinit Hcont)
      as (? & ? & ? & ? & Hex' & Hflow).
    rewrite Hex in Hex'. injection Hex' as <- <- <- <-.
    destruct (Hflow c) as (s & outs & Hs & Hdeps & Heq);
      [by eapply list_elem_of_lookup_2|].
    rewrite Hck in Hs, Heq. rewrite Hsteps, sequential_lookup in Hs.
    destruct (patterns !! S k) as [p|]; [|done]. injection Hs as <-.
    simpl in Hdeps, Heq. rewrite Nat.sub_0_r in Hdeps.
    apply Forall2_cons_inv_l in Hdeps
      as (o & outs' & (j & s' & r & Hj & Hs' & Hst & Hres & Hsucc & ->)
          & Hnil & ->).
    apply Forall2_nil_inv_l in Hnil as ->.
    rewrite (named_get_step _ k Hids) in Hj by lia. injection Hj as <-.
    exists s', r. split_and!; [done..|by rewrite Heq].
Qed.
End Pipeline.

(** ** [create_parallel_workflow] *)

(** ** The closed form of the two loops *)

Lemma counted_fold config tag deps ps : ∀ steps c,
  foldl (λ '(steps, step_counter) pattern,
           (steps ++ [counted_step config step_counter pattern tag deps],
            S step_counter)) (steps, c) ps
  = (steps ++ imap (λ i p, counted_step config (c + i) p tag deps) ps,
     c + length ps).
Proof.
  induction ps as [|p ps IH]; intros steps c; simpl.
  - by rewrite app_nil_r, Nat.add_0_r.
  - rewrite IH, <- app_assoc, Nat.add_0_r. simpl. f_equal; [|lia].
    do 2 f_equal. apply imap_ext. intros i x _. simpl. f_equal. lia.
Qed.

Lemma add_parallel_groups_eq config parallel_groups :
  add_parallel_groups config parallel_groups
  = (imap (λ i gp, counted_step config i gp.2 (Some gp.1) [])
          (tagged_patterns parallel_groups),
     length (tagged_patterns parallel_groups)).
Proof.
  unfold add_parallel_groups.
  assert (∀ steps c,
    foldl (λ acc '(group_name, group_patterns),
             foldl (λ '(steps, step_counter) pattern,
                      (steps ++ [counted_step config step_counter pattern
                                   (Some group_name) []],
                       S step_counter))
                   acc group_patterns)
          (steps, c) parallel_groups
    = (steps ++ imap (λ i gp, counted_step config (c + i) gp.2 (Some gp.1) [])
                     (tagged_patterns parallel_groups),
       c + length (tagged_patterns parallel_groups))) as H.
  { induction parallel_groups as [|[g ps] groups IH]; intros steps c.
    - simpl. by rewrite app_nil_r, Nat.add_0_r.
    - cbn [foldl]. rewrite counted_fold, IH. unfold tagged_patterns.
      rewrite bind_cons, imap_app, length_app, !length_fmap, <- app_assoc.
      f_equal; [|lia]. f_equal. f_equal.
      + rewrite imap_fmap. by apply imap_ext.
      + apply imap_ext. intros i x _. simpl. f_equal. lia. }
  by rewrite H.
Qed.

Lemma parallel_ids config parallel_groups sequential_patterns :
  let steps := parallel_steps config parallel_groups sequential_patterns in
  step_id <$> steps = step_name <$> seq 0 (length steps).
Proof.
  intros steps. unfold steps, parallel_steps.
  rewrite length_app, !length_imap, seq_app, !fmap_app. f_equal.
  - apply list_eq; intros i. rewrite !list_lookup_fmap, list_lookup_imap.
    destruct (tagged_patterns parallel_groups !! i) as [gp|] eqn:Hi; simpl.
    + by rewrite lookup_seq_lt by by eapply lookup_lt_Some.
    + by rewrite lookup_seq_ge by by apply lookup_ge_None.
  - apply list_eq; intros i. rewrite !list_lookup_fmap, list_lookup_imap.
    destruct (sequential_patterns !! i) as [p|] eqn:Hi; simpl.
    + by rewrite lookup_seq_lt by by eapply lookup_lt_Some.
    + by rewrite lookup_seq_ge by by apply lookup_ge_None.
Qed.

(** ** Grouping by name *)

Lemma dict_append_fresh (d : list (string * list nat)) k i :
  k ∉ d.*1 → dict_append d k i = d ++ [(k, [i])].
Proof.
  induction d as [|[k' v] d IH]; intros Hk; simpl; [done|].
  rewrite fmap_cons, not_elem_of_cons in Hk. destruct Hk as [Hne Hk].
  rewrite decide_False by done. by rewrite IH.
Qed.

Lemma dict_append_last (d : list (string * list nat)) k l i :
  k ∉ d.*1 → dict_append (d ++ [(k, l)]) k i = d ++ [(k, l ++ [i])].
Proof.
  induction d as [|[k' v] d IH]; intros Hk; simpl.
  - by rewrite decide_True.
  - rewrite fmap_cons, not_elem_of_cons in Hk. destruct Hk as [Hne Hk].
    rewrite decide_False by done. by rewrite IH.
Qed.

(** The positions [c], ..., [c + n - 1] have the key [g], which is new:
    they make one new entry. *)
Lemma group_block (key : nat → string) g c n (d : list (string * list nat)) :
  (∀ i, c ≤ i < c + n → key i = g) → g ∉ d.*1 →
  foldl (λ d i, dict_append d (key i) i) d (seq c n)
  = d ++ match n with 0 => [] | _ => [(g, seq c n)] end.
Proof.
  intros Hkey Hg. induction n as [|n IH]; [by rewrite app_nil_r|].
  rewrite seq_S, foldl_app, IH by (intros i Hi; apply Hkey; lia). simpl.
  rewrite (Hkey (c + n)) by lia. destruct n as [|n].
  - rewrite app_nil_r. by apply dict_append_fresh.
  - by apply dict_append_last.
Qed.

Lemma group_blocks_fold (key : nat → string) parallel_groups : ∀ c d,
  NoDup (d.*1 ++ parallel_groups.*1) →
  (∀ i gp, tagged_patterns parallel_groups !! i = Some gp →
           key (c + i) = gp.1) →
  ∃ d', foldl (λ d i, dict_append d (key i) i) d
          (seq c (length (tagged_patterns parallel_groups)))
        = d ++ d' ∧
        d'.*2 = group_blocks c parallel_groups ∧
        ∀ k, k ∈ d'.*1 → k ∈ parallel_groups.*1.
Proof.
  induction parallel_groups as [|[g ps] groups IH]; intros c d Hnd Hkey.
  { exists []. simpl. by rewrite app_nil_r. }
  unfold tagged_patterns in *. rewrite bind_cons in Hkey |- *.
  rewrite length_app, length_fmap, seq_app, foldl_app.
  rewrite fmap_cons in Hnd. simpl in Hnd.
  apply NoDup_app in Hnd as (Hndd & Hdisj & Hndg).
  apply NoDup_cons in Hndg as [Hg Hndg].
  rewrite (group_block key g c (length ps) d).
  2:{ intros i Hi. replace i with (c + (i - c)) by lia.
      rewrite (Hkey (i - c) (g, default "" (ps !! (i - c)))); [done|].
      rewrite lookup_app_l by (rewrite length_fmap; lia).
      rewrite list_lookup_fmap.
      destruct (ps !! (i - c)) eqn:E; [done|].
      apply lookup_ge_None in E. lia. }
  2:{ intros Hin. eapply Hdisj; [done|left]. }
  set (d1 := d ++ match length ps with 0 => [] | _ => [(g, seq c (length ps))] end).
  destruct (IH (c + length ps) d1) as (d' & Hfold & Hd' & Hkeys).
  - assert (∀ k, k ∈ d1.*1 → k ∈ d.*1 ∨ k = g) as Hd1.
    { intros k. unfold d1. rewrite fmap_app, elem_of_app.
      destruct (length ps); simpl; set_solver. }
    apply NoDup_app. split_and!; [|intros k [?| ->]%Hd1 ?|done].
    + unfold d1. rewrite fmap_app. apply NoDup_app. split_and!; [done| |].
      * intros k Hk Hk'. destruct (length ps); simpl in Hk'; [set_solver|].
        apply list_elem_of_singleton in Hk'. subst. eapply Hdisj; [done|left].
      * destruct (length ps); simpl; [apply NoDup_nil_2|apply NoDup_singleton].
    + eapply Hdisj; [done|by right].
    + done.
  - intros i gp Hi. rewrite <- Nat.add_assoc. apply Hkey.
    rewrite lookup_app_r by (rewrite length_fmap; lia).
    rewrite length_fmap. by replace (length ps + i - length ps) with i by lia.
  - exists (match length ps with 0 => [] | _ => [(g, seq c (length ps))] end
            ++ d').
    rewrite Hfold. unfold d1. rewrite <- app_assoc. split; [done|]. split.
    + rewrite fmap_app, Hd'. simpl. destruct ps; done.
    + intros k. rewrite fmap_app, elem_of_app, fmap_cons.
      intros [Hk|Hk]; [|right; by apply Hkeys].
      destruct (length ps); simpl in Hk; [set_solver|].
      apply list_elem_of_singleton in Hk. subst. left.
Qed.

(** ** The steps of a parallel workflow *)

Section ParallelSteps.
Variable config : ExecutionConfig.
Variable parallel_groups : list (string * list string).
Variable sequential_patterns : list string.

Local Abbreviation tagged := (tagged_patterns parallel_groups).
Local Abbreviation m := (length (tagged_patterns parallel_groups)).
Local Abbreviation q := (length sequential_patterns).
Local Abbreviation steps :=
  (parallel_steps config parallel_groups sequential_patterns).

Lemma parallel_length : length steps = m + q.
Proof. unfold steps, parallel_steps. by rewrite length_app, !length_imap. Qed.

Lemma parallel_lookup i s :
  steps !! i = Some s ↔
  (∃ gp, tagged !! i = Some gp ∧
         s = counted_step config i gp.2 (Some gp.1) []) ∨
  (m ≤ i ∧ ∃ p, sequential_patterns !! (i - m) = Some p ∧
     s = counted_step config i p None (step_name <$> seq 0 m)).
Proof.
  unfold steps, parallel_steps. fold tagged. fold m.
  destruct (decide (i < m)) as [Hlt|Hge].
  - rewrite lookup_app_l by by rewrite length_imap.
    rewrite list_lookup_imap. split.
    + destruct (tagged !! i) as [gp|]; [|done]. intros [= <-]. left. eauto.
    + intros [(gp & -> & ->)|[? _]]; [done|lia].
  - rewrite lookup_app_r by (rewrite length_imap; fold m; lia).
    rewrite length_imap, list_lookup_imap. fold m.
    replace (m + (i - m)) with i by lia. split.
    + destruct (sequential_patterns !! (i - m)) as [p|]; [|done].
      intros [= <-]. right. split; [lia|]. eauto.
    + intros [(gp & Hgp & _)|(_ & p & -> & ->)]; [|done].
      apply lookup_lt_Some in Hgp. fold m in Hgp. lia.
Qed.

Lemma parallel_named : step_id <$> steps = step_name <$> seq 0 (length steps).
Proof. apply parallel_ids. Qed.

Lemma parallel_pending s : s ∈ steps → step_status s = PENDING.
Proof.
  intros [i Hs]%list_elem_of_lookup_1.
  by apply parallel_lookup in Hs as [(? & _ & ->)|(_ & ? & _ & ->)].
Qed.

Lemma parallel_none_completed : none_completed steps.
Proof. intros s Hs. by rewrite (parallel_pending _ Hs). Qed.

Lemma parallel_reset : set_status PENDING <$> steps = steps.
Proof.
  apply list_eq; intros i. rewrite list_lookup_fmap.
  destruct (steps !! i) as [s|] eqn:Hs; [|done]. simpl. f_equal.
  by apply parallel_lookup in Hs as [(? & _ & ->)|(_ & ? & _ & ->)].
Qed.

(** A step of a group has no dependency; a sequential step depends on
    every step of the groups. *)
Lemma parallel_dep i s d :
  steps !! i = Some s →
  d ∈ step_depends_on s ↔ m ≤ i ∧ ∃ j, j < m ∧ d = step_name j.
Proof.
  intros [(gp & Hgp & ->)|(Hge & p & _ & ->)]%parallel_lookup; simpl.
  - apply lookup_lt_Some in Hgp. fold m in Hgp.
    rewrite elem_of_nil. naive_solver lia.
  - rewrite list_elem_of_fmap. setoid_rewrite elem_of_seq. naive_solver lia.
Qed.

Lemma parallel_edge i j : dep_edge steps i j → j < m ∧ m ≤ i.
Proof.
  intros (s & d & Hs & Hd & Hj).
  apply (parallel_dep i s d Hs) in Hd as (Hge & k & Hk & ->).
  apply (named_get_step_inv _ _ _ parallel_named), step_name_inj in Hj. lia.
Qed.

(** A parallel workflow with at least one step passes the validation. *)
Lemma parallel_valid : steps ≠ [] → validate_workflow steps = Some [].
Proof.
  intros Hne.
  destruct (validate_workflow_clean steps) as (errors & Herr & Hiff).
  rewrite Herr. f_equal. apply Hiff. split_and!.
  - done.
  - apply named_ids_NoDup, parallel_named.
  - intros s d [i Hs]%list_elem_of_lookup_1 Hd.
    apply (parallel_dep i s d Hs) in Hd as (Hge & k & Hk & ->).
    rewrite (named_get_step steps k); [done|apply parallel_named|].
    rewrite parallel_length. lia.
  - apply acyclic_backward. intros i j Hedge%parallel_edge. lia.
  - apply Forall_forall. intros s [i Hs]%list_elem_of_lookup_1.
    apply parallel_lookup in Hs as [(? & _ & ->)|(_ & ? & _ & ->)]; simpl.
    + apply NoDup_nil_2.
    + apply NoDup_fmap_2; [apply _|apply NoDup_seq].
Qed.

Lemma parallel_ready R i :
  i < m + q →
  is_ready (planning_state steps R) i ↔ i < m ∨ ∀ j, j < m → j ∉ R.
Proof.
  intros Hi. rewrite is_ready_planning by apply parallel_none_completed.
  assert (is_Some (steps !! i)) as [s Hs]
    by (apply lookup_lt_is_Some; by rewrite parallel_length).
  split.
  - intros (s' & Hs' & Hdeps). assert (s' = s) as -> by congruence.
    destruct (decide (i < m)) as [|Hge]; [by left|right]. intros j Hj.
    destruct (Hdeps (step_name j)) as (k & Hk & Hn).
    { apply (parallel_dep i s _ Hs). split; [lia|]. eauto. }
    rewrite (named_get_step steps j) in Hk;
      [|apply parallel_named|rewrite parallel_length; lia].
    by injection Hk as <-.
  - intros Hor. exists s. split; [done|]. intros d Hd.
    apply (parallel_dep i s d Hs) in Hd as (Hge & k & Hk & ->).
    exists k. split.
    + apply named_get_step; [apply parallel_named|].
      rewrite parallel_length. lia.
    + destruct Hor as [?|Hor]; [lia|]. by apply Hor.
Qed.

Lemma parallel_untagged l :
  (∀ i, i ∈ l → m ≤ i) → group_ready steps l = [l].
Proof.
  intros Hl. unfold group_ready.
  assert (existsb (tag_at steps) l = false) as ->; [|done].
  induction l as [|i l IH]; [done|]. simpl.
  rewrite IH by (intros j Hj; apply Hl; by right).
  rewrite orb_false_r. unfold tag_at.
  destruct (steps !! i) as [s|] eqn:Hs; [|done]. simpl.
  apply parallel_lookup in Hs as [(gp & Hgp & _)|(_ & ? & _ & ->)]; [|done].
  apply lookup_lt_Some in Hgp. fold m in Hgp.
  assert (m ≤ i) by (apply Hl; left). lia.
Qed.

(** The first round of the planner, for groups with non-empty names: one
    execution group for every group of the dictionary. *)
Lemma parallel_first_round :
  NoDup parallel_groups.*1 → (∀ g, g ∈ parallel_groups.*1 → g ≠ "") →
  m ≠ 0 → group_ready steps (seq 0 m) = group_blocks 0 parallel_groups.
Proof.
  intros Hnd Hnames Hm.
  assert (Hpos : ∀ i gp, tagged !! i = Some gp →
            gp.1 ≠ "" ∧
            steps !! i = Some (counted_step config i gp.2 (Some gp.1) [])).
  { intros i gp Hi. split; [|apply parallel_lookup; eauto].
    unfold tagged, tagged_patterns in Hi.
    apply list_elem_of_lookup_2, list_elem_of_bind in Hi
      as ([g ps] & Hin & Hg).
    apply list_elem_of_fmap in Hin as (p & -> & _). simpl.
    apply Hnames, list_elem_of_fmap. by exists (g, ps). }
  unfold group_ready.
  assert (existsb (tag_at steps) (seq 0 m) = true) as ->.
  { destruct m as [|m'] eqn:Em; [done|]. simpl.
    destruct (tagged !! 0) as [gp|] eqn:H0.
    2:{ apply lookup_ge_None in H0. fold m in H0. lia. }
    destruct (Hpos 0 gp H0) as [Hne Hs]. unfold tag_at at 1.
    rewrite Hs. simpl. unfold has_tag. simpl.
    by rewrite bool_decide_true. }
  destruct (group_blocks_fold (key_at steps) parallel_groups 0 [])
    as (d' & Hfold & Hd' & _).
  - by rewrite app_nil_l.
  - intros i gp Hi. destruct (Hpos i gp Hi) as [Hne Hs]. simpl.
    unfold key_at. rewrite Hs. simpl. unfold group_key. simpl.
    by rewrite bool_decide_true.
  - fold tagged in Hfold. fold m in Hfold. by rewrite Hfold.
Qed.

(** The plan of a parallel workflow: the steps of the groups make the
    first round, the sequential steps the single group of the second. *)
Lemma parallel_plan :
  _plan_execution_groups steps
  = Some (Ok ((if decide (m = 0) then [] else group_ready steps (seq 0 m))
              ++ (if decide (q = 0) then [] else [seq m q])),
          steps).
Proof.
  pose proof parallel_length as Hlen.
  set (layers := (if decide (m = 0) then [] else [seq 0 m])
                 ++ (if decide (q = 0) then [] else [seq m q])).
  rewrite (plan_layers steps layers).
  - rewrite parallel_reset. do 3 f_equal. unfold layers.
    rewrite bind_app. f_equal.
    + case_decide; [done|]. by rewrite bind_singleton.
    + case_decide; [done|]. rewrite bind_singleton.
      apply parallel_untagged. intros i Hi%elem_of_seq. lia.
  - rewrite Hlen, seq_app. unfold layers. rewrite concat_app. f_equal.
    + case_decide as Hm; [by rewrite Hm|]. simpl. by rewrite app_nil_r.
    + case_decide as Hq; [by rewrite Hq|]. simpl. by rewrite app_nil_r.
  - unfold layers. apply Forall_app. split; case_decide;
      try apply Forall_nil_2; apply Forall_singleton.
    + destruct m; [done|]. done.
    + destruct q; [done|]. done.
  - intros pre l post i Heq Hi.
    assert (i < m + q) as Hlt.
    { assert (i ∈ concat layers) as Hin.
      { rewrite Heq, concat_app. apply elem_of_app. by right. }
      unfold layers in Hin. rewrite concat_app in Hin.
      apply elem_of_app in Hin as [Hin|Hin]; case_decide;
        simpl in Hin; rewrite ?app_nil_r in Hin;
        try (by apply elem_of_nil in Hin); apply elem_of_seq in Hin; lia. }
    rewrite parallel_ready by done. unfold layers in Heq.
    destruct (decide (m = 0)) as [Hm|Hm]; destruct (decide (q = 0)) as [Hq|Hq];
      simpl in Heq.
    + by destruct pre.
    + destruct pre as [|? [|]]; simplify_eq/=.
      rewrite app_nil_r in Hi. split; [done|]. intros _. right.
      intros j Hj. lia.
    + destruct pre as [|? [|]]; simplify_eq/=.
      rewrite app_nil_r in Hi. split; [done|]. intros _. left.
      apply elem_of_seq in Hi. lia.
    + destruct pre as [|? [|? [|]]]; simplify_eq/=.
      * rewrite elem_of_seq. split; [|intros ?; left; lia].
        intros [?|Hno]; [lia|]. exfalso. apply (Hno 0); [lia|].
        apply elem_of_app. left. apply elem_of_seq. lia.
      * rewrite app_nil_r in Hi |- *. split; [done|]. intros _. right.
        intros j Hj. rewrite elem_of_seq. lia.
Qed.

Lemma group_blocks_nil c groups :
  length (tagged_patterns groups) = 0 → group_blocks c groups = [].
Proof.
  revert c. induction groups as [|[g ps] groups IH]; intros c; [done|].
  unfold tagged_patterns. rewrite bind_cons, length_app, length_fmap.
  intros Hlen. simpl. destruct ps as [|p ps]; [|simpl in Hlen; lia].
  simpl. apply IH. unfold tagged_patterns. simpl in Hlen. lia.
Qed.

(** The plan of a parallel workflow whose groups have non-empty names: one
    execution group for every group of the dictionary that has a pattern,
    in the order of the dictionary, then one group with all the sequential
    steps. *)
Lemma parallel_plan_named :
  NoDup parallel_groups.*1 → (∀ g, g ∈ parallel_groups.*1 → g ≠ "") →
  _plan_execution_groups steps
  = Some (Ok (group_blocks 0 parallel_groups
              ++ (if decide (q = 0) then [] else [seq m q])),
          steps).
Proof.
  intros Hnd Hnames. rewrite parallel_plan. case_decide as Hm.
  - by rewrite (group_blocks_nil 0 parallel_groups).
  - by rewrite parallel_first_round.
Qed.
End ParallelSteps.

Section Parallel.
Context {env : Environment}.

Lemma create_parallel_workflow_steps registry name parallel_groups
    sequential_patterns config w :
  let workflow :=
    (create_parallel_workflow registry name parallel_groups sequential_patterns
       config w).1.1 in
  wf_steps workflow
  = parallel_steps (default default_config config) parallel_groups
      (default [] sequential_patterns) ∧
  wf_config workflow = default default_config config ∧
  wf_name workflow = name ∧ wf_status workflow = PENDING.
Proof.
  unfold create_parallel_workflow. destruct (uuid4 w) as [workflow_id w1].
  rewrite add_parallel_groups_eq. unfold add_sequential_patterns.
  cbn [fst]. rewrite counted_fold. simpl. split; [|done].
  pose proof (parallel_ids (default default_config config) parallel_groups [])
    as Hids.
  cbv zeta in Hids. unfold parallel_steps in Hids. simpl in Hids.
  rewrite !app_nil_r, length_imap in Hids.
  unfold parallel_steps. cbv zeta. f_equal. apply imap_ext. intros i p _.
  by rewrite Hids.
Qed.

(** The inputs of a run of a parallel workflow that stops at the first
    failure: a step of a group is called on the initial input, and every
    sequential step on the outputs of all the steps of the groups. *)
Lemma parallel_run workflow parallel_groups sequential_patterns input_text w :
  wf_steps workflow
  = parallel_steps (wf_config workflow) parallel_groups sequential_patterns →
  continue_on_error (wf_config workflow) = false →
  let m := length (tagged_patterns parallel_groups) in
  ∃ res workflow' w' calls,
    execute_workflow workflow input_text w = Some (res, workflow', w', calls) ∧
    ∀ c, c ∈ calls →
      (call_step c < m → call_input c = input_text) ∧
      (m ≤ call_step c →
       ∃ outs,
         Forall2 (λ j o, ∃ s' r, wf_steps workflow' !! j = Some s' ∧
                    step_status s' = COMPLETED ∧ step_result s' = Some r ∧
                    success r = true ∧ o = output r)
                 (seq 0 m) outs ∧
         call_input c = match m with
                        | 0 => input_text
                        | _ => String.concat separator outs
                        end).
Proof.
  intros Hsteps Hcont m.
  pose proof (parallel_named (wf_config workflow) parallel_groups
                sequential_patterns) as Hids.
  rewrite <- Hsteps in Hids.
  assert (none_completed (wf_steps workflow)) as Hnc
    by (rewrite Hsteps; apply parallel_none_completed).
  pose proof (named_ids_NoDup _ Hids) as Hnd.
  pose proof (named_initial _ Hids) as Hinit.
  destruct (execute_strict_flow workflow input_text w Hnc Hnd Hinit Hcont)
    as (res & workflow' & w' & calls & Hex & Hflow).
  exists res, workflow', w', calls. split; [done|].
  intros c Hc. destruct (Hflow c Hc) as (s & outs & Hs & Hdeps & Heq).
  rewrite Hsteps in Hs.
  apply parallel_lookup in Hs as [(gp & Hgp & ->)|(Hge & p & _ & ->)].
  - apply lookup_lt_Some in Hgp. fold m in Hgp. split; [|lia].
    intros _. by rewrite Heq.
  - fold m in Hge. split; [lia|]. intros _. exists outs. simpl in Hdeps, Heq.
    fold m in Hdeps, Heq. split.
    + apply Forall2_fmap_l, Forall2_same_length_lookup in Hdeps
        as [Hl Hall].
      apply Forall2_same_length_lookup. split; [done|].
      intros i j o Hj Ho.
      destruct (Hall i j o Hj Ho)
        as (k & s' & r & Hk & Hs' & Hst & Hres & Hsucc & ->).
      simpl in Hk. apply lookup_seq in Hj as [-> Hlt].
      change (0 + i) with i in *.
      rewrite (named_get_step _ i Hids) in Hk.
      * injection Hk as <-. by exists s', r.
      * rewrite Hsteps, parallel_length. fold m. lia.
    + rewrite Heq. simpl. by destruct m.
Qed.
End Parallel.

(** * End-to-end properties *)

(** ** The validation *)

Lemma fan_in_NoDup : NoDup (step_id <$> fan_in).
Proof. apply (bool_decide_unpack _). by vm_compute. Qed.

Lemma fan_in_initial : "_initial" ∉ step_id <$> fan_in.
Proof. apply (bool_decide_unpack _). by vm_compute. Qed.

(** X1.  [_has_circular_dependencies] on a workflow with unique step ids:
    the check returns, and it answers [False] exactly when every dependency
    names a step of the workflow, the dependency graph has no cycle and no
    [depends_on] list names a step twice. *)
Theorem circular_check_decides steps :
  NoDup (step_id <$> steps) →
  ∃ b, _has_circular_dependencies steps = Some b ∧
       (b = false ↔
        deps_closed steps ∧ acyclic steps ∧
        Forall (λ s, NoDup (step_depends_on s)) steps).
Proof. apply has_circular_spec. Qed.

Lemma circular_check_decides_witness :
  NoDup (step_id <$> fan_in) ∧
  ∃ b, _has_circular_dependencies fan_in = Some b ∧
       (b = false ↔
        deps_closed fan_in ∧ acyclic fan_in ∧
        Forall (λ s, NoDup (step_depends_on s)) fan_in).
Proof.
  split; [apply fan_in_NoDup|].
  apply (circular_check_decides fan_in), fan_in_NoDup.
Defined.

(** X2.  [validate_workflow] always returns a list of errors, and the list
    is empty exactly when the workflow has a step, the step ids are unique,
    every dependency names a step, the dependency graph has no cycle and no
    [depends_on] list names a step twice.  The pattern names play no part:
    the check of lines 700-708 never adds an error. *)
Theorem validation_accepts steps :
  ∃ errors, validate_workflow steps = Some errors ∧
    (errors = [] ↔
     steps ≠ [] ∧ NoDup (step_id <$> steps) ∧ deps_closed steps ∧
     acyclic steps ∧ Forall (λ s, NoDup (step_depends_on s)) steps).
Proof. apply validate_workflow_clean. Qed.

Lemma validate_workflow_dangling_witness :
  NoDup (step_id <$> dangling_step) ∧ dangling dangling_step ∧
  ∃ errors, validate_workflow dangling_step = Some errors ∧
    "Circular dependencies detected" ∈ errors ∧
    ∃ s d, s ∈ dangling_step ∧ d ∈ step_depends_on s ∧
           get_step dangling_step d = None ∧
           dependency_message (step_id s) d ∈ errors.
Proof.
  assert (NoDup (step_id <$> dangling_step)) as Hnd
    by (apply (bool_decide_unpack _); by vm_compute).
  split; [exact Hnd|]. split; [apply dangling_step_dangling|].
  exact (validate_workflow_dangling dangling_step Hnd dangling_step_dangling).
Defined.

Lemma validate_workflow_repeated_dependency_witness :
  let s := new_step "b" "pattern_b" None ["a"; "a"] in
  NoDup (step_id <$> repeated_dependency) ∧ s ∈ repeated_dependency ∧
  ¬ NoDup (step_depends_on s) ∧
  ∃ errors, validate_workflow repeated_dependency = Some errors ∧
    "Circular dependencies detected" ∈ errors.
Proof.
  intros s.
  assert (NoDup (step_id <$> repeated_dependency)) as Hnd
    by (apply (bool_decide_unpack _); by vm_compute).
  assert (s ∈ repeated_dependency) as Hs
    by (apply (bool_decide_unpack _); by vm_compute).
  assert (¬ NoDup (step_depends_on s)) as Hdup
    by (apply (bool_decide_unpack _); by vm_compute).
  split; [exact Hnd|]. split; [exact Hs|]. split; [exact Hdup|].
  exact (validate_workflow_repeated_dependency repeated_dependency s Hnd Hs
           Hdup).
Defined.

Lemma validated_plan_witness :
  validate_workflow fan_in = Some [] ∧ none_completed fan_in ∧
  ∃ groups,
    _plan_execution_groups fan_in
    = Some (Ok groups, set_status PENDING <$> fan_in) ∧
    concat groups ≡ₚ seq 0 (length fan_in) ∧
    ∀ i s d, fan_in !! i = Some s → d ∈ step_depends_on s →
      ∃ j, get_step fan_in d = Some j ∧ strictly_earlier groups j i.
Proof.
  assert (validate_workflow fan_in = Some []) as Hval by by vm_compute.
  split; [exact Hval|]. split; [apply fan_in_none_completed|].
  exact (validated_plan fan_in Hval fan_in_none_completed).
Defined.

Lemma fan_in_pending s : s ∈ fan_in → step_status s = PENDING.
Proof.
  intros Hs. unfold fan_in in Hs.
  repeat (apply elem_of_cons in Hs as [->|Hs]; [done|]).
  by apply elem_of_nil in Hs.
Qed.

Lemma get_ready_steps_progress_witness :
  deps_closed fan_in ∧ acyclic fan_in ∧
  (∀ s, s ∈ fan_in → step_status s = PENDING ∨ step_status s = COMPLETED) ∧
  (∃ s, s ∈ fan_in ∧ step_status s = PENDING) ∧
  get_ready_steps fan_in ≠ [].
Proof.
  assert (∀ s, s ∈ fan_in → step_status s = PENDING ∨ step_status s = COMPLETED)
    as Hst by (intros s Hs; left; by apply fan_in_pending).
  assert (∃ s, s ∈ fan_in ∧ step_status s = PENDING) as Hex.
  { exists (new_step "step_1" "pattern_a" None []). split; [left|done]. }
  split; [apply fan_in_deps_closed|]. split; [apply fan_in_acyclic|].
  split; [exact Hst|]. split; [exact Hex|].
  exact (get_ready_steps_progress fan_in fan_in_deps_closed fan_in_acyclic
           Hst Hex).
Defined.

(** ** The engine *)


Lemma execute_order_witness :
  none_completed (wf_steps (sample_workflow fan_in)) ∧
  ∃ res workflow' w' calls,
    @execute_workflow sample_env (sample_workflow fan_in) "in" 0%Z
    = Some (res, workflow', w', calls) ∧
    ∀ p c s d, calls !! p = Some c →
      wf_steps (sample_workflow fan_in) !! call_step c = Some s →
      d ∈ step_depends_on s →
      ∃ j q c', get_step (wf_steps (sample_workflow fan_in)) d = Some j ∧
                q < p ∧ calls !! q = Some c' ∧ call_step c' = j.
Proof.
  split; [apply fan_in_none_completed|].
  exact (@execute_order sample_env (sample_workflow fan_in) "in" 0%Z
           fan_in_none_completed).
Defined.

Lemma execute_success_statuses_witness :
  ∃ res workflow' w' calls,
    NoDup (step_id <$> wf_steps (sample_workflow fan_in)) ∧
    @execute_workflow sample_env (sample_workflow fan_in) "in" 0%Z
    = Some (res, workflow', w', calls) ∧
    r_success res = true ∧
    (∀ s, s ∈ wf_steps workflow' →
       ∃ r, step_result s = Some r ∧
            step_status s = if success r then COMPLETED else FAILED) ∧
    r_successful_steps res + r_failed_steps res = r_total_steps res ∧
    (continue_on_error (wf_config (sample_workflow fan_in)) = false →
     (∀ s, s ∈ wf_steps workflow' → step_status s = COMPLETED) ∧
     r_successful_steps res = r_total_steps res ∧ r_failed_steps res = 0).
Proof.
  destruct (@execute_workflow sample_env (sample_workflow fan_in) "in" 0%Z)
    as [[[[res workflow'] w'] calls]|] eqn:Hexec; [|by vm_compute in Hexec].
  assert (r_success res = true) as Hsucc.
  { vm_compute in Hexec. by injection Hexec as <- <- <- <-. }
  exists res, workflow', w', calls.
  split; [apply fan_in_NoDup|]. split; [reflexivity|].
  split; [exact Hsucc|].
  exact (@execute_success_statuses sample_env (sample_workflow fan_in) "in"
           0%Z res workflow' w' calls fan_in_NoDup Hexec Hsucc).
Defined.

(** X12.  The data flow of a run on a workflow with unique step ids, none
    of them ["_initial"], and without completed steps: every call of the
    step executor is made for a step of the workflow, with the pattern and
    the timeout of that step, the provider and the model of the
    configuration, and the input that [_resolve_step_input] gives on the
    outputs recorded at the end of the run, that is the initial input and
    the outputs of the steps that are [COMPLETED].  The outputs of its
    dependencies that a step was called on are thus the ones they still
    have when the run ends. *)
Theorem run_inputs_from_recorded_outputs `{env : Environment} workflow
    input_text (w : World) :
  none_completed (wf_steps workflow) →
  NoDup (step_id <$> wf_steps workflow) →
  "_initial" ∉ step_id <$> wf_steps workflow →
  ∃ res workflow' w' calls,
    execute_workflow workflow input_text w = Some (res, workflow', w', calls) ∧
    ∀ c, c ∈ calls →
      ∃ s, wf_steps workflow !! call_step c = Some s ∧
           c = mkCall (call_step c) (step_pattern s)
                 (_resolve_step_input s
                    (recorded_outputs input_text (wf_steps workflow')))
                 (provider (wf_config workflow)) (model (wf_config workflow))
                 (step_timeout s).
Proof. apply execute_data_flow. Qed.

Lemma run_inputs_from_recorded_outputs_witness :
  none_completed (wf_steps (sample_workflow fan_in)) ∧
  NoDup (step_id <$> wf_steps (sample_workflow fan_in)) ∧
  ("_initial" ∉ step_id <$> wf_steps (sample_workflow fan_in)) ∧
  ∃ res workflow' w' calls,
    @execute_workflow sample_env (sample_workflow fan_in) "in" 0%Z
    = Some (res, workflow', w', calls) ∧
    ∀ c, c ∈ calls →
      ∃ s, wf_steps (sample_workflow fan_in) !! call_step c = Some s ∧
           c = mkCall (call_step c) (step_pattern s)
                 (_resolve_step_input s
                    (recorded_outputs "in" (wf_steps workflow')))
                 (provider (wf_config (sample_workflow fan_in)))
                 (model (wf_config (sample_workflow fan_in)))
                 (step_timeout s).
Proof.
  split; [apply fan_in_none_completed|]. split; [apply fan_in_NoDup|].
  split; [apply fan_in_initial|].
  exact (@run_inputs_from_recorded_outputs sample_env (sample_workflow fan_in)
           "in" 0%Z fan_in_none_completed fan_in_NoDup fan_in_initial).
Defined.

(** X13.  With [continue_on_error = False], on a workflow with unique step
    ids, none of them ["_initial"], and without completed steps: when the
    step executor is called for a step, every dependency of the step names
    a step that is [COMPLETED], with a successful result, at the end of the
    run; a step without dependencies is called on the initial input, and
    any other step on the outputs of all its dependencies, in the order of
    [depends_on], joined by the separator. *)
Theorem strict_run_inputs `{env : Environment} workflow input_text
    (w : World) :
  none_completed (wf_steps workflow) →
  NoDup (step_id <$> wf_steps workflow) →
  "_initial" ∉ step_id <$> wf_steps workflow →
  continue_on_error (wf_config workflow) = false →
  ∃ res workflow' w' calls,
    execute_workflow workflow input_text w = Some (res, workflow', w', calls) ∧
    ∀ c, c ∈ calls →
      ∃ s outs, wf_steps workflow !! call_step c = Some s ∧
        Forall2 (λ d o, ∃ j s' r,
                   get_step (wf_steps workflow) d = Some j ∧
                   wf_steps workflow' !! j = Some s' ∧
                   step_status s' = COMPLETED ∧ step_result s' = Some r ∧
                   success r = true ∧ o = output r)
                (step_depends_on s) outs ∧
        c = mkCall (call_step c) (step_pattern s)
              match step_depends_on s with
              | [] => input_text
              | _ => String.concat separator outs
              end
              (provider (wf_config workflow)) (model (wf_config workflow))
              (step_timeout s).
Proof. apply execute_strict_flow. Qed.

Lemma strict_run_inputs_witness :
  none_completed (wf_steps (sample_workflow fan_in)) ∧
  NoDup (step_id <$> wf_steps (sample_workflow fan_in)) ∧
  ("_initial" ∉ step_id <$> wf_steps (sample_workflow fan_in)) ∧
  continue_on_error (wf_config (sample_workflow fan_in)) = false ∧
  ∃ res workflow' w' calls,
    @execute_workflow sample_env (sample_workflow fan_in) "in" 0%Z
    = Some (res, workflow', w', calls) ∧
    ∀ c, c ∈ calls →
      ∃ s outs,
        wf_steps (sample_workflow fan_in) !! call_step c = Some s ∧
        Forall2 (λ d o, ∃ j s' r,
                   get_step (wf_steps (sample_workflow fan_in)) d = Some j ∧
                   wf_steps workflow' !! j = Some s' ∧
                   step_status s' = COMPLETED ∧ step_result s' = Some r ∧
                   success r = true ∧ o = output r)
                (step_depends_on s) outs ∧
        c = mkCall (call_step c) (step_pattern s)
              match step_depends_on s with
              | [] => "in"
              | _ => String.concat separator outs
              end
              (provider (wf_config (sample_workflow fan_in)))
              (model (wf_config (sample_workflow fan_in)))
              (step_timeout s).
Proof.
  split; [apply fan_in_none_completed|]. split; [apply fan_in_NoDup|].
  split; [apply fan_in_initial|]. split; [reflexivity|].
  exact (@strict_run_inputs sample_env (sample_workflow fan_in) "in" 0%Z
           fan_in_none_completed fan_in_NoDup fan_in_initial eq_refl).
Defined.

(** X14.  A run writes the execution state of the steps only.  The
    workflow that [execute_workflow] leaves has the steps of the workflow
    it was given, in the same number and order, each with the same id,
    pattern, condition, group, timeout, dependencies and variables; its id,
    name and configuration are unchanged, and the result carries this id
    and this number of steps. *)
Theorem run_keeps_step_definitions `{env : Environment} workflow input_text
    (w : World) :
  ∃ res workflow' w' calls,
    execute_workflow workflow input_text w = Some (res, workflow', w', calls) ∧
    shape <$> wf_steps workflow' = shape <$> wf_steps workflow ∧
    wf_id workflow' = wf_id workflow ∧ wf_name workflow' = wf_name workflow ∧
    wf_config workflow' = wf_config workflow ∧
    r_workflow_id res = wf_id workflow ∧
    r_total_steps res = length (wf_steps workflow).
Proof.
  destruct (execute_workflow_run workflow input_text w)
    as (plan & steps0 & res & workflow' & w' & calls & _ & Hex & _).
  exists res, workflow', w', calls. split; [done|]. by eapply execute_shape.
Qed.

(** ** The builders *)

(** X15.  [create_workflow] makes one step for every pattern, in order,
    and the planner puts every step of such a workflow in a group of its
    own, in the order of the patterns. *)
Theorem create_workflow_plan `{env : Environment} registry name patterns
    config (w : World) :
  let workflow := (create_workflow registry name patterns config w).1.1 in
  step_pattern <$> wf_steps workflow = patterns ∧
  _plan_execution_groups (wf_steps workflow)
  = Some (Ok ((λ i, [i]) <$> seq 0 (length patterns)), wf_steps workflow).
Proof.
  intros workflow.
  destruct (create_workflow_steps registry name patterns config w)
    as (Hsteps & _).
  fold workflow in Hsteps. rewrite Hsteps. split; [|apply sequential_plan].
  apply list_eq; intros i. rewrite list_lookup_fmap, sequential_lookup.
  by destruct (patterns !! i).
Qed.

(** X16.  A workflow that [create_workflow] builds from a non-empty list
    of patterns passes [validate_workflow]. *)
Theorem create_workflow_validates `{env : Environment} registry name
    patterns config (w : World) :
  patterns ≠ [] →
  validate_workflow
    (wf_steps (create_workflow registry name patterns config w).1.1)
  = Some [].
Proof.
  intros Hne.
  destruct (create_workflow_steps registry name patterns config w)
    as (-> & _).
  by apply sequential_valid.
Qed.

Lemma create_workflow_validates_witness :
  ["pattern_a"; "pattern_b"] ≠ [] ∧
  validate_workflow
    (wf_steps (@create_workflow sample_env ∅ "chain"
                 ["pattern_a"; "pattern_b"] None 0%Z).1.1)
  = Some [].
Proof.
  split; [discriminate|].
  apply (@create_workflow_validates sample_env). discriminate.
Defined.

(** X17.  The run of a workflow made by [create_workflow] is a pipeline.
    The step executor is called for the patterns in their order, at most
    once each and for all of them when the run succeeds, with the provider,
    the model and the timeout of the configuration.  The first pattern is
    called on the initial input, and every other pattern on the output
    that the step before it has recorded, or on the initial input when
    that step is not [COMPLETED]; with [continue_on_error = False] the step
    before it is [COMPLETED] and its output is the input. *)
Theorem create_workflow_pipeline `{env : Environment} registry name patterns
    config (w0 w : World) input_text :
  let workflow := (create_workflow registry name patterns config w0).1.1 in
  let cfg := default default_config config in
  ∃ res workflow' w' calls,
    execute_workflow workflow input_text w = Some (res, workflow', w', calls) ∧
    length calls ≤ length patterns ∧
    (r_success res = true → length calls = length patterns) ∧
    (∀ k c, calls !! k = Some c →
       ∃ p, patterns !! k = Some p ∧
         c = mkCall k p
               match k with
               | 0 => input_text
               | S k' =>
                   default input_text
                     (wf_steps workflow' !! k' ≫= recorded_output)
               end
               (provider cfg) (model cfg) (timeout_s cfg)) ∧
    (continue_on_error cfg = false →
     ∀ k c, calls !! S k = Some c →
       ∃ s r, wf_steps workflow' !! k = Some s ∧ step_status s = COMPLETED ∧
              step_result s = Some r ∧ success r = true ∧
              call_input c = output r).
Proof.
  intros workflow cfg.
  destruct (create_workflow_steps registry name patterns config w0)
    as (Hsteps & Hcfg & _).
  fold workflow in Hsteps, Hcfg. fold cfg in Hsteps, Hcfg.
  rewrite <- Hcfg in Hsteps |- *. by apply sequential_run.
Qed.

(** X18.  The plan of a workflow made by [create_parallel_workflow] from
    groups with distinct, non-empty names: one execution group for every
    group of the dictionary that has a pattern, in the order of the
    dictionary and with the steps in the order of the patterns, followed,
    when there are sequential patterns, by a single group that holds all
    their steps. *)
Theorem create_parallel_workflow_plan `{env : Environment} registry name
    parallel_groups sequential_patterns config (w : World) :
  NoDup parallel_groups.*1 → (∀ g, g ∈ parallel_groups.*1 → g ≠ "") →
  let workflow :=
    (create_parallel_workflow registry name parallel_groups
       sequential_patterns config w).1.1 in
  let m := length (tagged_patterns parallel_groups) in
  let q := length (default [] sequential_patterns) in
  _plan_execution_groups (wf_steps workflow)
  = Some (Ok (group_blocks 0 parallel_groups
              ++ (if decide (q = 0) then [] else [seq m q])),
          wf_steps workflow).
Proof.
  intros Hnd Hnames workflow m q.
  destruct (create_parallel_workflow_steps registry name parallel_groups
              sequential_patterns config w) as (Hsteps & _).
  fold workflow in Hsteps. rewrite Hsteps. by apply parallel_plan_named.
Qed.

Lemma create_parallel_workflow_plan_witness :
  NoDup sample_groups.*1 ∧ (∀ g, g ∈ sample_groups.*1 → g ≠ "") ∧
  let workflow :=
    (@create_parallel_workflow sample_env ∅ "fan" sample_groups
       (Some ["pattern_d"; "pattern_e"]) None 0%Z).1.1 in
  _plan_execution_groups (wf_steps workflow)
  = Some (Ok (group_blocks 0 sample_groups
              ++ (if decide (length (default [] (Some ["pattern_d"; "pattern_e"]))
                             = 0)
                  then []
                  else [seq (length (tagged_patterns sample_groups))
                          (length (default [] (Some ["pattern_d"; "pattern_e"])))])),
          wf_steps workflow).
Proof.
  assert (NoDup sample_groups.*1) as Hnd
    by (apply (bool_decide_unpack _); by vm_compute).
  assert (∀ g, g ∈ sample_groups.*1 → g ≠ "") as Hnames.
  { intros g Hg. unfold sample_groups in Hg. simpl in Hg.
    repeat (apply elem_of_cons in Hg as [->|Hg]; [done|]).
    by apply elem_of_nil in Hg. }
  split; [exact Hnd|]. split; [exact Hnames|].
  exact (@create_parallel_workflow_plan sample_env ∅ "fan" sample_groups
           (Some ["pattern_d"; "pattern_e"]) None 0%Z Hnd Hnames).
Defined.

(** X19.  A workflow that [create_parallel_workflow] builds with at least
    one step passes [validate_workflow]. *)
Theorem create_parallel_workflow_validates `{env : Environment} registry name
    parallel_groups sequential_patterns config (w : World) :
  let workflow :=
    (create_parallel_workflow registry name parallel_groups
       sequential_patterns config w).1.1 in
  wf_steps workflow ≠ [] → validate_workflow (wf_steps workflow) = Some [].
Proof.
  intros workflow.
  destruct (create_parallel_workflow_steps registry name parallel_groups
              sequential_patterns config w) as (Hsteps & _).
  fold workflow in Hsteps. rewrite Hsteps. apply parallel_valid.
Qed.

Lemma create_parallel_workflow_validates_witness :
  let workflow :=
    (@create_parallel_workflow sample_env ∅ "fan" sample_groups
       (Some ["pattern_d"]) None 0%Z).1.1 in
  wf_steps workflow ≠ [] ∧ validate_workflow (wf_steps workflow) = Some [].
Proof.
  intros workflow.
  assert (wf_steps workflow ≠ []) as Hne by (by vm_compute).
  split; [exact Hne|].
  exact (@create_parallel_workflow_validates sample_env ∅ "fan" sample_groups
           (Some ["pattern_d"]) None 0%Z Hne).
Defined.

(** X20.  The inputs of a run, with [continue_on_error = False], of a
    workflow made by [create_parallel_workflow]: every step of a parallel
    group is called on the initial input, and every sequential step on the
    outputs of all the steps of the parallel groups, which are then all
    [COMPLETED], joined by the separator in the order of the steps (on the
    initial input when there is no such step).  The sequential steps are
    not chained: none of them receives the output of another. *)
Theorem create_parallel_workflow_inputs `{env : Environment} registry name
    parallel_groups sequential_patterns config (w0 w : World) input_text :
  continue_on_error (default default_config config) = false →
  let workflow :=
    (create_parallel_workflow registry name parallel_groups
       sequential_patterns config w0).1.1 in
  let m := length (tagged_patterns parallel_groups) in
  ∃ res workflow' w' calls,
    execute_workflow workflow input_text w = Some (res, workflow', w', calls) ∧
    ∀ c, c ∈ calls →
      (call_step c < m → call_input c = input_text) ∧
      (m ≤ call_step c →
       ∃ outs,
         Forall2 (λ j o, ∃ s' r, wf_steps workflow' !! j = Some s' ∧
                    step_status s' = COMPLETED ∧ step_result s' = Some r ∧
                    success r = true ∧ o = output r)
                 (seq 0 m) outs ∧
         call_input c = match m with
                        | 0 => input_text
                        | _ => String.concat separator outs
                        end).
Proof.
  intros Hcont workflow m.
  destruct (create_parallel_workflow_steps registry name parallel_groups
              sequential_patterns config w0) as (Hsteps & Hcfg & _).
  fold workflow in Hsteps, Hcfg. rewrite <- Hcfg in Hsteps, Hcont.
  by apply (parallel_run workflow parallel_groups
              (default [] sequential_patterns)).
Qed.

Lemma create_parallel_workflow_inputs_witness :
  continue_on_error (default default_config None) = false ∧
  let workflow :=
    (@create_parallel_workflow sample_env ∅ "fan" sample_groups
       (Some ["pattern_d"]) None 0%Z).1.1 in
  let m := length (tagged_patterns sample_groups) in
  ∃ res workflow' w' calls,
    @execute_workflow sample_env workflow "in" 1%Z
    = Some (res, workflow', w', calls) ∧
    ∀ c, c ∈ calls →
      (call_step c < m → call_input c = "in") ∧
      (m ≤ call_step c →
       ∃ outs,
         Forall2 (λ j o, ∃ s' r, wf_steps workflow' !! j = Some s' ∧
                    step_status s' = COMPLETED ∧ step_result s' = Some r ∧
                    success r = true ∧ o = output r)
                 (seq 0 m) outs ∧
         call_input c = match m with
                        | 0 => "in"
                        | _ => String.concat separator outs
                        end).
Proof.
  split; [reflexivity|].
  exact (@create_parallel_workflow_inputs sample_env ∅ "fan" sample_groups
           (Some ["pattern_d"]) None 0%Z 1%Z "in" eq_refl).
Defined.
